(** * ctxrewriter: the rewrite engine of [ctxrewriter.go]

    The program rewrites a parsed Go file: every function type gains a
    leading [ctx context.Context] parameter, every call a leading [ctx]
    argument, and the file a leading import of [golang.org/x/net/context].

    The definitions come first.
    - [Ast]: the node structs of [go/ast] that [rewrite] switches over, as
      one shape functor [nodeF E] whose parameter [E] is the type of child
      references.
    - [Engine]: the body of [rewrite], written once over a small monad
      interface ([load] for [c := *v], [alloc] for [return &c], [store] for
      an assignment through a pointer, [mpanic] for [panic]).
    - [Tree]: the interface instantiated with finite trees and an error
      monad; this is the function the structural statements are about.
    - [Heap]: the interface instantiated with pointers into a store; this
      is the function the statements about mutation and sharing are about.
    - [Driver]: [ProcessFile] and the loop of [main], over a file system.
    - [Logic], [Examples]: the predicates the proofs use, and the inputs
      the statements are run on.
    - [Traversal]: the children [rewrite] visits, what it reaches from a
      tree, and what each case needs of its slots.
    - [Source]: [Process], the rewrite of a source text in memory.
    - [Samples]: more inputs.
    The facts follow: [TreeFacts], [HeapFacts] (with the proof that [Heap]
    computes what [Tree] computes), [DriverFacts], and the statements of
    the specification, C1 to C10; then the facts about the traversal as a
    whole ([TravFacts], [ShapeFacts], [OutputFacts], [AssertFacts],
    [AgainFacts]), about the store and the driver ([MoreHeapFacts],
    [MoreDriverFacts]), and the further properties X1 to X17. *)

From Stdlib Require Import ZArith.
From stdpp Require Import base option list strings gmap.

Open Scope string_scope.
Open Scope list_scope.

(** ** The syntax tree *)

Module Ast.

(** [token.Token] and [ast.ChanDir] are Go [int]s. *)
Definition Token := Z.
Definition ChanDir := Z.
Definition Pos := Z.

Definition ILLEGAL : Token := 0%Z.
Definition IMPORT : Token := 75%Z.
Definition VAR : Token := 85%Z.

(** A Go slice of node references: [None] is the nil slice; an element is
    [None] when the interface value or pointer stored there is nil. *)
Definition slice (E : Type) : Type := option (list (option E)).

(** [for _, x := range s] visits nothing on a nil slice. *)
Definition elems {E} (s : slice E) : list (option E) :=
  match s with None => [] | Some l => l end.

(** One constructor per concrete node type of [go/ast]. A slot of type
    [option E] is a Go pointer or interface value, [None] when nil.
    Source positions, resolved objects and scopes, and attached comment
    groups are fields that [rewrite] neither reads nor writes ([c := *v]
    copies them); they are left out, except [CallExpr.Ellipsis], which
    records whether the call is variadic. *)
Inductive nodeF (E : Type) : Type :=
  (* node types that have no case in the type switch of [rewrite] *)
  | BadExpr
  | BadStmt
  | BadDecl
  | Comment (Text : string)
  | CommentGroup (List : slice E)
  | Package (Name : string) (Files : list (string * option E))
  (* leaves *)
  | ImportSpec (Name : option E) (Path : option E)
  | BasicLit (Kind : Token) (Value : string)
  | Ident (Name : string)
  | BranchStmt (Tok : Token) (Label : option E)
  | EmptyStmt
  (* the rest, in the order of the type switch *)
  | ArrayType (Len : option E) (Elt : option E)
  | AssignStmt (Lhs : slice E) (Tok : Token) (Rhs : slice E)
  | BinaryExpr (X : option E) (Op : Token) (Y : option E)
  | BlockStmt (List : slice E)
  | CallExpr (Fun : option E) (Args : slice E) (Ellipsis : Pos)
  | CaseClause (List : slice E) (Body : slice E)
  | ChanType (Dir : ChanDir) (Value : option E)
  | CommClause (Comm : option E) (Body : slice E)
  | CompositeLit (Type_ : option E) (Elts : slice E)
  | DeclStmt (Decl : option E)
  | DeferStmt (Call : option E)
  | Ellipsis (Elt : option E)
  | ExprStmt (X : option E)
  | Field (Names : slice E) (Type_ : option E) (Tag : option E)
  | FieldList (List : slice E)
  | File (Name : option E) (Decls : slice E) (Imports : slice E)
         (Unresolved : slice E) (Comments : slice E)
  | ForStmt (Init : option E) (Cond : option E) (Post : option E)
            (Body : option E)
  | FuncDecl (Recv : option E) (Name : option E) (Type_ : option E)
             (Body : option E)
  | FuncLit (Type_ : option E) (Body : option E)
  | FuncType (Params : option E) (Results : option E)
  | GenDecl (Tok : Token) (Specs : slice E)
  | GoStmt (Call : option E)
  | IfStmt (Init : option E) (Cond : option E) (Body : option E)
           (Else : option E)
  | IncDecStmt (X : option E) (Tok : Token)
  | IndexExpr (X : option E) (Index : option E)
  | InterfaceType (Methods : option E) (Incomplete : bool)
  | KeyValueExpr (Key : option E) (Value : option E)
  | LabeledStmt (Label : option E) (Stmt : option E)
  | MapType (Key : option E) (Value : option E)
  | ParenExpr (X : option E)
  | RangeStmt (Key : option E) (Value : option E) (Tok : Token)
              (X : option E) (Body : option E)
  | ReturnStmt (Results : slice E)
  | SelectStmt (Body : option E)
  | SelectorExpr (X : option E) (Sel : option E)
  | SendStmt (Chan : option E) (Value : option E)
  | SliceExpr (X : option E) (Low : option E) (High : option E)
              (Max : option E) (Slice3 : bool)
  | StarExpr (X : option E)
  | StructType (Fields : option E) (Incomplete : bool)
  | SwitchStmt (Init : option E) (Tag : option E) (Body : option E)
  | TypeAssertExpr (X : option E) (Type_ : option E)
  | TypeSpec (Name : option E) (Type_ : option E)
  | TypeSwitchStmt (Init : option E) (Assign : option E) (Body : option E)
  | UnaryExpr (Op : Token) (X : option E)
  | ValueSpec (Names : slice E) (Type_ : option E) (Values : slice E).

Arguments BadExpr {E}.
Arguments BadStmt {E}.
Arguments BadDecl {E}.
Arguments Comment {E} Text.
Arguments CommentGroup {E} List.
Arguments Package {E} Name Files.
Arguments ImportSpec {E} Name Path.
Arguments BasicLit {E} Kind Value.
Arguments Ident {E} Name.
Arguments BranchStmt {E} Tok Label.
Arguments EmptyStmt {E}.
Arguments ArrayType {E} Len Elt.
Arguments AssignStmt {E} Lhs Tok Rhs.
Arguments BinaryExpr {E} X Op Y.
Arguments BlockStmt {E} List.
Arguments CallExpr {E} Fun Args Ellipsis.
Arguments CaseClause {E} List Body.
Arguments ChanType {E} Dir Value.
Arguments CommClause {E} Comm Body.
Arguments CompositeLit {E} Type_ Elts.
Arguments DeclStmt {E} Decl.
Arguments DeferStmt {E} Call.
Arguments Ellipsis {E} Elt.
Arguments ExprStmt {E} X.
Arguments Field {E} Names Type_ Tag.
Arguments FieldList {E} List.
Arguments File {E} Name Decls Imports Unresolved Comments.
Arguments ForStmt {E} Init Cond Post Body.
Arguments FuncDecl {E} Recv Name Type_ Body.
Arguments FuncLit {E} Type_ Body.
Arguments FuncType {E} Params Results.
Arguments GenDecl {E} Tok Specs.
Arguments GoStmt {E} Call.
Arguments IfStmt {E} Init Cond Body Else.
Arguments IncDecStmt {E} X Tok.
Arguments IndexExpr {E} X Index.
Arguments InterfaceType {E} Methods Incomplete.
Arguments KeyValueExpr {E} Key Value.
Arguments LabeledStmt {E} Label Stmt.
Arguments MapType {E} Key Value.
Arguments ParenExpr {E} X.
Arguments RangeStmt {E} Key Value Tok X Body.
Arguments ReturnStmt {E} Results.
Arguments SelectStmt {E} Body.
Arguments SelectorExpr {E} X Sel.
Arguments SendStmt {E} Chan Value.
Arguments SliceExpr {E} X Low High Max Slice3.
Arguments StarExpr {E} X.
Arguments StructType {E} Fields Incomplete.
Arguments SwitchStmt {E} Init Tag Body.
Arguments TypeAssertExpr {E} X Type_.
Arguments TypeSpec {E} Name Type_.
Arguments TypeSwitchStmt {E} Init Assign Body.
Arguments UnaryExpr {E} Op X.
Arguments ValueSpec {E} Names Type_ Values.

(** The interfaces of [go/ast], as predicates on the concrete type: which
    node types have an [exprNode], [stmtNode], [declNode] or [specNode]
    method. *)
Definition isExpr {E} (s : nodeF E) : bool :=
  match s with
  | BadExpr | Ident _ | Ellipsis _ | BasicLit _ _ | FuncLit _ _
  | CompositeLit _ _ | ParenExpr _ | SelectorExpr _ _ | IndexExpr _ _
  | SliceExpr _ _ _ _ _ | TypeAssertExpr _ _ | CallExpr _ _ _ | StarExpr _
  | UnaryExpr _ _ | BinaryExpr _ _ _ | KeyValueExpr _ _ | ArrayType _ _
  | StructType _ _ | FuncType _ _ | InterfaceType _ _ | MapType _ _
  | ChanType _ _ => true
  | _ => false
  end.

Definition isStmt {E} (s : nodeF E) : bool :=
  match s with
  | BadStmt | DeclStmt _ | EmptyStmt | LabeledStmt _ _ | ExprStmt _
  | SendStmt _ _ | IncDecStmt _ _ | AssignStmt _ _ _ | GoStmt _
  | DeferStmt _ | ReturnStmt _ | BranchStmt _ _ | BlockStmt _
  | IfStmt _ _ _ _ | CaseClause _ _ | SwitchStmt _ _ _
  | TypeSwitchStmt _ _ _ | CommClause _ _ | SelectStmt _
  | ForStmt _ _ _ _ | RangeStmt _ _ _ _ _ => true
  | _ => false
  end.

Definition isDecl {E} (s : nodeF E) : bool :=
  match s with BadDecl | GenDecl _ _ | FuncDecl _ _ _ _ => true | _ => false end.

Definition isSpec {E} (s : nodeF E) : bool :=
  match s with
  | ImportSpec _ _ | ValueSpec _ _ _ | TypeSpec _ _ => true
  | _ => false
  end.

(** The concrete pointer types [rewrite] asserts its result to. *)
Definition isBlockStmt {E} (s : nodeF E) : bool :=
  match s with BlockStmt _ => true | _ => false end.
Definition isCallExpr {E} (s : nodeF E) : bool :=
  match s with CallExpr _ _ _ => true | _ => false end.
Definition isField {E} (s : nodeF E) : bool :=
  match s with Field _ _ _ => true | _ => false end.
Definition isFieldList {E} (s : nodeF E) : bool :=
  match s with FieldList _ => true | _ => false end.
Definition isFuncType {E} (s : nodeF E) : bool :=
  match s with FuncType _ _ => true | _ => false end.

(** The first case of the type switch: node types returned as they are. *)
Definition isLeaf {E} (s : nodeF E) : bool :=
  match s with
  | ImportSpec _ _ | BasicLit _ _ | Ident _ | BranchStmt _ _ | EmptyStmt => true
  | _ => false
  end.

(** Node types the type switch has a case for; the others reach
    [default]. *)
Definition hasRule {E} (s : nodeF E) : bool :=
  match s with
  | BadExpr | BadStmt | BadDecl | Comment _ | CommentGroup _ | Package _ _ => false
  | _ => true
  end.

(** The concrete type of a node, the discriminant the type switch looks
    at: the struct with every field at its zero value. *)
Definition kindOf {E} (s : nodeF E) : nodeF Empty_set :=
  match s with
  | BadExpr => BadExpr
  | BadStmt => BadStmt
  | BadDecl => BadDecl
  | Comment _ => Comment EmptyString
  | CommentGroup _ => CommentGroup None
  | Package _ _ => Package EmptyString []
  | ImportSpec _ _ => ImportSpec None None
  | BasicLit _ _ => BasicLit 0%Z EmptyString
  | Ident _ => Ident EmptyString
  | BranchStmt _ _ => BranchStmt 0%Z None
  | EmptyStmt => EmptyStmt
  | ArrayType _ _ => ArrayType None None
  | AssignStmt _ _ _ => AssignStmt None 0%Z None
  | BinaryExpr _ _ _ => BinaryExpr None 0%Z None
  | BlockStmt _ => BlockStmt None
  | CallExpr _ _ _ => CallExpr None None 0%Z
  | CaseClause _ _ => CaseClause None None
  | ChanType _ _ => ChanType 0%Z None
  | CommClause _ _ => CommClause None None
  | CompositeLit _ _ => CompositeLit None None
  | DeclStmt _ => DeclStmt None
  | DeferStmt _ => DeferStmt None
  | Ellipsis _ => Ellipsis None
  | ExprStmt _ => ExprStmt None
  | Field _ _ _ => Field None None None
  | FieldList _ => FieldList None
  | File _ _ _ _ _ => File None None None None None
  | ForStmt _ _ _ _ => ForStmt None None None None
  | FuncDecl _ _ _ _ => FuncDecl None None None None
  | FuncLit _ _ => FuncLit None None
  | FuncType _ _ => FuncType None None
  | GenDecl _ _ => GenDecl 0%Z None
  | GoStmt _ => GoStmt None
  | IfStmt _ _ _ _ => IfStmt None None None None
  | IncDecStmt _ _ => IncDecStmt None 0%Z
  | IndexExpr _ _ => IndexExpr None None
  | InterfaceType _ _ => InterfaceType None false
  | KeyValueExpr _ _ => KeyValueExpr None None
  | LabeledStmt _ _ => LabeledStmt None None
  | MapType _ _ => MapType None None
  | ParenExpr _ => ParenExpr None
  | RangeStmt _ _ _ _ _ => RangeStmt None None 0%Z None None
  | ReturnStmt _ => ReturnStmt None
  | SelectStmt _ => SelectStmt None
  | SelectorExpr _ _ => SelectorExpr None None
  | SendStmt _ _ => SendStmt None None
  | SliceExpr _ _ _ _ _ => SliceExpr None None None None false
  | StarExpr _ => StarExpr None
  | StructType _ _ => StructType None false
  | SwitchStmt _ _ _ => SwitchStmt None None None
  | TypeAssertExpr _ _ => TypeAssertExpr None None
  | TypeSpec _ _ => TypeSpec None None
  | TypeSwitchStmt _ _ _ => TypeSwitchStmt None None None
  | UnaryExpr _ _ => UnaryExpr 0%Z None
  | ValueSpec _ _ _ => ValueSpec None None None
  end.

End Ast.
Import Ast.

(** ** The rewrite engine *)

Module Engine.

(** What a [panic] carries: the node given to [panic(node)] in the
    [default] case ([None] for the nil interface value), or one of the two
    run-time panics the code can raise, a nil pointer dereference at
    [c := *v] and a failed type assertion. *)
Inductive panicv (E : Type) : Type :=
  | UnknownNode (node : option E)
  | NilDeref
  | TypeAssertion.
Arguments UnknownNode {E} node.
Arguments NilDeref {E}.
Arguments TypeAssertion {E}.

(** The operations the body of [rewrite] uses on its node references. *)
Record Mem (E : Type) (M : Type -> Type) : Type := {
  mret : forall A, A -> M A;
  mbind : forall A B, M A -> (A -> M B) -> M B;
  mpanic : forall A, panicv E -> M A;
  (** [*v] *)
  load : E -> M (nodeF E);
  (** [&c], for a struct value [c] that is new *)
  alloc : nodeF E -> M E;
  (** [*p = c]; yields the reference under which the updated struct is
      found *)
  store : E -> nodeF E -> M E
}.
Arguments mret {E M} _ {A} _.
Arguments mbind {E M} _ {A B} _ _.
Arguments mpanic {E M} _ {A} _.
Arguments load {E M} _ _.
Arguments alloc {E M} _ _.
Arguments store {E M} _ _ _.

Definition ctxVariable : string := "ctx".

Definition dquote : string := String (Ascii.ascii_of_nat 34) EmptyString.

(** The Go raw string [`"golang.org/x/net/context"`], quotes included. *)
Definition contextImportPath : string :=
  dquote ++ "golang.org/x/net/context" ++ dquote.

Section Rewrite.
Context {E : Type} {M : Type -> Type} (ops : Mem E M).

Notation "x <- m ;; k" := (mbind ops m (fun x => k))
  (at level 100, m at next level, right associativity, only parsing).
Local Abbreviation ret := (mret ops).

(** The recursive call, [rewrite(...)]. *)
Variable rec : E -> M E.

(** [rewrite(x).(T)]: the recursive call followed by a type assertion.
    When [x] is a nil interface value the call reaches [default] and
    panics with it ([nilp := UnknownNode None]); when [x] is a nil pointer
    of a concrete node type the call reaches that type's case and
    [c := *v] panics ([nilp := NilDeref]). *)
Definition rewriteAs (isT : nodeF E -> bool) (nilp : panicv E)
    (x : option E) : M E :=
  match x with
  | None => mpanic ops nilp
  | Some e =>
      e' <- rec e ;;
      s <- load ops e' ;;
      if isT s then ret e' else mpanic ops TypeAssertion
  end.

(** [c.X = rewrite(c.X).(T)] *)
Definition rewriteReq isT nilp (x : option E) : M (option E) :=
  e <- rewriteAs isT nilp x ;; ret (Some e).

(** [if c.X != nil { c.X = rewrite(c.X).(T) }] *)
Definition rewriteOpt isT nilp (x : option E) : M (option E) :=
  match x with
  | None => ret None
  | Some _ => rewriteReq isT nilp x
  end.

Definition rewriteExpr := rewriteReq isExpr (UnknownNode None).
Definition rewriteStmt := rewriteReq isStmt (UnknownNode None).
Definition rewriteDecl := rewriteReq isDecl (UnknownNode None).
Definition rewriteSpec := rewriteReq isSpec (UnknownNode None).
Definition rewriteBlockStmt := rewriteReq isBlockStmt NilDeref.
Definition rewriteCallExpr := rewriteReq isCallExpr NilDeref.
Definition rewriteField := rewriteReq isField NilDeref.
Definition rewriteFieldList := rewriteReq isFieldList NilDeref.
Definition rewriteFuncType := rewriteReq isFuncType NilDeref.

Definition rewriteExprOpt := rewriteOpt isExpr (UnknownNode None).
Definition rewriteStmtOpt := rewriteOpt isStmt (UnknownNode None).
Definition rewriteBlockStmtOpt := rewriteOpt isBlockStmt NilDeref.
Definition rewriteFieldListOpt := rewriteOpt isFieldList NilDeref.

(** The loop [for _, x := range xs { new = append(new, f(x)) }]. *)
Definition rewriteEach (f : option E -> M (option E)) :
    list (option E) -> M (list (option E)) :=
  fix go xs :=
    match xs with
    | [] => ret []
    | x :: xs' => x' <- f x ;; xs'' <- go xs' ;; ret (x' :: xs'')
    end.

(** The same loop over a slice that may be nil: [range] over the nil
    slice runs no iteration. *)
Definition rewriteRange (f : option E -> M (option E)) (xs : slice E) :
    M (list (option E)) :=
  match xs with
  | None => ret []
  | Some l => rewriteEach f l
  end.

(** The loop guarded by [if xs == nil { return nil }] (or, inline,
    [if c.List != nil { ... }]). *)
Definition rewriteSlice (f : option E -> M (option E)) (xs : slice E) :
    M (slice E) :=
  match xs with
  | None => ret None
  | Some l => l' <- rewriteEach f l ;; ret (Some l')
  end.

Definition rewriteExprs := rewriteSlice rewriteExpr.
Definition rewriteStmts := rewriteSlice rewriteStmt.

(** The body of [rewrite]: [v] is the argument [node], [s] the struct it
    points to. Every case but the leaves starts with [c := *v], assigns
    the fields of the copy [c], and returns [&c]. *)
Definition rewriteStep (v : E) (s : nodeF E) : M E :=
  match s with
  | BadExpr | BadStmt | BadDecl | Comment _ | CommentGroup _
  | Package _ _ =>
      mpanic ops (UnknownNode (Some v))
  | ImportSpec _ _ | BasicLit _ _ | Ident _ | BranchStmt _ _ | EmptyStmt =>
      ret v
  | ArrayType len elt =>
      len <- rewriteExprOpt len ;;
      elt <- rewriteExpr elt ;;
      alloc ops (ArrayType len elt)
  | AssignStmt lhs tok rhs =>
      lhs <- rewriteExprs lhs ;;
      rhs <- rewriteExprs rhs ;;
      alloc ops (AssignStmt lhs tok rhs)
  | BinaryExpr x op y =>
      x <- rewriteExpr x ;;
      y <- rewriteExpr y ;;
      alloc ops (BinaryExpr x op y)
  | BlockStmt l =>
      l <- rewriteStmts l ;;
      alloc ops (BlockStmt l)
  | CallExpr fn args ell =>
      fn <- rewriteExpr fn ;;
      ctx <- alloc ops (Ident ctxVariable) ;;
      args <- rewriteExprs args ;;
      alloc ops (CallExpr fn (Some (Some ctx :: elems args)) ell)
  | CaseClause l body =>
      l <- rewriteExprs l ;;
      body <- rewriteStmts body ;;
      alloc ops (CaseClause l body)
  | ChanType dir value =>
      value <- rewriteExpr value ;;
      alloc ops (ChanType dir value)
  | CommClause comm body =>
      comm <- rewriteStmtOpt comm ;;
      body <- rewriteStmts body ;;
      alloc ops (CommClause comm body)
  | CompositeLit ty elts =>
      ty <- rewriteExprOpt ty ;;
      elts <- rewriteExprs elts ;;
      alloc ops (CompositeLit ty elts)
  | DeclStmt decl =>
      decl <- rewriteDecl decl ;;
      alloc ops (DeclStmt decl)
  | DeferStmt call =>
      call <- rewriteCallExpr call ;;
      alloc ops (DeferStmt call)
  | Ellipsis elt =>
      elt <- rewriteExprOpt elt ;;
      alloc ops (Ellipsis elt)
  | ExprStmt x =>
      x <- rewriteExpr x ;;
      alloc ops (ExprStmt x)
  | Field names ty tag =>
      ty <- rewriteExpr ty ;;
      alloc ops (Field names ty tag)
  | FieldList l =>
      l <- rewriteSlice rewriteField l ;;
      alloc ops (FieldList l)
  | File name decls imports unresolved comments =>
      lit <- alloc ops (BasicLit ILLEGAL contextImportPath) ;;
      spec <- alloc ops (ImportSpec None (Some lit)) ;;
      imp <- alloc ops (GenDecl IMPORT (Some [Some spec])) ;;
      new_decls <- rewriteRange rewriteDecl decls ;;
      alloc ops (File name (Some (Some imp :: new_decls)) imports
                   unresolved comments)
  | ForStmt init cond post body =>
      init <- rewriteStmtOpt init ;;
      cond <- rewriteExprOpt cond ;;
      post <- rewriteStmtOpt post ;;
      body <- rewriteBlockStmtOpt body ;;
      alloc ops (ForStmt init cond post body)
  | FuncDecl recv name ty body =>
      body <- rewriteBlockStmtOpt body ;;
      ty <- rewriteFuncType ty ;;
      alloc ops (FuncDecl recv name ty body)
  | FuncLit ty body =>
      ty <- rewriteFuncType ty ;;
      body <- rewriteBlockStmtOpt body ;;
      alloc ops (FuncLit ty body)
  | FuncType params results =>
      (* c.Params = rewrite(c.Params).( *ast.FieldList) *)
      p <- rewriteAs isFieldList NilDeref params ;;
      (* c.Params.List = append([]*ast.Field{{...}}, c.Params.List...) *)
      name <- alloc ops (Ident ctxVariable) ;;
      x <- alloc ops (Ident "context") ;;
      sel <- alloc ops (Ident "Context") ;;
      ty <- alloc ops (SelectorExpr (Some x) (Some sel)) ;;
      fld <- alloc ops (Field (Some [Some name]) (Some ty) None) ;;
      pl <- load ops p ;;
      p <- match pl with
           | FieldList l => store ops p (FieldList (Some (Some fld :: elems l)))
           | _ => mpanic ops TypeAssertion
           end ;;
      results <- rewriteFieldListOpt results ;;
      alloc ops (FuncType (Some p) results)
  | GenDecl tok specs =>
      specs <- rewriteSlice rewriteSpec specs ;;
      alloc ops (GenDecl tok specs)
  | GoStmt call =>
      call <- rewriteCallExpr call ;;
      alloc ops (GoStmt call)
  | IfStmt init cond body els =>
      init <- rewriteStmtOpt init ;;
      cond <- rewriteExprOpt cond ;;
      body <- rewriteBlockStmtOpt body ;;
      els <- rewriteStmtOpt els ;;
      alloc ops (IfStmt init cond body els)
  | IncDecStmt x tok =>
      x <- rewriteExpr x ;;
      alloc ops (IncDecStmt x tok)
  | IndexExpr x index =>
      x <- rewriteExpr x ;;
      index <- rewriteExpr index ;;
      alloc ops (IndexExpr x index)
  | InterfaceType methods incomplete =>
      methods <- rewriteFieldList methods ;;
      alloc ops (InterfaceType methods incomplete)
  | KeyValueExpr key value =>
      key <- rewriteExpr key ;;
      value <- rewriteExpr value ;;
      alloc ops (KeyValueExpr key value)
  | LabeledStmt label stmt =>
      stmt <- rewriteStmt stmt ;;
      alloc ops (LabeledStmt label stmt)
  | MapType key value =>
      key <- rewriteExpr key ;;
      value <- rewriteExpr value ;;
      alloc ops (MapType key value)
  | ParenExpr x =>
      x <- rewriteExpr x ;;
      alloc ops (ParenExpr x)
  | RangeStmt key value tok x body =>
      key <- rewriteExprOpt key ;;
      value <- rewriteExprOpt value ;;
      x <- rewriteExprOpt x ;;
      body <- rewriteBlockStmtOpt body ;;
      alloc ops (RangeStmt key value tok x body)
  | ReturnStmt results =>
      results <- rewriteExprs results ;;
      alloc ops (ReturnStmt results)
  | SelectStmt body =>
      body <- rewriteBlockStmtOpt body ;;
      alloc ops (SelectStmt body)
  | SelectorExpr x sel =>
      x <- rewriteExpr x ;;
      alloc ops (SelectorExpr x sel)
  | SendStmt chan value =>
      chan <- rewriteExprOpt chan ;;
      value <- rewriteExprOpt value ;;
      alloc ops (SendStmt chan value)
  | SliceExpr x low high max slice3 =>
      x <- rewriteExpr x ;;
      low <- rewriteExprOpt low ;;
      high <- rewriteExprOpt high ;;
      max <- rewriteExprOpt max ;;
      alloc ops (SliceExpr x low high max slice3)
  | StarExpr x =>
      x <- rewriteExpr x ;;
      alloc ops (StarExpr x)
  | StructType fields incomplete =>
      fields <- rewriteFieldList fields ;;
      alloc ops (StructType fields incomplete)
  | SwitchStmt init tag body =>
      init <- rewriteStmtOpt init ;;
      tag <- rewriteExprOpt tag ;;
      body <- rewriteBlockStmtOpt body ;;
      alloc ops (SwitchStmt init tag body)
  | TypeAssertExpr x ty =>
      x <- rewriteExprOpt x ;;
      ty <- rewriteExprOpt ty ;;
      alloc ops (TypeAssertExpr x ty)
  | TypeSpec name ty =>
      ty <- rewriteExpr ty ;;
      alloc ops (TypeSpec name ty)
  | TypeSwitchStmt init assign body =>
      init <- rewriteStmtOpt init ;;
      assign <- rewriteStmtOpt assign ;;
      body <- rewriteBlockStmtOpt body ;;
      alloc ops (TypeSwitchStmt init assign body)
  | UnaryExpr op x =>
      x <- rewriteExpr x ;;
      alloc ops (UnaryExpr op x)
  | ValueSpec names ty values =>
      values <- rewriteExprs values ;;
      alloc ops (ValueSpec names ty values)
  end.
End Rewrite.

Arguments rewriteAs : simpl never.
Arguments rewriteReq : simpl never.
Arguments rewriteOpt : simpl never.
Arguments rewriteEach : simpl never.
Arguments rewriteRange : simpl never.
Arguments rewriteSlice : simpl never.

End Engine.
Import Engine.

(** ** Trees *)

Module Tree.

(** A finite syntax tree: a struct whose child references are trees. *)
#[warnings="-register-all"]
Inductive node : Type := Node (s : nodeF node).

Definition struct_of (n : node) : nodeF node := match n with Node s => s end.

Inductive result (A : Type) : Type :=
  | Ok (a : A)
  | Panic (p : panicv node).
Arguments Ok {A} a.
Arguments Panic {A} p.

Definition bind {A B} (m : result A) (k : A -> result B) : result B :=
  match m with Ok a => k a | Panic p => Panic p end.

(** On trees a reference is the struct itself: nothing is shared, and a
    store yields the updated struct. *)
Definition mem : Mem node result := {|
  mret := @Ok;
  mbind := @bind;
  mpanic := @Panic;
  load := fun n => Ok (struct_of n);
  alloc := fun s => Ok (Node s);
  store := fun _ s => Ok (Node s)
|}.

Fixpoint rewrite (n : node) : result node :=
  match n with Node s => rewriteStep mem rewrite n s end.

(** The nodes [rewrite] makes up: the argument [ctx], the parameter
    [ctx context.Context], and the import declaration. *)
Definition ctxIdent : node := Node (Ident ctxVariable).

Definition ctxParam : node :=
  Node (Field (Some [Some (Node (Ident ctxVariable))])
          (Some (Node (SelectorExpr (Some (Node (Ident "context")))
                                    (Some (Node (Ident "Context"))))))
          None).

Definition contextImport : node :=
  Node (GenDecl IMPORT
          (Some [Some (Node (ImportSpec None
                   (Some (Node (BasicLit ILLEGAL contextImportPath)))))])).

(** A function type whose parameter list starts with [ctx context.Context]
    and goes on with [ps]. *)
Definition leadsWithCtx (ps : list (option node)) (ft : node) : Prop :=
  exists results,
    ft = Node (FuncType (Some (Node (FieldList (Some (Some ctxParam :: ps)))))
                 results).

(** *** What the helpers return *)

(** [x'] is the result of rewriting the node in slot [x], and has passed
    the type assertion [isT]. *)
Definition rewritesTo (isT : nodeF node -> bool) (x x' : option node) : Prop :=
  exists e e', x = Some e /\ x' = Some e' /\
    rewrite e = Ok e' /\ isT (struct_of e') = true.

(** An optional slot: absent stays absent, present is rewritten. *)
Definition rewritesToOpt (isT : nodeF node -> bool) (x x' : option node) : Prop :=
  (x = None /\ x' = None) \/ rewritesTo isT x x'.

(** A slice: nil stays nil, otherwise the elements are related one by one,
    in order. *)
Definition sliceRel (R : option node -> option node -> Prop)
    (xs xs' : slice node) : Prop :=
  match xs, xs' with
  | None, None => True
  | Some l, Some l' => Forall2 R l l'
  | _, _ => False
  end.

End Tree.

(** ** Pointers into a store *)

Module Heap.

(** A pointer is an index into the store; the store holds one struct per
    allocated node, and allocation appends. A slice field is held in the
    struct by value: [rewrite] never assigns to an element of a slice, it
    builds its slices with [make] and [append] on a backing array of their
    own, so the backing arrays that input and output share are only read. *)
Abbreviation loc := nat (only parsing).
Abbreviation heap := (list (nodeF nat)) (only parsing).

(** A run ends with a value and a store, or with a panic, or it is stuck:
    the fuel of the recursion ran out, or a pointer outside the store was
    followed (which Go rules out). *)
Inductive outcome (A : Type) : Type :=
  | Done (a : A) (h : heap)
  | Panicked (p : panicv loc)
  | Stuck.
Arguments Done {A} a h.
Arguments Panicked {A} p.
Arguments Stuck {A}.

Definition comp (A : Type) : Type := heap -> outcome A.

Definition bind {A B} (m : comp A) (k : A -> comp B) : comp B :=
  fun h =>
    match m h with
    | Done a h' => k a h'
    | Panicked p => Panicked p
    | Stuck => Stuck
    end.

Definition hload (l : loc) : comp (nodeF loc) :=
  fun h => match h !! l with Some s => Done s h | None => Stuck end.

Definition halloc (s : nodeF loc) : comp loc :=
  fun h => Done (length h) (h ++ [s]).

Definition hstore (l : loc) (s : nodeF loc) : comp loc :=
  fun h => if decide (l < length h) then Done l (<[l := s]> h) else Stuck.

Definition mem : Mem loc comp := {|
  mret := fun A a h => Done a h;
  mbind := @bind;
  mpanic := fun A p _ => Panicked p;
  load := hload;
  alloc := halloc;
  store := hstore
|}.

(** [rewrite] on pointers. The store may hold a cyclic graph, so the
    recursion is bounded by [fuel]. *)
Fixpoint rewrite (fuel : nat) (v : loc) : comp loc :=
  match fuel with
  | O => fun _ => Stuck
  | S fuel => bind (hload v) (rewriteStep mem (rewrite fuel) v)
  end.

(** *** Reading a tree out of the store *)

Section Traverse.
Context {A B : Type} (f : A -> option B).

Definition travOpt (x : option A) : option (option B) :=
  match x with
  | None => Some None
  | Some a => b ← f a; Some (Some b)
  end.

Definition travSlice (xs : slice A) : option (slice B) :=
  match xs with
  | None => Some None
  | Some l => l' ← mapM travOpt l; Some (Some l')
  end.

Definition travFile (nf : string * option A) : option (string * option B) :=
  x ← travOpt nf.2; Some (nf.1, x).

(** The same struct with every child reference replaced through [f]. *)
Definition traverseF (s : nodeF A) : option (nodeF B) :=
  match s with
  | BadExpr => Some BadExpr
  | BadStmt => Some BadStmt
  | BadDecl => Some BadDecl
  | Comment t => Some (Comment t)
  | CommentGroup l => l ← travSlice l; Some (CommentGroup l)
  | Package n fs => fs ← mapM travFile fs; Some (Package n fs)
  | ImportSpec n p => n ← travOpt n; p ← travOpt p; Some (ImportSpec n p)
  | BasicLit k v => Some (BasicLit k v)
  | Ident n => Some (Ident n)
  | BranchStmt t l => l ← travOpt l; Some (BranchStmt t l)
  | EmptyStmt => Some EmptyStmt
  | ArrayType a b => a ← travOpt a; b ← travOpt b; Some (ArrayType a b)
  | AssignStmt a t b => a ← travSlice a; b ← travSlice b; Some (AssignStmt a t b)
  | BinaryExpr a o b => a ← travOpt a; b ← travOpt b; Some (BinaryExpr a o b)
  | BlockStmt a => a ← travSlice a; Some (BlockStmt a)
  | CallExpr a b e => a ← travOpt a; b ← travSlice b; Some (CallExpr a b e)
  | CaseClause a b => a ← travSlice a; b ← travSlice b; Some (CaseClause a b)
  | ChanType d a => a ← travOpt a; Some (ChanType d a)
  | CommClause a b => a ← travOpt a; b ← travSlice b; Some (CommClause a b)
  | CompositeLit a b => a ← travOpt a; b ← travSlice b; Some (CompositeLit a b)
  | DeclStmt a => a ← travOpt a; Some (DeclStmt a)
  | DeferStmt a => a ← travOpt a; Some (DeferStmt a)
  | Ellipsis a => a ← travOpt a; Some (Ellipsis a)
  | ExprStmt a => a ← travOpt a; Some (ExprStmt a)
  | Field a b c => a ← travSlice a; b ← travOpt b; c ← travOpt c; Some (Field a b c)
  | FieldList a => a ← travSlice a; Some (FieldList a)
  | File a b c d e =>
      a ← travOpt a; b ← travSlice b; c ← travSlice c; d ← travSlice d;
      e ← travSlice e; Some (File a b c d e)
  | ForStmt a b c d =>
      a ← travOpt a; b ← travOpt b; c ← travOpt c; d ← travOpt d;
      Some (ForStmt a b c d)
  | FuncDecl a b c d =>
      a ← travOpt a; b ← travOpt b; c ← travOpt c; d ← travOpt d;
      Some (FuncDecl a b c d)
  | FuncLit a b => a ← travOpt a; b ← travOpt b; Some (FuncLit a b)
  | FuncType a b => a ← travOpt a; b ← travOpt b; Some (FuncType a b)
  | GenDecl t a => a ← travSlice a; Some (GenDecl t a)
  | GoStmt a => a ← travOpt a; Some (GoStmt a)
  | IfStmt a b c d =>
      a ← travOpt a; b ← travOpt b; c ← travOpt c; d ← travOpt d;
      Some (IfStmt a b c d)
  | IncDecStmt a t => a ← travOpt a; Some (IncDecStmt a t)
  | IndexExpr a b => a ← travOpt a; b ← travOpt b; Some (IndexExpr a b)
  | InterfaceType a i => a ← travOpt a; Some (InterfaceType a i)
  | KeyValueExpr a b => a ← travOpt a; b ← travOpt b; Some (KeyValueExpr a b)
  | LabeledStmt a b => a ← travOpt a; b ← travOpt b; Some (LabeledStmt a b)
  | MapType a b => a ← travOpt a; b ← travOpt b; Some (MapType a b)
  | ParenExpr a => a ← travOpt a; Some (ParenExpr a)
  | RangeStmt a b t c d =>
      a ← travOpt a; b ← travOpt b; c ← travOpt c; d ← travOpt d;
      Some (RangeStmt a b t c d)
  | ReturnStmt a => a ← travSlice a; Some (ReturnStmt a)
  | SelectStmt a => a ← travOpt a; Some (SelectStmt a)
  | SelectorExpr a b => a ← travOpt a; b ← travOpt b; Some (SelectorExpr a b)
  | SendStmt a b => a ← travOpt a; b ← travOpt b; Some (SendStmt a b)
  | SliceExpr a b c d s3 =>
      a ← travOpt a; b ← travOpt b; c ← travOpt c; d ← travOpt d;
      Some (SliceExpr a b c d s3)
  | StarExpr a => a ← travOpt a; Some (StarExpr a)
  | StructType a i => a ← travOpt a; Some (StructType a i)
  | SwitchStmt a b c => a ← travOpt a; b ← travOpt b; c ← travOpt c; Some (SwitchStmt a b c)
  | TypeAssertExpr a b => a ← travOpt a; b ← travOpt b; Some (TypeAssertExpr a b)
  | TypeSpec a b => a ← travOpt a; b ← travOpt b; Some (TypeSpec a b)
  | TypeSwitchStmt a b c =>
      a ← travOpt a; b ← travOpt b; c ← travOpt c; Some (TypeSwitchStmt a b c)
  | UnaryExpr o a => a ← travOpt a; Some (UnaryExpr o a)
  | ValueSpec a b c => a ← travSlice a; b ← travOpt b; c ← travSlice c; Some (ValueSpec a b c)
  end.
End Traverse.

(** The tree the store holds below [l], followed to depth [fuel]; [None]
    when a pointer leads outside the store or the graph is deeper. *)
Fixpoint tree_of (fuel : nat) (h : heap) (l : loc) : option Tree.node :=
  match fuel with
  | O => None
  | S fuel =>
      s ← h !! l;
      s' ← traverseF (tree_of fuel h) s;
      Some (Tree.Node s')
  end.

(** [l] points to the tree [t]: the content of a pointer. *)
Definition content (h : heap) (l : loc) (t : Tree.node) : Prop :=
  exists fuel, tree_of fuel h l = Some t.

End Heap.

(** ** The command-line driver *)

Module Driver.
Import Tree.

(** A Go [error], by its message. *)
Definition error : Type := string.

(** What the program sees and changes outside itself: the files, by path,
    and the text written to standard output so far. *)
Record world : Type := World {
  files : gmap string string;
  stdout : string
}.

(** How a call ends: it returns, or a panic unwinds through it. *)
Inductive exit (A : Type) : Type :=
  | Returns (a : A)
  | Panics (p : panicv node).
Arguments Returns {A} a.
Arguments Panics {A} p.

Definition newline : string := String (Ascii.ascii_of_nat 10) EmptyString.

(** [os.Create(filename)]: the file exists afterwards and is empty. *)
Definition truncate (filename : string) (w : world) : world :=
  {| files := <[filename := EmptyString]> (files w); stdout := stdout w |}.

(** Writing [text] to the file opened by [os.Create]. *)
Definition write_file (filename text : string) (w : world) : world :=
  {| files := <[filename := default EmptyString (files w !! filename) +:+ text]> (files w);
     stdout := stdout w |}.

Definition write_stdout (text : string) (w : world) : world :=
  {| files := files w; stdout := stdout w +:+ text |}.

(** [fmt.Println(err.Error())] *)
Definition println (err : error) (w : world) : world :=
  write_stdout (err +:+ newline) w.

Section Collaborators.
(** [parser.ParseFile(fset, filename, nil, parser.ParseComments)]: reads
    the file at [filename] and parses it. *)
Variable ParseFile : gmap string string -> string -> error + node.
(** The error of [os.Create(filename)], if it fails. *)
Variable CreateError : gmap string string -> string -> option error.
(** [printer.Fprint(out, fset, node)]: the text it writes to [out] and
    the error it returns. *)
Variable Fprint : node -> string * option error.

Definition ProcessFile (filename : string) (inplace : bool) (w : world) :
    exit (option error) * world :=
  match ParseFile (files w) filename with
  | inl err => (Returns (Some err), w)
  | inr f =>
      if inplace then
        match CreateError (files w) filename with
        | Some err => (Returns (Some err), w)
        | None =>
            let w := truncate filename w in
            (* the arguments of [printer.Fprint] are evaluated first *)
            match rewrite f with
            | Panic p => (Panics p, w)
            | Ok f' =>
                let (text, err) := Fprint f' in
                (Returns err, write_file filename text w)
            end
        end
      else
        match rewrite f with
        | Panic p => (Panics p, w)
        | Ok f' =>
            let (text, err) := Fprint f' in
            (Returns err, write_stdout text w)
        end
  end.

(** The loop of [main] over [flag.Args()], with [inplace] the value of
    the flag [-w]. *)
Fixpoint main (inplace : bool) (args : list string) (w : world) :
    exit unit * world :=
  match args with
  | [] => (Returns tt, w)
  | filename :: args' =>
      match ProcessFile filename inplace w with
      | (Returns None, w') => main inplace args' w'
      | (Returns (Some err), w') => (Returns tt, println err w')  (* break *)
      | (Panics p, w') => (Panics p, w')
      end
  end.

(** The driver as the specification words it: a failure ends the
    processing of that input only, and the next input is processed. *)
Fixpoint main_independent (inplace : bool) (args : list string) (w : world) :
    exit unit * world :=
  match args with
  | [] => (Returns tt, w)
  | filename :: args' =>
      match ProcessFile filename inplace w with
      | (Returns None, w') => main_independent inplace args' w'
      | (Returns (Some err), w') => main_independent inplace args' (println err w')
      | (Panics p, w') => main_independent inplace args' w'
      end
  end.

(** Every input of [args] is processed without error, from [w] to [w']. *)
Fixpoint all_succeed (inplace : bool) (args : list string) (w w' : world) : Prop :=
  match args with
  | [] => w' = w
  | filename :: args' =>
      exists w1, ProcessFile filename inplace w = (Returns None, w1) /\
                 all_succeed inplace args' w1 w'
  end.
End Collaborators.

End Driver.

(** ** Predicates on runs *)

Module Logic.
Import Heap.

(** A run of [m] from a store of at least [N] cells keeps the first [N]
    cells, never shrinks the store, and returns a value satisfying [Q]. *)
Definition keeps (N : nat) {A} (m : comp A) (Q : A -> Prop) : Prop :=
  forall h a h', N <= length h -> m h = Done a h' ->
    length h <= length h' /\ take N h' = take N h /\ Q a.

(** The recursive call: besides keeping the first [N] cells, it returns a
    pointer that is new or points to a leaf. *)
Definition rec_keeps (N : nat) (rec : loc -> comp loc) : Prop :=
  forall e h a h', N <= length h -> rec e h = Done a h' ->
    length h <= length h' /\ take N h' = take N h /\
    (N <= a \/ exists s, h' !! a = Some s /\ isLeaf s = true).

(** [P] holds for all large enough fuel. *)
Definition eventually (P : nat -> Prop) : Prop :=
  exists m, forall k, m <= k -> P k.

(** The pointer, slot, list, slice or struct on the right holds the tree(s)
    on the left. *)
Definition has_tree (h : heap) (t : Tree.node) (l : loc) : Prop :=
  eventually (fun k => tree_of k h l = Some t).
Definition has_opt (h : heap) (x' : option Tree.node) (x : option loc) : Prop :=
  eventually (fun k => travOpt (tree_of k h) x = Some x').
Definition has_list (h : heap) (l' : list (option Tree.node))
    (l : list (option loc)) : Prop :=
  eventually (fun k => mapM (travOpt (tree_of k h)) l = Some l').
Definition has_slice (h : heap) (xs' : slice Tree.node) (xs : slice loc) : Prop :=
  eventually (fun k => travSlice (tree_of k h) xs = Some xs').
Definition has_struct (h : heap) (s' : nodeF Tree.node) (s : nodeF loc) : Prop :=
  eventually (fun k => traverseF (tree_of k h) s = Some s').

(** The run [mh] from store [h] ends as the tree computation [mt] does:
    when [mt] returns [a], [mh] returns some [b] related to [a] in a store
    that extends [h]; when [mt] panics, [mh] panics. *)
Definition refines {A B} (R : heap -> A -> B -> Prop) (h : heap)
    (mt : Tree.result A) (mh : comp B) : Prop :=
  match mt with
  | Tree.Ok a => exists b h', mh h = Done b h' /\ h `prefix_of` h' /\ R h' a b
  | Tree.Panic _ => exists p, mh h = Panicked p
  end.

(** [m2] ends as [m1] does whenever [m1] is not stuck. *)
Definition le_comp {A} (m1 m2 : comp A) : Prop :=
  forall h, m1 h <> Stuck -> m2 h = m1 h.

(** The cells [rewrite] allocates for the parameter [ctx context.Context],
    in a store of [n] cells. *)
Definition ctxCells (n : nat) : list (nodeF nat) :=
  [ Ident ctxVariable; Ident "context"; Ident "Context";
    SelectorExpr (Some (n + 1)) (Some (n + 2));
    Field (Some [Some n]) (Some (n + 3)) None ].

(** The store after the assignment to [c.Params.List]. *)
Definition injected (h : heap) (p : loc) (l : slice loc) : heap :=
  <[p := FieldList (Some (Some (length h + 4) :: elems l))]>
    (h ++ ctxCells (length h)).

(** The case of [*ast.FuncType] from the allocation of the new parameter
    to the assignment to [c.Params.List], followed by [k]. *)
Definition injectRun {A} (k : loc -> comp A) (p : loc) : comp A :=
  bind (halloc (Ident ctxVariable)) (fun name =>
  bind (halloc (Ident "context")) (fun x =>
  bind (halloc (Ident "Context")) (fun sel =>
  bind (halloc (SelectorExpr (Some x) (Some sel))) (fun ty =>
  bind (halloc (Field (Some [Some name]) (Some ty) None)) (fun fld =>
  bind (hload p) (fun pl =>
  bind match pl with
       | FieldList l => hstore p (FieldList (Some (Some fld :: elems l)))
       | _ => mpanic mem TypeAssertion
       end k)))))).

End Logic.

(** ** Inputs the statements are run on *)

Module Examples.
Import Tree.

Definition ident (name : string) : node := Node (Ident name).

(** [x int] *)
Definition paramX : node :=
  Node (Field (Some [Some (ident "x")]) (Some (ident "int")) None).

(** [func(x int)] *)
Definition funcOfInt : node :=
  Node (FuncType (Some (Node (FieldList (Some [Some paramX])))) None).

(** [func(ctx context.Context, x int)] *)
Definition funcOfCtxInt : node :=
  Node (FuncType
          (Some (Node (FieldList (Some [Some ctxParam; Some paramX])))) None).

(** [var f func(x int)] *)
Definition varF : node :=
  Node (ValueSpec (Some [Some (ident "f")]) (Some funcOfInt) None).

(** [type F func(x int)] *)
Definition typeF : node := Node (TypeSpec (Some (ident "F")) (Some funcOfInt)).

(** [g(x)] as the length of an array type, and the receiver list
    [(r [g(x)]T)]. *)
Definition callG : node :=
  Node (CallExpr (Some (ident "g")) (Some [Some (ident "x")]) 0%Z).

Definition recvR : node :=
  Node (FieldList (Some [Some (Node (Field (Some [Some (ident "r")])
    (Some (Node (ArrayType (Some callG) (Some (ident "T"))))) None))])).

(** [func (r [g(x)]T) m()] without a body. *)
Definition methodM : node :=
  Node (FuncDecl (Some recvR) (Some (ident "m"))
          (Some (Node (FuncType (Some (Node (FieldList None))) None))) None).

(** [interface { M(x int) }] and [struct { f func(x int) }]. *)
Definition ifaceM : node :=
  Node (InterfaceType
          (Some (Node (FieldList (Some [Some (Node
             (Field (Some [Some (ident "M")]) (Some funcOfInt) None))]))))
          false).

Definition structF : node :=
  Node (StructType
          (Some (Node (FieldList (Some [Some (Node
             (Field (Some [Some (ident "f")]) (Some funcOfInt) None))]))))
          false).

(** [package p] with no declaration, and with one declaration that the
    type switch has no case for. *)
Definition emptyFile : node :=
  Node (File (Some (ident "p")) None None None None).

Definition strangeFile : node :=
  Node (File (Some (ident "p")) (Some [Some (Node BadDecl)]) None None None).

(** A store holding [f(x)] at 2 and [func()] at 4. *)
Definition store0 : list (nodeF nat) :=
  [ Ident "f"; Ident "x"; CallExpr (Some 0) (Some [Some 1]) 0%Z;
    FieldList None; FuncType (Some 3) None ].

(** The store after [rewrite] of the pointer 4. *)
Definition store1 : list (nodeF nat) :=
  store0 ++
  [ FieldList (Some [Some 10]); Ident "ctx"; Ident "context"; Ident "Context";
    SelectorExpr (Some 7) (Some 8); Field (Some [Some 6]) (Some 9) None;
    FuncType (Some 5) None ].

(** Stand-ins for the parser, [os.Create] and the printer: a file named
    [strange.go] parses to [strangeFile], any other file that exists to
    [emptyFile]; every file can be created; every tree prints as
    [package p]. *)
Definition parseStub (fs : gmap string string) (filename : string) :
    Driver.error + node :=
  match fs !! filename with
  | None => inl "no such file"
  | Some _ =>
      if String.eqb filename "strange.go" then inr strangeFile
      else inr emptyFile
  end.

Definition createStub (fs : gmap string string) (filename : string) :
    option Driver.error := None.

Definition printStub (f : node) : string * option Driver.error :=
  ("package p", None).

Definition world0 : Driver.world :=
  {| Driver.files := <["a.go" := "package p"]>
                       (<["strange.go" := "package p; var _ = 0"]> ∅);
     Driver.stdout := EmptyString |}.

End Examples.

(** ** What the traversal reaches *)

Module Traversal.
Import Tree.

(** The node a slot holds, and the nodes a slice holds. *)
Definition inSlot {E} (x : option E) : list E := option_list x.
Definition inSlice {E} (xs : slice E) : list E := omap id (elems xs).

(** The children [rewrite] calls itself on, case by case, in the order of
    the calls. *)
Definition visited {E} (s : nodeF E) : list E :=
  match s with
  | BadExpr | BadStmt | BadDecl | Comment _ | CommentGroup _
  | Package _ _ => []
  | ImportSpec _ _ | BasicLit _ _ | Ident _ | BranchStmt _ _ | EmptyStmt => []
  | ArrayType len elt => inSlot len ++ inSlot elt
  | AssignStmt lhs _ rhs => inSlice lhs ++ inSlice rhs
  | BinaryExpr x _ y => inSlot x ++ inSlot y
  | BlockStmt l => inSlice l
  | CallExpr fn args _ => inSlot fn ++ inSlice args
  | CaseClause l body => inSlice l ++ inSlice body
  | ChanType _ value => inSlot value
  | CommClause comm body => inSlot comm ++ inSlice body
  | CompositeLit ty elts => inSlot ty ++ inSlice elts
  | DeclStmt decl => inSlot decl
  | DeferStmt call => inSlot call
  | Ellipsis elt => inSlot elt
  | ExprStmt x => inSlot x
  | Field _ ty _ => inSlot ty
  | FieldList l => inSlice l
  | File _ decls _ _ _ => inSlice decls
  | ForStmt init cond post body =>
      inSlot init ++ inSlot cond ++ inSlot post ++ inSlot body
  | FuncDecl _ _ ty body => inSlot body ++ inSlot ty
  | FuncLit ty body => inSlot ty ++ inSlot body
  | FuncType params results => inSlot params ++ inSlot results
  | GenDecl _ specs => inSlice specs
  | GoStmt call => inSlot call
  | IfStmt init cond body els =>
      inSlot init ++ inSlot cond ++ inSlot body ++ inSlot els
  | IncDecStmt x _ => inSlot x
  | IndexExpr x index => inSlot x ++ inSlot index
  | InterfaceType methods _ => inSlot methods
  | KeyValueExpr key value => inSlot key ++ inSlot value
  | LabeledStmt _ stmt => inSlot stmt
  | MapType key value => inSlot key ++ inSlot value
  | ParenExpr x => inSlot x
  | RangeStmt key value _ x body =>
      inSlot key ++ inSlot value ++ inSlot x ++ inSlot body
  | ReturnStmt results => inSlice results
  | SelectStmt body => inSlot body
  | SelectorExpr x _ => inSlot x
  | SendStmt chan value => inSlot chan ++ inSlot value
  | SliceExpr x low high max _ =>
      inSlot x ++ inSlot low ++ inSlot high ++ inSlot max
  | StarExpr x => inSlot x
  | StructType fields _ => inSlot fields
  | SwitchStmt init tag body => inSlot init ++ inSlot tag ++ inSlot body
  | TypeAssertExpr x ty => inSlot x ++ inSlot ty
  | TypeSpec _ ty => inSlot ty
  | TypeSwitchStmt init assign body =>
      inSlot init ++ inSlot assign ++ inSlot body
  | UnaryExpr _ x => inSlot x
  | ValueSpec _ _ values => inSlice values
  end.

(** [Reaches t n]: the traversal started on [t] calls [rewrite] on [n]
    (if no earlier call panics). *)
Inductive Reaches : node -> node -> Prop :=
  | reaches_self t : Reaches t t
  | reaches_child s c n : c ∈ visited s -> Reaches c n -> Reaches (Node s) n.

(** [P] holds of every node the traversal started on [t] reaches. *)
Definition everywhere (P : node -> Prop) (t : node) : Prop :=
  forall n, Reaches t n -> P n.

(** What [rewrite] needs of a slot: a slot it reads without a nil check
    holds a node, and a node it asserts to a type is of that type. *)
Definition present (isT : nodeF node -> bool) (x : option node) : bool :=
  match x with Some n => isT (struct_of n) | None => false end.
Definition absentOr (isT : nodeF node -> bool) (x : option node) : bool :=
  match x with Some n => isT (struct_of n) | None => true end.

(** What a case of the switch needs of the slots of its struct: a slot it
    reads behind a nil check is empty or holds a node of the asserted
    type; [req] is what it needs of a slot it reads without a check, and
    of every element of a slice it ranges over. A struct without a case
    is refused. *)
Section SlotsOk.
Variable req : (nodeF node -> bool) -> option node -> bool.

Definition each (isT : nodeF node -> bool) (xs : slice node) : bool :=
  forallb (req isT) (elems xs).

Definition slotsOk (s : nodeF node) : bool :=
  match s with
  | BadExpr | BadStmt | BadDecl | Comment _ | CommentGroup _
  | Package _ _ => false
  | ImportSpec _ _ | BasicLit _ _ | Ident _ | BranchStmt _ _ | EmptyStmt => true
  | ArrayType len elt => absentOr isExpr len && req isExpr elt
  | AssignStmt lhs _ rhs => each isExpr lhs && each isExpr rhs
  | BinaryExpr x _ y => req isExpr x && req isExpr y
  | BlockStmt l => each isStmt l
  | CallExpr fn args _ => req isExpr fn && each isExpr args
  | CaseClause l body => each isExpr l && each isStmt body
  | ChanType _ value => req isExpr value
  | CommClause comm body => absentOr isStmt comm && each isStmt body
  | CompositeLit ty elts => absentOr isExpr ty && each isExpr elts
  | DeclStmt decl => req isDecl decl
  | DeferStmt call => req isCallExpr call
  | Ellipsis elt => absentOr isExpr elt
  | ExprStmt x => req isExpr x
  | Field _ ty _ => req isExpr ty
  | FieldList l => each isField l
  | File _ decls _ _ _ => each isDecl decls
  | ForStmt init cond post body =>
      absentOr isStmt init && absentOr isExpr cond && absentOr isStmt post
      && absentOr isBlockStmt body
  | FuncDecl _ _ ty body => absentOr isBlockStmt body && req isFuncType ty
  | FuncLit ty body => req isFuncType ty && absentOr isBlockStmt body
  | FuncType params results =>
      req isFieldList params && absentOr isFieldList results
  | GenDecl _ specs => each isSpec specs
  | GoStmt call => req isCallExpr call
  | IfStmt init cond body els =>
      absentOr isStmt init && absentOr isExpr cond && absentOr isBlockStmt body
      && absentOr isStmt els
  | IncDecStmt x _ => req isExpr x
  | IndexExpr x index => req isExpr x && req isExpr index
  | InterfaceType methods _ => req isFieldList methods
  | KeyValueExpr key value => req isExpr key && req isExpr value
  | LabeledStmt _ stmt => req isStmt stmt
  | MapType key value => req isExpr key && req isExpr value
  | ParenExpr x => req isExpr x
  | RangeStmt key value _ x body =>
      absentOr isExpr key && absentOr isExpr value && absentOr isExpr x
      && absentOr isBlockStmt body
  | ReturnStmt results => each isExpr results
  | SelectStmt body => absentOr isBlockStmt body
  | SelectorExpr x _ => req isExpr x
  | SendStmt chan value => absentOr isExpr chan && absentOr isExpr value
  | SliceExpr x low high max _ =>
      req isExpr x && absentOr isExpr low && absentOr isExpr high
      && absentOr isExpr max
  | StarExpr x => req isExpr x
  | StructType fields _ => req isFieldList fields
  | SwitchStmt init tag body =>
      absentOr isStmt init && absentOr isExpr tag && absentOr isBlockStmt body
  | TypeAssertExpr x ty => absentOr isExpr x && absentOr isExpr ty
  | TypeSpec _ ty => req isExpr ty
  | TypeSwitchStmt init assign body =>
      absentOr isStmt init && absentOr isStmt assign
      && absentOr isBlockStmt body
  | UnaryExpr _ x => req isExpr x
  | ValueSpec _ _ values => each isExpr values
  end.
End SlotsOk.

(** The struct has a case in the switch and its slots are as that case
    needs them for [rewrite] to go through: the slots read without a
    check hold a node. *)
Definition fitsCase : nodeF node -> bool := slotsOk present.
Definition eachPresent : (nodeF node -> bool) -> slice node -> bool :=
  each present.

(** The slots of the struct hold nodes of the types the case asserts, or
    nothing. Go's types ensure as much of every [go/ast] value: the
    asserted types are the static types of the fields. *)
Definition wellTyped (s : nodeF node) : bool :=
  negb (hasRule s) || slotsOk absentOr s.

(** The shape of a struct: its node type, its scalar fields, which slots
    hold a node, which slices are nil and how long the others are. *)
Definition shapeOf {E} (s : nodeF E) : option (nodeF unit) :=
  Heap.traverseF (fun _ => Some tt) s.

Definition isFile {E} (s : nodeF E) : bool :=
  match s with File _ _ _ _ _ => true | _ => false end.

(** The part of a struct that [rewrite] does not assign to: the struct
    with the slots of [visited] emptied. *)
Definition copied {E} (s : nodeF E) : nodeF E :=
  match s with
  | BadExpr | BadStmt | BadDecl | Comment _ | CommentGroup _
  | Package _ _ => s
  | ImportSpec _ _ | BasicLit _ _ | Ident _ | BranchStmt _ _ | EmptyStmt => s
  | ArrayType _ _ => ArrayType None None
  | AssignStmt _ tok _ => AssignStmt None tok None
  | BinaryExpr _ op _ => BinaryExpr None op None
  | BlockStmt _ => BlockStmt None
  | CallExpr _ _ ell => CallExpr None None ell
  | CaseClause _ _ => CaseClause None None
  | ChanType dir _ => ChanType dir None
  | CommClause _ _ => CommClause None None
  | CompositeLit _ _ => CompositeLit None None
  | DeclStmt _ => DeclStmt None
  | DeferStmt _ => DeferStmt None
  | Ellipsis _ => Ellipsis None
  | ExprStmt _ => ExprStmt None
  | Field names _ tag => Field names None tag
  | FieldList _ => FieldList None
  | File name _ imports unresolved comments =>
      File name None imports unresolved comments
  | ForStmt _ _ _ _ => ForStmt None None None None
  | FuncDecl recv name _ _ => FuncDecl recv name None None
  | FuncLit _ _ => FuncLit None None
  | FuncType _ _ => FuncType None None
  | GenDecl tok _ => GenDecl tok None
  | GoStmt _ => GoStmt None
  | IfStmt _ _ _ _ => IfStmt None None None None
  | IncDecStmt _ tok => IncDecStmt None tok
  | IndexExpr _ _ => IndexExpr None None
  | InterfaceType _ incomplete => InterfaceType None incomplete
  | KeyValueExpr _ _ => KeyValueExpr None None
  | LabeledStmt label _ => LabeledStmt label None
  | MapType _ _ => MapType None None
  | ParenExpr _ => ParenExpr None
  | RangeStmt _ _ tok _ _ => RangeStmt None None tok None None
  | ReturnStmt _ => ReturnStmt None
  | SelectStmt _ => SelectStmt None
  | SelectorExpr _ sel => SelectorExpr None sel
  | SendStmt _ _ => SendStmt None None
  | SliceExpr _ _ _ _ slice3 => SliceExpr None None None None slice3
  | StarExpr _ => StarExpr None
  | StructType _ incomplete => StructType None incomplete
  | SwitchStmt _ _ _ => SwitchStmt None None None
  | TypeAssertExpr _ _ => TypeAssertExpr None None
  | TypeSpec name _ => TypeSpec name None
  | TypeSwitchStmt _ _ _ => TypeSwitchStmt None None None
  | UnaryExpr op _ => UnaryExpr op None
  | ValueSpec names ty _ => ValueSpec names ty None
  end.

(** A type test sees only the node type. *)
Definition byKind (isT : nodeF node -> bool) : Prop :=
  forall s s' : nodeF node, kindOf s' = kindOf s -> isT s' = isT s.

(** [rewrite] returns on [c]. *)
Definition returnsOn (c : node) : Prop := exists c', rewrite c = Ok c'.

(** [p] is the panic of [rewrite] on one of the nodes [cs]. *)
Definition panicsIn (p : panicv node) (cs : list node) : Prop :=
  exists c, c ∈ cs /\ rewrite c = Panic p.

(** [Q] holds of what [rewrite] returns on [c], if it returns. *)
Definition yields (Q : node -> Prop) (c : node) : Prop :=
  forall c', rewrite c = Ok c' -> Q c'.

(** The slice [xs'] is nil if [xs] is, and otherwise holds, index by
    index, the rewritten elements of [xs], each of the type [isT]. *)
Definition mapsEach (isT : nodeF node -> bool) (xs xs' : slice node) : Prop :=
  (xs = None <-> xs' = None) /\
  length (elems xs') = length (elems xs) /\
  forall i x', elems xs' !! i = Some x' ->
    exists x, elems xs !! i = Some x /\ rewritesTo isT x x'.

(** A call that leads with the argument [ctx]; a function type that leads
    with the parameter [ctx context.Context]; any other node. *)
Definition carriesCtx (n : node) : Prop :=
  match struct_of n with
  | CallExpr _ args _ => exists rest, args = Some (Some ctxIdent :: rest)
  | FuncType params _ =>
      exists rest,
        params = Some (Node (FieldList (Some (Some ctxParam :: rest))))
  | _ => True
  end.

End Traversal.

(** ** [Process], the rewrite of a source text in memory *)

Module Source.
Import Tree Driver.

Section Collaborators.
(** [parser.ParseFile(fset, "go.go", source, parser.ParseComments)]: parses
    the bytes it is given. *)
Variable ParseSource : string -> error + node.
(** [printer.Fprint(&out, fset, node)]: the text it writes to the buffer
    and the error it returns. *)
Variable Fprint : node -> string * option error.

(** The two results of [Process]: the bytes and the error. A nil and an
    empty [[]byte] are both the empty string here. *)
Definition Process (source : string) : exit (string * option error) :=
  match ParseSource source with
  | inl err => Returns (EmptyString, Some err)
  | inr f =>
      match rewrite f with
      | Panic p => Panics p
      | Ok f' => Returns (Fprint f')
      end
  end.
End Collaborators.

End Source.

(** ** More sample inputs *)

Module Samples.
Import Tree Examples.

(** [f(x)], [(f(x))] and [f(x).m]. *)
Definition callF : node :=
  Node (CallExpr (Some (ident "f")) (Some [Some (ident "x")]) 0%Z).
Definition parenCallF : node := Node (ParenExpr (Some callF)).
Definition selCallF : node :=
  Node (SelectorExpr (Some callF) (Some (ident "m"))).

(** [f(ctx, x)], [(f(ctx, x))], [f(ctx, x).m] and [f(ctx, ctx, x)]. *)
Definition callCtxF : node :=
  Node (CallExpr (Some (ident "f")) (Some [Some ctxIdent; Some (ident "x")])
          0%Z).
Definition parenCallCtxF : node := Node (ParenExpr (Some callCtxF)).
Definition selCallCtxF : node :=
  Node (SelectorExpr (Some callCtxF) (Some (ident "m"))).
Definition callCtxCtxF : node :=
  Node (CallExpr (Some (ident "f"))
          (Some [Some ctxIdent; Some ctxIdent; Some (ident "x")]) 0%Z).

(** A stand-in for the parser on a source text: every text parses to
    [emptyFile]. *)
Definition parseSourceStub (source : string) : Driver.error + node :=
  inr emptyFile.

End Samples.

(** * Facts about the tree instance *)

Module TreeFacts.
Import Tree.

Lemma bind_Ok {A B} (m : result A) (k : A -> result B) b :
  bind m k = Ok b <-> exists a, m = Ok a /\ k a = Ok b.
Proof.
  destruct m as [a|p]; simpl; split.
  - eauto.
  - intros (a' & [= ->] & Hk). exact Hk.
  - discriminate.
  - intros (a' & [=] & _).
Qed.

Lemma rewriteAs_Ok isT nilp x e' :
  rewriteAs mem rewrite isT nilp x = Ok e' <->
  exists e, x = Some e /\ rewrite e = Ok e' /\ isT (struct_of e') = true.
Proof.
  unfold rewriteAs. destruct x as [e|]; simpl.
  - rewrite bind_Ok. split.
    + intros (a & Ha & Hk). destruct (isT (struct_of a)) eqn:Ht; [|discriminate].
      injection Hk as <-. eauto.
    + intros (e0 & [= <-] & Hr & Ht). exists e'. rewrite Ht. auto.
  - split; [discriminate|]. intros (e & [=] & _).
Qed.

Lemma rewriteReq_Ok isT nilp x x' :
  rewriteReq mem rewrite isT nilp x = Ok x' <-> rewritesTo isT x x'.
Proof.
  unfold rewriteReq, rewritesTo. simpl. rewrite bind_Ok. split.
  - intros (e' & He & [= <-]). apply rewriteAs_Ok in He as (e & -> & Hr & Ht).
    eauto 6.
  - intros (e & e' & -> & -> & Hr & Ht). exists e'. split; [|done].
    apply rewriteAs_Ok. eauto.
Qed.

Lemma rewriteOpt_Ok isT nilp x x' :
  rewriteOpt mem rewrite isT nilp x = Ok x' <-> rewritesToOpt isT x x'.
Proof.
  unfold rewriteOpt, rewritesToOpt. destruct x as [e|].
  - rewrite rewriteReq_Ok. split; [auto|]. intros [[[=] _]|H]; exact H.
  - simpl. split.
    + intros [= <-]. auto.
    + intros [[_ ->]|(e & e' & [=] & _)]. done.
Qed.

Lemma rewriteEach_Ok (f : option node -> result (option node)) xs xs' :
  rewriteEach mem f xs = Ok xs' <-> Forall2 (fun x x' => f x = Ok x') xs xs'.
Proof.
  revert xs'. induction xs as [|x xs IH]; intros xs'; simpl.
  - unfold rewriteEach; simpl. split.
    + intros [= <-]. constructor.
    + intros H. inversion H. done.
  - change (rewriteEach mem f (x :: xs))
      with (bind (f x) (fun x' => bind (rewriteEach mem f xs)
                                    (fun xs'' => Ok (x' :: xs'')))).
    rewrite bind_Ok. split.
    + intros (x' & Hx & Hk). apply bind_Ok in Hk as (xs'' & Hxs & [= <-]).
      constructor; [done|]. by apply IH.
    + intros H. inversion H as [|? x' ? xs'' Hx Hxs]; subst.
      exists x'. split; [done|]. apply bind_Ok. exists xs''.
      split; [by apply IH|done].
Qed.

Lemma rewriteSlice_Ok (f : option node -> result (option node)) xs xs' :
  rewriteSlice mem f xs = Ok xs' <-> sliceRel (fun x x' => f x = Ok x') xs xs'.
Proof.
  unfold rewriteSlice, sliceRel. destruct xs as [l|]; simpl.
  - rewrite bind_Ok. split.
    + intros (l' & Hl & [= <-]). by apply rewriteEach_Ok.
    + destruct xs' as [l'|]; [|done]. intros H. exists l'.
      split; [by apply rewriteEach_Ok|done].
  - split; [by intros [= <-]|]. by destruct xs'.
Qed.

Lemma rewriteRange_Ok (f : option node -> result (option node)) xs l' :
  rewriteRange mem f xs = Ok l' <->
  Forall2 (fun x x' => f x = Ok x') (elems xs) l'.
Proof.
  unfold rewriteRange. destruct xs as [l|]; simpl.
  - apply rewriteEach_Ok.
  - split; [intros [= <-]; constructor|]. intros H. inversion H. done.
Qed.

Lemma sliceRel_impl (R R' : option node -> option node -> Prop) xs xs' :
  (forall x x', R x x' -> R' x x') -> sliceRel R xs xs' -> sliceRel R' xs xs'.
Proof.
  intros HR. destruct xs, xs'; simpl; try done.
  intros H. eapply Forall2_impl; [exact H|exact HR].
Qed.

Lemma sliceRel_elems R xs xs' :
  sliceRel R xs xs' -> Forall2 R (elems xs) (elems xs').
Proof. destruct xs, xs'; simpl; try done; constructor. Qed.

Ltac bind_inv H :=
  repeat match type of H with
         | bind _ _ = Ok _ =>
             let a := fresh "a" in let Ha := fresh "Ha" in
             apply bind_Ok in H as (a & Ha & H)
         end.

Lemma rewrite_kind n n' :
  rewrite n = Ok n' -> kindOf (struct_of n') = kindOf (struct_of n).
Proof.
  destruct n as [s]. destruct s; simpl; intros H; bind_inv H;
    try discriminate; try (by injection H as <-).
Qed.

Lemma isFieldList_inv (n : node) :
  isFieldList (struct_of n) = true -> exists l, n = Node (FieldList l).
Proof. destruct n as [[]]; try discriminate. eauto. Qed.

Lemma rewrite_FieldList rs out :
  rewrite (Node (FieldList rs)) = Ok out <->
  exists rs', sliceRel (rewritesTo isField) rs rs' /\ out = Node (FieldList rs').
Proof.
  simpl. rewrite bind_Ok. split.
  - intros (rs' & Hrs & [= <-]). exists rs'. split; [|done].
    apply rewriteSlice_Ok in Hrs. eapply sliceRel_impl; [|exact Hrs].
    intros x x'. apply rewriteReq_Ok.
  - intros (rs' & Hrs & ->). exists rs'. split; [|done].
    apply rewriteSlice_Ok. eapply sliceRel_impl; [|exact Hrs].
    intros x x'. apply rewriteReq_Ok.
Qed.

Lemma rewrite_FuncType ps results out :
  rewrite (Node (FuncType (Some (Node (FieldList ps))) results)) = Ok out <->
  exists ps' results',
    Forall2 (rewritesTo isField) (elems ps) ps' /\
    rewritesToOpt isFieldList results results' /\
    out = Node (FuncType (Some (Node (FieldList (Some (Some ctxParam :: ps')))))
                  results').
Proof.
  cbn [rewrite rewriteStep]. split.
  - intros H. simpl in H. bind_inv H.
    apply rewriteAs_Ok in Ha as (e & [= <-] & He & _).
    apply rewrite_FieldList in He as (rs' & Hrs & ->).
    simpl in Ha0. injection Ha0 as <-. injection H as <-.
    apply rewriteOpt_Ok in Ha1.
    exists (elems rs'), a1. split; [by apply sliceRel_elems|]. done.
  - intros (ps' & results' & Hps & Hres & ->). simpl.
    apply bind_Ok.
    exists (Node (FieldList (match ps with None => None | Some _ => Some ps' end))).
    split.
    + apply rewriteAs_Ok. eexists. split; [done|]. split; [|done].
      apply rewrite_FieldList. eexists. split; [|done].
      destruct ps; simpl in *; [done|done].
    + simpl. apply bind_Ok. exists results'. split; [by apply rewriteOpt_Ok|].
      destruct ps; simpl in *; [done|]. by inversion Hps.
Qed.

Lemma Forall2_rewriteReq isT nilp xs xs' :
  Forall2 (fun x x' => rewriteReq mem rewrite isT nilp x = Ok x') xs xs' <->
  Forall2 (rewritesTo isT) xs xs'.
Proof.
  split; intros H; (eapply Forall2_impl; [exact H|]); intros x x';
    apply rewriteReq_Ok.
Qed.

Lemma rewrite_CallExpr fn args ell out :
  rewrite (Node (CallExpr fn args ell)) = Ok out <->
  exists fn' args',
    rewritesTo isExpr fn fn' /\
    Forall2 (rewritesTo isExpr) (elems args) args' /\
    out = Node (CallExpr fn' (Some (Some ctxIdent :: args')) ell).
Proof.
  simpl. rewrite bind_Ok. split.
  - intros (fn' & Hfn & H). bind_inv H. injection H as <-.
    apply rewriteReq_Ok in Hfn. apply rewriteSlice_Ok in Ha.
    exists fn', (elems a). split; [done|]. split; [|done].
    apply sliceRel_elems. eapply sliceRel_impl; [|exact Ha].
    intros x x'. apply rewriteReq_Ok.
  - intros (fn' & args' & Hfn & Hargs & ->). exists fn'.
    split; [by apply rewriteReq_Ok|]. apply bind_Ok.
    exists (match args with None => None | Some _ => Some args' end).
    split.
    + apply rewriteSlice_Ok. destruct args; simpl in *; [|done].
      by apply Forall2_rewriteReq.
    + destruct args; simpl in *; [done|]. by inversion Hargs.
Qed.

Lemma rewrite_DeferStmt call out :
  rewrite (Node (DeferStmt call)) = Ok out <->
  exists call', rewritesTo isCallExpr call call' /\ out = Node (DeferStmt call').
Proof.
  simpl. rewrite bind_Ok. split.
  - intros (c & Hc & [= <-]). apply rewriteReq_Ok in Hc. eauto.
  - intros (c & Hc & ->). exists c. split; [by apply rewriteReq_Ok|done].
Qed.

Lemma rewrite_GoStmt call out :
  rewrite (Node (GoStmt call)) = Ok out <->
  exists call', rewritesTo isCallExpr call call' /\ out = Node (GoStmt call').
Proof.
  simpl. rewrite bind_Ok. split.
  - intros (c & Hc & [= <-]). apply rewriteReq_Ok in Hc. eauto.
  - intros (c & Hc & ->). exists c. split; [by apply rewriteReq_Ok|done].
Qed.

Lemma rewrite_File name decls imports unresolved comments out :
  rewrite (Node (File name decls imports unresolved comments)) = Ok out <->
  exists decls',
    Forall2 (rewritesTo isDecl) (elems decls) decls' /\
    out = Node (File name (Some (Some contextImport :: decls')) imports
                  unresolved comments).
Proof.
  simpl. rewrite bind_Ok. split.
  - intros (ds & Hds & [= <-]). apply rewriteRange_Ok in Hds.
    exists ds. split; [|done]. by apply Forall2_rewriteReq in Hds.
  - intros (ds & Hds & ->). exists ds. split; [|done].
    apply rewriteRange_Ok. by apply Forall2_rewriteReq.
Qed.

Lemma rewrite_FuncDecl recv name ty body out :
  rewrite (Node (FuncDecl recv name ty body)) = Ok out <->
  exists ty' body',
    rewritesTo isFuncType ty ty' /\ rewritesToOpt isBlockStmt body body' /\
    out = Node (FuncDecl recv name ty' body').
Proof.
  simpl. rewrite bind_Ok. split.
  - intros (b & Hb & H). bind_inv H. injection H as <-.
    apply rewriteOpt_Ok in Hb. apply rewriteReq_Ok in Ha. eauto.
  - intros (ty' & b & Hty & Hb & ->). exists b.
    split; [by apply rewriteOpt_Ok|]. apply bind_Ok. exists ty'.
    split; [by apply rewriteReq_Ok|done].
Qed.

Lemma rewrite_FuncLit ty body out :
  rewrite (Node (FuncLit ty body)) = Ok out <->
  exists ty' body',
    rewritesTo isFuncType ty ty' /\ rewritesToOpt isBlockStmt body body' /\
    out = Node (FuncLit ty' body').
Proof.
  simpl. rewrite bind_Ok. split.
  - intros (t & Ht & H). bind_inv H. injection H as <-.
    apply rewriteReq_Ok in Ht. apply rewriteOpt_Ok in Ha. eauto.
  - intros (ty' & b & Hty & Hb & ->). exists ty'.
    split; [by apply rewriteReq_Ok|]. apply bind_Ok. exists b.
    split; [by apply rewriteOpt_Ok|done].
Qed.

Lemma rewrite_Field names ty tag out :
  rewrite (Node (Field names ty tag)) = Ok out <->
  exists ty', rewritesTo isExpr ty ty' /\ out = Node (Field names ty' tag).
Proof.
  simpl. rewrite bind_Ok. split.
  - intros (c & Hc & [= <-]). apply rewriteReq_Ok in Hc. eauto.
  - intros (c & Hc & ->). exists c. split; [by apply rewriteReq_Ok|done].
Qed.

Lemma rewrite_InterfaceType methods incomplete out :
  rewrite (Node (InterfaceType methods incomplete)) = Ok out <->
  exists methods', rewritesTo isFieldList methods methods' /\
                   out = Node (InterfaceType methods' incomplete).
Proof.
  simpl. rewrite bind_Ok. split.
  - intros (c & Hc & [= <-]). apply rewriteReq_Ok in Hc. eauto.
  - intros (c & Hc & ->). exists c. split; [by apply rewriteReq_Ok|done].
Qed.

Lemma rewrite_StructType fields incomplete out :
  rewrite (Node (StructType fields incomplete)) = Ok out <->
  exists fields', rewritesTo isFieldList fields fields' /\
                  out = Node (StructType fields' incomplete).
Proof.
  simpl. rewrite bind_Ok. split.
  - intros (c & Hc & [= <-]). apply rewriteReq_Ok in Hc. eauto.
  - intros (c & Hc & ->). exists c. split; [by apply rewriteReq_Ok|done].
Qed.

Lemma rewrite_TypeSpec name ty out :
  rewrite (Node (TypeSpec name ty)) = Ok out <->
  exists ty', rewritesTo isExpr ty ty' /\ out = Node (TypeSpec name ty').
Proof.
  simpl. rewrite bind_Ok. split.
  - intros (c & Hc & [= <-]). apply rewriteReq_Ok in Hc. eauto.
  - intros (c & Hc & ->). exists c. split; [by apply rewriteReq_Ok|done].
Qed.

Lemma rewrite_ValueSpec names ty values out :
  rewrite (Node (ValueSpec names ty values)) = Ok out <->
  exists values', sliceRel (rewritesTo isExpr) values values' /\
                  out = Node (ValueSpec names ty values').
Proof.
  simpl. rewrite bind_Ok. split.
  - intros (vs & Hvs & [= <-]). apply rewriteSlice_Ok in Hvs.
    exists vs. split; [|done]. eapply sliceRel_impl; [|exact Hvs].
    intros x x'. apply rewriteReq_Ok.
  - intros (vs & Hvs & ->). exists vs. split; [|done].
    apply rewriteSlice_Ok. eapply sliceRel_impl; [|exact Hvs].
    intros x x'. apply rewriteReq_Ok.
Qed.

Lemma rewrite_leaf (s : nodeF node) :
  isLeaf s = true -> rewrite (Node s) = Ok (Node s).
Proof. by destruct s. Qed.

Lemma rewrite_no_rule (s : nodeF node) :
  hasRule s = false -> rewrite (Node s) = Panic (UnknownNode (Some (Node s))).
Proof. by destruct s. Qed.

Lemma rewritesTo_funcType_field names ps results tag x' :
  rewritesTo isField
    (Some (Node (Field names
       (Some (Node (FuncType (Some (Node (FieldList ps))) results))) tag))) x' ->
  exists ps' ft',
    Forall2 (rewritesTo isField) (elems ps) ps' /\ leadsWithCtx ps' ft' /\
    x' = Some (Node (Field names (Some ft') tag)).
Proof.
  intros (e & e' & [= <-] & -> & He & _).
  apply rewrite_Field in He as (ty' & (ft & ft' & [= <-] & -> & Hft & _) & ->).
  apply rewrite_FuncType in Hft as (ps' & results' & Hps & _ & ->).
  exists ps'. eexists. split; [done|]. split; [by eexists|done].
Qed.

End TreeFacts.

(** * Facts about the pointer instance *)

Module HeapFacts.
Import Heap Logic.

(** *** Runs leave the store they start from in place *)

Section Frame.
(** [N]: the size of the store when the outermost call starts. *)
Variable N : nat.

Lemma keeps_weaken {A} (m : comp A) (Q Q' : A -> Prop) :
  keeps N m Q -> (forall a, Q a -> Q' a) -> keeps N m Q'.
Proof. intros Hm HQ h a h' HN Hr. destruct (Hm h a h' HN Hr) as (?&?&?). auto. Qed.

Lemma keeps_bind {A B} (m : comp A) (k : A -> comp B) Q Q' :
  keeps N m Q -> (forall a, Q a -> keeps N (k a) Q') -> keeps N (bind m k) Q'.
Proof.
  intros Hm Hk h b h2 HN Hr. unfold bind in Hr.
  destruct (m h) as [a h1| |] eqn:Hmh; try discriminate.
  destruct (Hm h a h1 HN Hmh) as (Hlen & Htake & HQ).
  destruct (Hk a HQ h1 b h2 ltac:(lia) Hr) as (Hlen' & Htake' & HQ').
  split; [lia|]. split; [congruence|done].
Qed.

Lemma keeps_ret {A} (a : A) (Q : A -> Prop) : Q a -> keeps N (mret mem a) Q.
Proof. intros HQ h a' h' _ H. simpl in H. injection H as <- <-. auto. Qed.

Lemma keeps_panic {A} p (Q : A -> Prop) : keeps N (mpanic mem p) Q.
Proof. intros h a h' _ H. simpl in H. discriminate. Qed.

Lemma keeps_load l : keeps N (hload l) (fun _ => True).
Proof.
  intros h a h' _. unfold hload. destruct (h !! l); [|done].
  intros [= <- <-]. auto.
Qed.

Lemma keeps_alloc s : keeps N (halloc s) (fun a => N <= a).
Proof.
  intros h a h' HN H. unfold halloc in H. injection H as <- <-.
  rewrite length_app. simpl.
  split; [lia|]. split; [|done]. by rewrite take_app_le.
Qed.

Lemma keeps_store l s : N <= l -> keeps N (hstore l s) (fun _ => True).
Proof.
  intros Hl h a h' HN. unfold hstore. case_decide; [|done].
  intros [= <- <-]. rewrite length_insert. split; [done|]. split; [|done].
  by rewrite take_insert_ge.
Qed.

Section FrameStep.
Variable rec : loc -> comp loc.
Hypothesis Hrec : rec_keeps N rec.

Lemma keeps_rewriteAs isT nilp x :
  keeps N (rewriteAs mem rec isT nilp x)
    (fun a => (forall s, isT s = true -> isLeaf s = false) -> N <= a).
Proof.
  intros h a h' HN. unfold rewriteAs. destruct x as [e|]; [|done].
  simpl. unfold bind, hload.
  destruct (rec e h) as [e' h1| |] eqn:He; try discriminate.
  destruct (Hrec e h e' h1 HN He) as (Hlen & Htake & Hfresh).
  destruct (h1 !! e') as [s|] eqn:Hs; [|discriminate].
  destruct (isT s) eqn:Ht; [|discriminate].
  intros [= <- <-]. split; [done|]. split; [done|].
  intros HT. destruct Hfresh as [?|(s' & Hs' & Hleaf)]; [done|].
  simplify_eq. rewrite (HT _ Ht) in Hleaf. discriminate.
Qed.

Lemma keeps_rewriteReq isT nilp x :
  keeps N (rewriteReq mem rec isT nilp x) (fun _ => True).
Proof.
  unfold rewriteReq. eapply keeps_bind; [apply keeps_rewriteAs|].
  intros a _. by apply keeps_ret.
Qed.

Lemma keeps_rewriteOpt isT nilp x :
  keeps N (rewriteOpt mem rec isT nilp x) (fun _ => True).
Proof.
  unfold rewriteOpt. destruct x; [apply keeps_rewriteReq|by apply keeps_ret].
Qed.

Lemma keeps_rewriteEach f xs :
  (forall x, keeps N (f x) (fun _ => True)) ->
  keeps N (rewriteEach mem f xs) (fun _ => True).
Proof.
  intros Hf. induction xs as [|x xs IH].
  - by apply keeps_ret.
  - change (rewriteEach mem f (x :: xs))
      with (bind (f x) (fun x' => bind (rewriteEach mem f xs)
                                    (fun xs'' => mret mem (x' :: xs'')))).
    eapply keeps_bind; [apply Hf|]. intros x' _.
    eapply keeps_bind; [apply IH|]. intros xs' _. by apply keeps_ret.
Qed.

Lemma keeps_rewriteSlice f xs :
  (forall x, keeps N (f x) (fun _ => True)) ->
  keeps N (rewriteSlice mem f xs) (fun _ => True).
Proof.
  intros Hf. unfold rewriteSlice. destruct xs; [|by apply keeps_ret].
  eapply keeps_bind; [by apply keeps_rewriteEach|].
  intros l' _. by apply keeps_ret.
Qed.

Lemma keeps_rewriteRange f xs :
  (forall x, keeps N (f x) (fun _ => True)) ->
  keeps N (rewriteRange mem f xs) (fun _ => True).
Proof.
  intros Hf. unfold rewriteRange.
  destruct xs; [by apply keeps_rewriteEach|by apply keeps_ret].
Qed.

Lemma keeps_alloc_True s : keeps N (halloc s) (fun _ => True).
Proof. eapply keeps_weaken; [apply keeps_alloc|done]. Qed.

(** One step of the chain of assignments in a case of the switch. *)
Ltac keeps_step :=
  first
    [ apply keeps_alloc
    | eapply keeps_bind;
      [ first [ apply keeps_rewriteReq | apply keeps_rewriteOpt
              | apply keeps_rewriteSlice; intros; apply keeps_rewriteReq
              | apply keeps_rewriteRange; intros; apply keeps_rewriteReq
              | apply keeps_alloc_True ]
      | intros ? _ ] ].

(** Every case that ends in [return &c] returns a new pointer. *)
Lemma keeps_rewriteStep v s :
  isLeaf s = false ->
  keeps N (rewriteStep mem rec v s) (fun a => N <= a).
Proof.
  intros Hleaf. destruct s; try discriminate Hleaf; simpl;
    try (apply keeps_panic); try (repeat keeps_step; fail).
  (* FuncType: the one store, through the pointer just returned *)
  eapply keeps_bind; [apply keeps_rewriteAs|]. intros p Hp.
  assert (N <= p) as HNp by (apply Hp; by intros []).
  do 5 (eapply keeps_bind; [apply keeps_alloc_True|intros ? _]).
  eapply keeps_bind; [apply keeps_load|intros pl _].
  eapply keeps_bind with (Q := fun _ => True).
  - destruct pl; try apply keeps_panic. by apply keeps_store.
  - intros ? _. repeat keeps_step.
Qed.
End FrameStep.

Lemma rewrite_keeps fuel : rec_keeps N (rewrite fuel).
Proof.
  induction fuel as [|fuel IH]; intros v h a h' HN; simpl; [done|].
  unfold bind, hload. destruct (h !! v) as [s|] eqn:Hs; [|done].
  destruct (isLeaf s) eqn:Hleaf.
  - destruct s; try discriminate Hleaf; simpl; intros [= <- <-]; eauto 6.
  - intros Hr.
    destruct (keeps_rewriteStep _ IH v s Hleaf h a h' HN Hr) as (?&?&?).
    auto.
Qed.
End Frame.

(** A run changes no cell of the store it starts from. *)
Lemma rewrite_frame fuel v h v' h' :
  rewrite fuel v h = Done v' h' -> h `prefix_of` h'.
Proof.
  intros Hr.
  destruct (rewrite_keeps (length h) fuel v h v' h' ltac:(done) Hr)
    as (Hlen & Htake & _).
  rewrite firstn_all in Htake. exists (drop (length h) h').
  by rewrite <- Htake at 1; rewrite take_drop.
Qed.

(** *** Reading trees *)

Section TraverseFacts.
Context {A B : Type}.
Implicit Types f g : A -> option B.

Lemma travOpt_impl f g x x' :
  (forall a b, f a = Some b -> g a = Some b) ->
  travOpt f x = Some x' -> travOpt g x = Some x'.
Proof.
  intros Hfg. destruct x as [a|]; simpl; [|done].
  destruct (f a) as [b|] eqn:Hf; [|done]. simpl. intros [= <-].
  by rewrite (Hfg _ _ Hf).
Qed.

Lemma mapM_impl {C D} (f g : C -> option D) l l' :
  (forall a b, f a = Some b -> g a = Some b) ->
  mapM f l = Some l' -> mapM g l = Some l'.
Proof.
  intros Hfg. rewrite !mapM_Some. intros H.
  eapply Forall2_impl; [exact H|exact Hfg].
Qed.

Lemma travSlice_impl f g xs xs' :
  (forall a b, f a = Some b -> g a = Some b) ->
  travSlice f xs = Some xs' -> travSlice g xs = Some xs'.
Proof.
  intros Hfg. destruct xs as [l|]; simpl; [|done].
  destruct (mapM (travOpt f) l) as [l'|] eqn:Hl; [|done]. simpl. intros [= <-].
  erewrite mapM_impl; [done| |exact Hl]. intros a b. by apply travOpt_impl.
Qed.

Lemma travFiles_impl f g (fs : list (string * option A)) fs' :
  (forall a b, f a = Some b -> g a = Some b) ->
  mapM (travFile f) fs = Some fs' -> mapM (travFile g) fs = Some fs'.
Proof.
  intros Hfg. apply mapM_impl. intros [n x] [n' x']. unfold travFile. simpl.
  destruct (travOpt f x) as [y|] eqn:Hx; [|done]. simpl. intros [= <- <-].
  by rewrite (travOpt_impl f g _ _ Hfg Hx).
Qed.

Lemma traverseF_impl f g s s' :
  (forall a b, f a = Some b -> g a = Some b) ->
  traverseF f s = Some s' -> traverseF g s = Some s'.
Proof.
  intros Hfg H. destruct s; simpl in *; simplify_option_eq;
    repeat match goal with
           | H : travOpt f _ = Some _ |- _ =>
               apply (travOpt_impl f g _ _ Hfg) in H; rewrite H; clear H
           | H : travSlice f _ = Some _ |- _ =>
               apply (travSlice_impl f g _ _ Hfg) in H; rewrite H; clear H
           | H : mapM (travFile f) _ = Some _ |- _ =>
               apply (travFiles_impl f g _ _ Hfg) in H; rewrite H; clear H
           end; done.
Qed.

Lemma traverseF_kindOf f s s' :
  traverseF f s = Some s' -> kindOf s' = kindOf s.
Proof. intros H. destruct s; simpl in *; simplify_option_eq; done. Qed.
End TraverseFacts.

Lemma tree_of_S fuel h l t :
  tree_of (S fuel) h l = Some t <->
  exists s s', h !! l = Some s /\ traverseF (tree_of fuel h) s = Some s' /\
               t = Tree.Node s'.
Proof.
  simpl. split.
  - intros H. simplify_option_eq. eauto.
  - intros (s & s' & -> & Hs & ->). simpl. by rewrite Hs.
Qed.

Lemma tree_of_fuel_S fuel h l t :
  tree_of fuel h l = Some t -> tree_of (S fuel) h l = Some t.
Proof.
  revert l t. induction fuel as [|fuel IH]; intros l t; [done|].
  rewrite !tree_of_S. intros (s & s' & Hs & Htr & ->). exists s, s'.
  split; [done|]. split; [|done]. eapply traverseF_impl; [|exact Htr]. exact IH.
Qed.

Lemma tree_of_fuel_mono fuel fuel' h l t :
  fuel <= fuel' -> tree_of fuel h l = Some t -> tree_of fuel' h l = Some t.
Proof.
  induction 1 as [|fuel' _ IH]; [done|]. intros H. by apply tree_of_fuel_S, IH.
Qed.

Lemma tree_of_prefix fuel h h' l t :
  h `prefix_of` h' -> tree_of fuel h l = Some t -> tree_of fuel h' l = Some t.
Proof.
  intros Hpre. revert l t. induction fuel as [|fuel IH]; intros l t; [done|].
  rewrite !tree_of_S. intros (s & s' & Hs & Htr & ->). exists s, s'.
  split; [by eapply prefix_lookup_Some|]. split; [|done].
  eapply traverseF_impl; [|exact Htr]. exact IH.
Qed.

(** The tree below a pointer does not depend on the fuel that reads it. *)
Lemma tree_of_det fuel fuel' h l t t' :
  tree_of fuel h l = Some t -> tree_of fuel' h l = Some t' -> t = t'.
Proof.
  intros H H'.
  apply (tree_of_fuel_mono _ (fuel + fuel')) in H; [|lia].
  apply (tree_of_fuel_mono _ (fuel + fuel')) in H'; [|lia]. congruence.
Qed.

(** A cell that no pointer below [c] leads to can be overwritten. *)
Lemma tree_of_insert fuel h p s c t :
  (forall i, i <= fuel -> tree_of i h p = None) ->
  tree_of fuel h c = Some t -> tree_of fuel (<[p := s]> h) c = Some t.
Proof.
  revert c t. induction fuel as [|fuel IH]; intros c t Hp; [done|].
  rewrite !tree_of_S. intros (sc & sc' & Hc & Htr & ->).
  destruct (decide (c = p)) as [->|Hne].
  { specialize (Hp (S fuel) ltac:(done)). simpl in Hp. rewrite Hc in Hp.
    simpl in Hp. by rewrite Htr in Hp. }
  exists sc, sc'. split; [by rewrite list_lookup_insert_ne|]. split; [|done].
  eapply traverseF_impl; [|exact Htr]. intros a b. apply IH.
  intros i Hi. apply Hp. lia.
Qed.

(** The least fuel that reads the tree below a pointer. *)
Lemma tree_of_least fuel h p t :
  tree_of fuel h p = Some t ->
  exists m, tree_of (S m) h p = Some t /\ forall i, i <= m -> tree_of i h p = None.
Proof.
  induction fuel as [|fuel IH]; [done|]. intros H.
  destruct (tree_of fuel h p) as [t'|] eqn:Hprev.
  - assert (t' = t) as -> by (eapply tree_of_det; eauto). by apply IH.
  - exists fuel. split; [done|]. intros i Hi.
    destruct (tree_of i h p) as [t'|] eqn:Hi'; [|done].
    apply (tree_of_fuel_mono _ fuel) in Hi'; [congruence|done].
Qed.

(** *** Rules for the relation between the instances *)

Lemma eventually_always (P : nat -> Prop) : (forall k, P k) -> eventually P.
Proof. intros H. exists 0. auto. Qed.

Lemma eventually_cut (P Q : nat -> Prop) :
  eventually P -> eventually (fun k => P k -> Q k) -> eventually Q.
Proof.
  intros [m Hm] [m' Hm']. exists (m + m'). intros k Hk.
  apply Hm'; [lia|]. apply Hm. lia.
Qed.

Lemma eventually_of_fuel (P : nat -> Prop) fuel :
  (forall k, P k -> P (S k)) -> P fuel -> eventually P.
Proof.
  intros HS H. exists fuel. induction 1; auto.
Qed.

Lemma tree_of_eventually fuel h l t :
  tree_of fuel h l = Some t -> has_tree h t l.
Proof.
  intros H. apply (eventually_of_fuel _ fuel); [|exact H].
  intros k. apply tree_of_fuel_S.
Qed.

Lemma travOpt_eventually fuel h x x' :
  travOpt (tree_of fuel h) x = Some x' -> has_opt h x' x.
Proof.
  intros H. apply (eventually_of_fuel _ fuel); [|exact H].
  intros k. apply travOpt_impl. intros a b. apply tree_of_fuel_S.
Qed.

Lemma travSlice_eventually fuel h x x' :
  travSlice (tree_of fuel h) x = Some x' -> has_slice h x' x.
Proof.
  intros H. apply (eventually_of_fuel _ fuel); [|exact H].
  intros k. apply travSlice_impl. intros a b. apply tree_of_fuel_S.
Qed.

Lemma has_tree_content h t l : has_tree h t l <-> content h l t.
Proof.
  split.
  - intros [m Hm]. exists m. by apply Hm.
  - intros [m Hm]. by eapply tree_of_eventually.
Qed.

(** Extending the store keeps what it holds. *)
Lemma travOpt_prefix fuel h h' x x' :
  h `prefix_of` h' ->
  travOpt (tree_of fuel h) x = Some x' -> travOpt (tree_of fuel h') x = Some x'.
Proof. intros Hp. apply travOpt_impl. intros a b. by apply tree_of_prefix. Qed.

Lemma travSlice_prefix fuel h h' x x' :
  h `prefix_of` h' ->
  travSlice (tree_of fuel h) x = Some x' -> travSlice (tree_of fuel h') x = Some x'.
Proof. intros Hp. apply travSlice_impl. intros a b. by apply tree_of_prefix. Qed.

Lemma travList_prefix fuel h h' x x' :
  h `prefix_of` h' ->
  mapM (travOpt (tree_of fuel h)) x = Some x' ->
  mapM (travOpt (tree_of fuel h')) x = Some x'.
Proof.
  intros Hp. apply mapM_impl. intros a b. by apply travOpt_prefix.
Qed.

Lemma has_tree_prefix h h' t l : h `prefix_of` h' -> has_tree h t l -> has_tree h' t l.
Proof. intros Hp [m Hm]. exists m. intros k Hk. eapply tree_of_prefix; eauto. Qed.
Lemma has_opt_prefix h h' t l : h `prefix_of` h' -> has_opt h t l -> has_opt h' t l.
Proof. intros Hp [m Hm]. exists m. intros k Hk. eapply travOpt_prefix; eauto. Qed.
Lemma has_list_prefix h h' t l : h `prefix_of` h' -> has_list h t l -> has_list h' t l.
Proof. intros Hp [m Hm]. exists m. intros k Hk. eapply travList_prefix; eauto. Qed.
Lemma has_slice_prefix h h' t l : h `prefix_of` h' -> has_slice h t l -> has_slice h' t l.
Proof. intros Hp [m Hm]. exists m. intros k Hk. eapply travSlice_prefix; eauto. Qed.

Lemma has_slice_elems h xs' xs : has_slice h xs' xs -> has_list h (elems xs') (elems xs).
Proof.
  intros [m Hm]. exists m. intros k Hk. specialize (Hm k Hk).
  destruct xs as [l|]; simpl in *; simplify_option_eq; done.
Qed.

(** *** Rules for [refines] *)

Lemma refines_bind {A B A' B'} (R : heap -> A -> B -> Prop)
    (S : heap -> A' -> B' -> Prop) h mt mh kt kh :
  refines R h mt mh ->
  (forall a b h', h `prefix_of` h' -> R h' a b -> refines S h' (kt a) (kh b)) ->
  refines S h (Tree.bind mt kt) (bind mh kh).
Proof.
  intros Hm Hk. destruct mt as [a|p]; simpl in *.
  - destruct Hm as (b & h1 & Hmh & Hpre & HR). specialize (Hk a b h1 Hpre HR).
    destruct (kt a) as [a'|p']; simpl in *.
    + destruct Hk as (b' & h2 & Hk & Hpre' & HS). exists b', h2.
      unfold bind. rewrite Hmh. split; [done|]. split; [by etrans|done].
    + destruct Hk as (p'' & Hk). exists p''. unfold bind. by rewrite Hmh.
  - destruct Hm as (p' & Hmh). exists p'. unfold bind. by rewrite Hmh.
Qed.

Lemma refines_ret {A B} (R : heap -> A -> B -> Prop) h a b :
  R h a b -> refines R h (Tree.Ok a) (mret mem b).
Proof. intros HR. exists b, h. done. Qed.

Lemma refines_panic {A B} (R : heap -> A -> B -> Prop) h p p' :
  refines R h (Tree.Panic p) (mpanic mem p').
Proof. by exists p'. Qed.

Lemma refines_alloc h s' s :
  has_struct h s' s -> refines has_tree h (Tree.Ok (Tree.Node s')) (halloc s).
Proof.
  intros [m Hm]. exists (length h), (h ++ [s]). split; [done|].
  split; [by apply prefix_app_r|].
  apply (tree_of_eventually (S m)). apply tree_of_S. exists s, s'.
  split; [by apply list_lookup_middle|]. split; [|done].
  eapply traverseF_impl; [|by apply Hm]. intros a b.
  apply tree_of_prefix. by apply prefix_app_r.
Qed.

(** An allocation on the pointer side alone: on trees the new struct is a
    value, with no step of its own. *)
Lemma refines_alloc_l {A B} (S : heap -> A -> B -> Prop) h s' s mt kh :
  has_struct h s' s ->
  (forall h', h `prefix_of` h' -> has_tree h' (Tree.Node s') (length h) ->
              refines S h' mt (kh (length h))) ->
  refines S h mt (bind (halloc s) kh).
Proof.
  intros Hs Hk.
  destruct (refines_alloc h s' s Hs) as (b & h1 & [= <- <-] & Hpre & Ht).
  specialize (Hk _ Hpre Ht). unfold refines, bind, halloc in *.
  destruct mt as [a|p].
  - destruct Hk as (b & h2 & Hr & Hp2 & HS). exists b, h2.
    split; [done|]. split; [by etrans|done].
  - done.
Qed.

(** *** The store after the new parameter is put in *)

Lemma injectRun_FieldList {A} (k : nat -> comp A) h p l :
  h !! p = Some (FieldList l) ->
  injectRun k p h = k p (injected h p l).
Proof.
  intros Hp. pose proof (lookup_lt_Some _ _ _ Hp) as Hlt.
  unfold injectRun, bind, halloc, hload, hstore. simpl.
  rewrite !length_app. simpl.
  rewrite <- !app_assoc. simpl.
  rewrite (lookup_app_l_Some _ _ _ _ Hp).
  rewrite decide_True by (rewrite length_app; simpl; lia).
  unfold injected, ctxCells.
  by replace (length h + 1 + 1 + 1 + 1) with (length h + 4) by lia;
     replace (length h + 1 + 1 + 1) with (length h + 3) by lia;
     replace (length h + 1 + 1) with (length h + 2) by lia.
Qed.

Lemma injectRun_other {A} (k : nat -> comp A) h p s :
  h !! p = Some s -> isFieldList s = false ->
  injectRun k p h = Panicked TypeAssertion.
Proof.
  intros Hp Hs. unfold injectRun, bind, halloc, hload. simpl.
  rewrite <- !app_assoc. rewrite (lookup_app_l_Some _ _ _ _ Hp).
  by destruct s.
Qed.

Lemma injected_prefix h0 h p l :
  h0 `prefix_of` h -> length h0 <= p -> h0 `prefix_of` injected h p l.
Proof.
  intros [ext ->] Hp. unfold injected.
  rewrite <- app_assoc. rewrite insert_app_r_alt by done.
  by apply prefix_app_r.
Qed.

Lemma injected_ctxParam h p l :
  p < length h -> tree_of 3 (injected h p l) (length h + 4) = Some Tree.ctxParam.
Proof.
  intros Hp. unfold injected. rewrite insert_app_l by done.
  assert (length (<[p := FieldList (Some (Some (length h + 4) :: elems l))]> h)
          = length h) as Hlen by apply length_insert.
  set (h' := <[p := _]> h) in *.
  assert (forall i, (h' ++ ctxCells (length h)) !! (length h + i)
                    = ctxCells (length h) !! i) as Hc.
  { intros i. rewrite lookup_app_r by lia. f_equal. lia. }
  pose proof (Hc 0) as H0. rewrite Nat.add_0_r in H0.
  pose proof (Hc 1) as H1. pose proof (Hc 2) as H2.
  pose proof (Hc 3) as H3. pose proof (Hc 4) as H4.
  simpl in H0, H1, H2, H3, H4.
  simpl. rewrite H4. simpl. rewrite H0. simpl. rewrite H3. simpl.
  rewrite H1. simpl. rewrite H2. done.
Qed.

Lemma injected_content h p l l' m :
  h !! p = Some (FieldList l) ->
  travSlice (tree_of m h) l = Some l' ->
  (forall i, i <= m -> tree_of i h p = None) ->
  has_tree (injected h p l)
    (Tree.Node (FieldList (Some (Some Tree.ctxParam :: elems l')))) p.
Proof.
  intros Hp Hl Hleast. pose proof (lookup_lt_Some _ _ _ Hp) as Hlt.
  apply (tree_of_eventually (S (m + 3))). apply tree_of_S.
  eexists. eexists. split.
  { unfold injected. apply list_lookup_insert_eq. rewrite length_app. lia. }
  split; [|done]. simpl.
  rewrite (tree_of_fuel_mono 3 (m + 3) _ _ _ ltac:(lia) (injected_ctxParam h p l Hlt)).
  simpl.
  assert (mapM (travOpt (tree_of (m + 3) (injected h p l))) (elems l)
          = Some (elems l')) as ->; [|done].
  assert (mapM (travOpt (tree_of m h)) (elems l) = Some (elems l')) as Hel.
  { destruct l; simpl in *; simplify_option_eq; done. }
  eapply mapM_impl; [|exact Hel]. intros a b. apply travOpt_impl.
  intros c t Hc. apply (tree_of_fuel_mono m); [lia|].
  unfold injected. rewrite insert_app_l by done.
  apply (tree_of_prefix _ (<[p := FieldList (Some (Some (length h + 4) :: elems l))]> h));
    [by apply prefix_app_r|].
  by apply tree_of_insert.
Qed.

(** *** The pointer instance computes what the tree instance computes *)

Lemma isExpr_kindOf {E} (s : nodeF E) : isExpr s = isExpr (kindOf s).
Proof. by destruct s. Qed.
Lemma isStmt_kindOf {E} (s : nodeF E) : isStmt s = isStmt (kindOf s).
Proof. by destruct s. Qed.
Lemma isDecl_kindOf {E} (s : nodeF E) : isDecl s = isDecl (kindOf s).
Proof. by destruct s. Qed.
Lemma isSpec_kindOf {E} (s : nodeF E) : isSpec s = isSpec (kindOf s).
Proof. by destruct s. Qed.
Lemma isBlockStmt_kindOf {E} (s : nodeF E) : isBlockStmt s = isBlockStmt (kindOf s).
Proof. by destruct s. Qed.
Lemma isCallExpr_kindOf {E} (s : nodeF E) : isCallExpr s = isCallExpr (kindOf s).
Proof. by destruct s. Qed.
Lemma isField_kindOf {E} (s : nodeF E) : isField s = isField (kindOf s).
Proof. by destruct s. Qed.
Lemma isFieldList_kindOf {E} (s : nodeF E) : isFieldList s = isFieldList (kindOf s).
Proof. by destruct s. Qed.
Lemma isFuncType_kindOf {E} (s : nodeF E) : isFuncType s = isFuncType (kindOf s).
Proof. by destruct s. Qed.

(** A type assertion answers the same for two structs of one node type. *)
Ltac same_kind :=
  let s := fresh "s" in let s' := fresh "s'" in let Hk := fresh "Hk" in
  intros s s' Hk;
  first [ rewrite (isExpr_kindOf s), (isExpr_kindOf s')
        | rewrite (isStmt_kindOf s), (isStmt_kindOf s')
        | rewrite (isDecl_kindOf s), (isDecl_kindOf s')
        | rewrite (isSpec_kindOf s), (isSpec_kindOf s')
        | rewrite (isBlockStmt_kindOf s), (isBlockStmt_kindOf s')
        | rewrite (isCallExpr_kindOf s), (isCallExpr_kindOf s')
        | rewrite (isField_kindOf s), (isField_kindOf s')
        | rewrite (isFieldList_kindOf s), (isFieldList_kindOf s')
        | rewrite (isFuncType_kindOf s), (isFuncType_kindOf s') ];
  by rewrite Hk.

(** Move what is known about a store to a store that extends it. *)
Ltac advance Hp :=
  repeat match goal with
  | H : travOpt (tree_of _ ?h) _ = Some _ |- _ =>
      lazymatch type of Hp with h `prefix_of` _ =>
        apply (travOpt_prefix _ _ _ _ _ Hp) in H end
  | H : travSlice (tree_of _ ?h) _ = Some _ |- _ =>
      lazymatch type of Hp with h `prefix_of` _ =>
        apply (travSlice_prefix _ _ _ _ _ Hp) in H end
  | H : has_tree ?h _ _ |- _ =>
      lazymatch type of Hp with h `prefix_of` _ =>
        apply (has_tree_prefix _ _ _ _ Hp) in H end
  | H : has_opt ?h _ _ |- _ =>
      lazymatch type of Hp with h `prefix_of` _ =>
        apply (has_opt_prefix _ _ _ _ Hp) in H end
  | H : has_list ?h _ _ |- _ =>
      lazymatch type of Hp with h `prefix_of` _ =>
        apply (has_list_prefix _ _ _ _ Hp) in H end
  | H : has_slice ?h _ _ |- _ =>
      lazymatch type of Hp with h `prefix_of` _ =>
        apply (has_slice_prefix _ _ _ _ Hp) in H end
  end.

(** The struct being allocated holds the trees its slots hold. *)
Ltac solve_struct :=
  repeat match goal with
  | H : travOpt (tree_of _ _) _ = Some _ |- _ => apply travOpt_eventually in H
  | H : travSlice (tree_of _ _) _ = Some _ |- _ => apply travSlice_eventually in H
  end;
  unfold has_struct, has_tree, has_opt, has_slice, has_list in *;
  repeat match goal with
  | H : eventually _ |- eventually _ => apply (eventually_cut _ _ H); clear H
  end;
  apply eventually_always; intros ?; intros; simpl;
  repeat match goal with
  | H : _ = Some _ |- _ => rewrite H; simpl
  end;
  done.

Section RefineStep.
Variable fuel : nat.
Variable rec : loc -> comp loc.
Hypothesis IH : forall h l t,
  tree_of fuel h l = Some t -> refines has_tree h (Tree.rewrite t) (rec l).
Hypothesis Hkeeps : forall N, rec_keeps N rec.

Lemma refines_rewriteAs (isTt : nodeF Tree.node -> bool) (isTh : nodeF loc -> bool)
    npt nph h x x' :
  (forall s s', kindOf s' = kindOf s -> isTt s' = isTh s) ->
  travOpt (tree_of fuel h) x = Some x' ->
  refines has_tree h (rewriteAs Tree.mem Tree.rewrite isTt npt x')
    (rewriteAs mem rec isTh nph x).
Proof.
  intros HT Hx. destruct x as [e|]; simpl in Hx.
  - destruct (tree_of fuel h e) as [t|] eqn:He; [|done]. simpl in Hx.
    injection Hx as <-. specialize (IH h e t He). unfold rewriteAs. simpl.
    destruct (Tree.rewrite t) as [t'|p]; simpl in *.
    + destruct IH as (e' & h1 & Hr & Hpre & [m Hm]).
      specialize (Hm (S m) ltac:(lia)).
      apply tree_of_S in Hm as (s & s' & Hs & Htr & ->). simpl.
      rewrite (HT s s' (traverseF_kindOf _ _ _ Htr)).
      destruct (isTh s) eqn:Ht; simpl.
      * exists e', h1. split; [unfold bind, hload; by rewrite Hr, Hs, Ht|].
        split; [done|].
        apply (tree_of_eventually (S m)). apply tree_of_S. eauto.
      * exists TypeAssertion. unfold bind, hload. by rewrite Hr, Hs, Ht.
    + destruct IH as (p' & Hr). exists p'. unfold bind. by rewrite Hr.
  - injection Hx as <-. unfold rewriteAs. simpl. eauto.
Qed.

Lemma refines_rewriteReq isTt isTh npt nph h x x' :
  (forall s s', kindOf s' = kindOf s -> isTt s' = isTh s) ->
  travOpt (tree_of fuel h) x = Some x' ->
  refines has_opt h (rewriteReq Tree.mem Tree.rewrite isTt npt x')
    (rewriteReq mem rec isTh nph x).
Proof.
  intros HT Hx. unfold rewriteReq. simpl.
  eapply refines_bind; [by apply refines_rewriteAs|].
  intros t e h' _ [m Hm]. apply refines_ret. exists m. intros k Hk. simpl.
  by rewrite (Hm k Hk).
Qed.

Lemma refines_rewriteOpt isTt isTh npt nph h x x' :
  (forall s s', kindOf s' = kindOf s -> isTt s' = isTh s) ->
  travOpt (tree_of fuel h) x = Some x' ->
  refines has_opt h (rewriteOpt Tree.mem Tree.rewrite isTt npt x')
    (rewriteOpt mem rec isTh nph x).
Proof.
  intros HT Hx. unfold rewriteOpt. destruct x as [e|].
  - pose proof Hx as Hx'. simpl in Hx'.
    destruct (tree_of fuel h e); [|done]. injection Hx' as <-.
    by apply refines_rewriteReq.
  - injection Hx as <-. apply refines_ret. by apply eventually_always.
Qed.

Section Each.
Variable ft : option Tree.node -> Tree.result (option Tree.node).
Variable fh : option loc -> comp (option loc).
Hypothesis Hf : forall h x x',
  travOpt (tree_of fuel h) x = Some x' -> refines has_opt h (ft x') (fh x).

Lemma refines_rewriteEach h l l' :
  mapM (travOpt (tree_of fuel h)) l = Some l' ->
  refines has_list h (rewriteEach Tree.mem ft l') (rewriteEach mem fh l).
Proof.
  revert h l'. induction l as [|x l IHl]; intros h l' Hl.
  - injection Hl as <-. apply refines_ret. by apply eventually_always.
  - apply mapM_Some in Hl. inversion Hl as [|? x' ? l0' Hx Hl0]; subst.
    apply mapM_Some in Hl0.
    change (refines has_list h
      (Tree.bind (ft x') (fun y => Tree.bind (rewriteEach Tree.mem ft l0')
                                     (fun ys => Tree.Ok (y :: ys))))
      (bind (fh x) (fun y => bind (rewriteEach mem fh l)
                               (fun ys => mret mem (y :: ys))))).
    eapply refines_bind; [by apply Hf|]. intros y' y h1 Hp1 Hy.
    eapply refines_bind; [apply IHl; by eapply travList_prefix|].
    intros ys' ys h2 Hp2 Hys. apply refines_ret.
    apply (has_opt_prefix _ _ _ _ Hp2) in Hy.
    apply (eventually_cut _ _ Hy). apply (eventually_cut _ _ Hys).
    apply eventually_always. intros k Hk1 Hk2. simpl. rewrite Hk2. simpl.
    by rewrite Hk1.
Qed.

Lemma refines_rewriteSlice h xs xs' :
  travSlice (tree_of fuel h) xs = Some xs' ->
  refines has_slice h (rewriteSlice Tree.mem ft xs') (rewriteSlice mem fh xs).
Proof.
  intros Hxs. unfold rewriteSlice. destruct xs as [l|]; simpl in Hxs.
  - destruct (mapM (travOpt (tree_of fuel h)) l) as [l'|] eqn:Hl; [|done].
    injection Hxs as <-. simpl.
    eapply refines_bind; [by apply refines_rewriteEach|].
    intros ys' ys h1 _ [m Hm]. apply refines_ret. exists m. intros k Hk.
    simpl. by rewrite (Hm k Hk).
  - injection Hxs as <-. apply refines_ret. by apply eventually_always.
Qed.

Lemma refines_rewriteRange h xs xs' :
  travSlice (tree_of fuel h) xs = Some xs' ->
  refines has_list h (rewriteRange Tree.mem ft xs') (rewriteRange mem fh xs).
Proof.
  intros Hxs. unfold rewriteRange. destruct xs as [l|]; simpl in Hxs.
  - destruct (mapM (travOpt (tree_of fuel h)) l) as [l'|] eqn:Hl; [|done].
    injection Hxs as <-. by apply refines_rewriteEach.
  - injection Hxs as <-. apply refines_ret. by apply eventually_always.
Qed.
End Each.

Ltac slot_step :=
  first
    [ eapply refines_bind;
      [ first
          [ apply refines_rewriteReq; [same_kind|eassumption]
          | apply refines_rewriteOpt; [same_kind|eassumption]
          | apply refines_rewriteSlice;
            [intros; apply refines_rewriteReq; [same_kind|eassumption]
            |eassumption]
          | apply refines_rewriteRange;
            [intros; apply refines_rewriteReq; [same_kind|eassumption]
            |eassumption] ]
      | let Hp := fresh "Hp" in intros ? ? ? Hp ?; advance Hp; clear Hp ]
    | lazymatch goal with
      | |- refines _ _ _ (bind (halloc _) _) => eapply refines_alloc_l
      end;
      [ solve_struct
      | let Hp := fresh "Hp" in intros ? Hp ?; advance Hp; clear Hp ] ].

Ltac last_step :=
  apply refines_alloc;
  repeat match goal with
  | H : has_slice _ _ _ |- _ => apply has_slice_elems in H
  end;
  solve_struct.

(** The case of [*ast.FuncType], the one with a store. *)
Lemma refines_FuncType h l params results params' results' v' :
  travOpt (tree_of fuel h) params = Some params' ->
  travOpt (tree_of fuel h) results = Some results' ->
  refines has_tree h
    (rewriteStep Tree.mem Tree.rewrite v' (FuncType params' results'))
    (rewriteStep mem rec l (FuncType params results)).
Proof.
  intros Hp Hr.
  change (rewriteStep mem rec l (FuncType params results)) with
    (bind (rewriteAs mem rec isFieldList NilDeref params)
       (injectRun (fun p => bind (rewriteFieldListOpt mem rec results)
                              (fun r => halloc (FuncType (Some p) r))))).
  pose proof (refines_rewriteAs isFieldList isFieldList NilDeref NilDeref
                h params params' ltac:(same_kind) Hp) as HA.
  simpl.
  destruct (rewriteAs Tree.mem Tree.rewrite isFieldList NilDeref params')
    as [pt|pp]; simpl in *.
  2: { destruct HA as (p' & HA). exists p'. unfold bind at 1. by rewrite HA. }
  destruct HA as (p & h1 & HA & Hpre1 & [m0 Hm0]).
  destruct (keeps_rewriteAs (length h) rec (Hkeeps _) isFieldList NilDeref
              params h p h1 ltac:(done) HA) as (_ & _ & Hfresh).
  assert (length h <= p) as Hfr by (apply Hfresh; by intros []).
  destruct (tree_of_least _ _ _ _ (Hm0 m0 (le_n _))) as (m & Hm & Hleast).
  apply tree_of_S in Hm as (sp & sp' & Hsp & Htr & ->). simpl.
  destruct (isFieldList sp) eqn:Hfl.
  - destruct sp; try discriminate Hfl.
    match goal with
    | H : _ !! p = Some (FieldList ?x) |- _ => rename x into fl
    end.
    simpl in Htr. destruct (travSlice (tree_of m h1) fl) as [l'|] eqn:Hl; [|done].
    injection Htr as <-. simpl.
    pose proof (injected_content h1 p fl l' m Hsp Hl Hleast) as Hcont.
    pose proof (injected_prefix h h1 p fl Hpre1 Hfr) as Hpre3.
    apply (travOpt_prefix _ _ _ _ _ Hpre3) in Hr.
    assert (refines has_tree (injected h1 p fl)
              (Tree.bind (rewriteFieldListOpt Tree.mem Tree.rewrite results')
                 (fun r => Tree.Ok (Tree.Node (FuncType
                    (Some (Tree.Node (FieldList (Some (Some Tree.ctxParam :: elems l')))))
                    r))))
              (bind (rewriteFieldListOpt mem rec results)
                 (fun r => halloc (FuncType (Some p) r)))) as HK.
    { slot_step. last_step. }
    change (Tree.Node (Field _ _ _)) with Tree.ctxParam.
    unfold refines in HK |- *.
    destruct (Tree.bind _ _) as [out|pp].
    + destruct HK as (b & h4 & Hrun & Hpre4 & Hout). exists b, h4.
      split; [|split; [by etrans|done]].
      unfold bind at 1. rewrite HA.
      by rewrite (injectRun_FieldList _ _ _ _ Hsp).
    + destruct HK as (p1 & Hrun). exists p1.
      unfold bind at 1. rewrite HA.
      by rewrite (injectRun_FieldList _ _ _ _ Hsp).
  - assert (isFieldList sp' = false) as Hfl'.
    { rewrite (isFieldList_kindOf sp'), (traverseF_kindOf _ _ _ Htr),
        <- (isFieldList_kindOf sp). done. }
    assert (forall k : Tree.node -> Tree.result Tree.node,
              Tree.bind match sp' with
                        | FieldList l0 => Tree.Ok (Tree.Node (FieldList
                            (Some (Some Tree.ctxParam :: elems l0))))
                        | _ => Tree.Panic TypeAssertion
                        end k = Tree.Panic TypeAssertion) as ->.
    { intros k. by destruct sp'. }
    exists TypeAssertion. unfold bind at 1. rewrite HA.
    by apply injectRun_other with (s := sp).
Qed.

Lemma refines_rewriteStep h l s s' :
  h !! l = Some s ->
  traverseF (tree_of fuel h) s = Some s' ->
  refines has_tree h
    (rewriteStep Tree.mem Tree.rewrite (Tree.Node s') s')
    (rewriteStep mem rec l s).
Proof.
  intros Hl Htr.
  assert (has_tree h (Tree.Node s') l) as Hself.
  { apply (tree_of_eventually (S fuel)), tree_of_S. eauto. }
  destruct s; simpl in Htr; simplify_option_eq;
    try (by apply refines_FuncType with (l := l) (v' := Tree.ctxIdent));
    simpl; try (by eexists); try (by apply refines_ret);
    clear Hself Hl; repeat slot_step;
    first [apply refines_alloc; solve_struct | last_step].
Qed.
End RefineStep.

(** The pointer instance computes what the tree instance computes: from a
    store that holds the tree [t] below [l] (read with fuel [fuel]), the run
    with the same fuel ends as [Tree.rewrite t] does, in a store that
    extends the first and holds the result. *)
Lemma rewrite_refines fuel h l t :
  tree_of fuel h l = Some t ->
  refines has_tree h (Tree.rewrite t) (rewrite fuel l).
Proof.
  revert h l t. induction fuel as [|fuel IH]; intros h l t; [done|].
  intros (s & s' & Hs & Htr & ->)%tree_of_S.
  pose proof (refines_rewriteStep fuel (rewrite fuel) IH
                (fun N => rewrite_keeps N fuel) h l s s' Hs Htr) as Hstep.
  simpl. unfold refines, bind, hload in *. by rewrite Hs.
Qed.

(** *** Fuel *)

Lemma le_comp_refl {A} (m : comp A) : le_comp m m.
Proof. by intros h _. Qed.

Lemma le_comp_bind {A B} (m1 m2 : comp A) (k1 k2 : A -> comp B) :
  le_comp m1 m2 -> (forall a, le_comp (k1 a) (k2 a)) ->
  le_comp (bind m1 k1) (bind m2 k2).
Proof.
  intros Hm Hk h. unfold bind. intros Hns.
  destruct (m1 h) as [a h1| |] eqn:Hm1; [| |done].
  - rewrite (Hm h) by (by rewrite Hm1). rewrite Hm1. by apply Hk.
  - rewrite (Hm h) by (by rewrite Hm1). by rewrite Hm1.
Qed.

Section Mono.
Variables rec1 rec2 : loc -> comp loc.
Hypothesis Hrec : forall e, le_comp (rec1 e) (rec2 e).

Lemma le_rewriteAs isT nilp x :
  le_comp (rewriteAs mem rec1 isT nilp x) (rewriteAs mem rec2 isT nilp x).
Proof.
  unfold rewriteAs. destruct x as [e|]; [|apply le_comp_refl].
  apply le_comp_bind; [apply Hrec|]. intros e'. apply le_comp_refl.
Qed.

Lemma le_rewriteReq isT nilp x :
  le_comp (rewriteReq mem rec1 isT nilp x) (rewriteReq mem rec2 isT nilp x).
Proof.
  unfold rewriteReq. apply le_comp_bind; [apply le_rewriteAs|].
  intros e. apply le_comp_refl.
Qed.

Lemma le_rewriteOpt isT nilp x :
  le_comp (rewriteOpt mem rec1 isT nilp x) (rewriteOpt mem rec2 isT nilp x).
Proof.
  unfold rewriteOpt. destruct x; [apply le_rewriteReq|apply le_comp_refl].
Qed.

Lemma le_rewriteEach f1 f2 xs :
  (forall x, le_comp (f1 x) (f2 x)) ->
  le_comp (rewriteEach mem f1 xs) (rewriteEach mem f2 xs).
Proof.
  intros Hf. induction xs as [|x xs IH]; [apply le_comp_refl|].
  change (le_comp
    (bind (f1 x) (fun y => bind (rewriteEach mem f1 xs)
                             (fun ys => mret mem (y :: ys))))
    (bind (f2 x) (fun y => bind (rewriteEach mem f2 xs)
                             (fun ys => mret mem (y :: ys))))).
  apply le_comp_bind; [apply Hf|]. intros y.
  apply le_comp_bind; [apply IH|]. intros ys. apply le_comp_refl.
Qed.

Lemma le_rewriteSlice f1 f2 xs :
  (forall x, le_comp (f1 x) (f2 x)) ->
  le_comp (rewriteSlice mem f1 xs) (rewriteSlice mem f2 xs).
Proof.
  intros Hf. unfold rewriteSlice. destruct xs; [|apply le_comp_refl].
  apply le_comp_bind; [by apply le_rewriteEach|]. intros l'.
  apply le_comp_refl.
Qed.

Lemma le_rewriteRange f1 f2 xs :
  (forall x, le_comp (f1 x) (f2 x)) ->
  le_comp (rewriteRange mem f1 xs) (rewriteRange mem f2 xs).
Proof.
  intros Hf. unfold rewriteRange.
  destruct xs; [by apply le_rewriteEach|apply le_comp_refl].
Qed.

Ltac le_step :=
  first
    [ apply le_comp_refl
    | apply le_comp_bind;
      [ first [ apply le_rewriteReq | apply le_rewriteOpt | apply le_rewriteAs
              | apply le_rewriteSlice; intros; apply le_rewriteReq
              | apply le_rewriteRange; intros; apply le_rewriteReq
              | apply le_comp_refl ]
      | intros ? ] ].

Lemma le_rewriteStep v s :
  le_comp (rewriteStep mem rec1 v s) (rewriteStep mem rec2 v s).
Proof. destruct s; simpl; repeat le_step. Qed.
End Mono.

Lemma rewrite_fuel_S fuel v : le_comp (rewrite fuel v) (rewrite (S fuel) v).
Proof.
  revert v. induction fuel as [|fuel IH]; intros v; [by intros h []|].
  change (le_comp (bind (hload v) (rewriteStep mem (rewrite fuel) v))
                  (bind (hload v) (rewriteStep mem (rewrite (S fuel)) v))).
  apply le_comp_bind; [apply le_comp_refl|]. intros s.
  by apply le_rewriteStep.
Qed.

(** More fuel does not change how a run ends. *)
Lemma rewrite_fuel_mono fuel fuel' v h :
  fuel <= fuel' -> rewrite fuel v h <> Stuck ->
  rewrite fuel' v h = rewrite fuel v h.
Proof.
  induction 1 as [|fuel' _ IH]; [done|]. intros Hns.
  rewrite <- (IH Hns). apply rewrite_fuel_S. by rewrite (IH Hns).
Qed.

Lemma rewrite_agree fuel fuel' v h a h1 o :
  rewrite fuel v h = Done a h1 -> rewrite fuel' v h = o -> o <> Stuck ->
  o = Done a h1.
Proof.
  intros H1 H2 Hns.
  pose proof (rewrite_fuel_mono fuel (fuel + fuel') v h ltac:(lia)
                ltac:(by rewrite H1)) as E1.
  pose proof (rewrite_fuel_mono fuel' (fuel + fuel') v h ltac:(lia)
                ltac:(by rewrite H2)) as E2.
  congruence.
Qed.

Lemma rewrite_content fuel h v v1 h1 t :
  rewrite fuel v h = Done v1 h1 -> content h v t ->
  exists t1, Tree.rewrite t = Tree.Ok t1 /\ content h1 v1 t1.
Proof.
  intros Hrun [m Hm]. pose proof (rewrite_refines m h v t Hm) as Href.
  unfold refines in Href. destruct (Tree.rewrite t) as [t1|p].
  - destruct Href as (b & h' & Hrun' & _ & Ht1).
    pose proof (rewrite_agree _ _ _ _ _ _ _ Hrun Hrun' ltac:(done)) as [= <- <-].
    exists t1. split; [done|]. by apply has_tree_content.
  - destruct Href as (p' & Hrun').
    by pose proof (rewrite_agree _ _ _ _ _ _ _ Hrun Hrun' ltac:(done)).
Qed.

Lemma rewrite_returns h v t t1 :
  content h v t -> Tree.rewrite t = Tree.Ok t1 ->
  exists fuel v1 h1, rewrite fuel v h = Done v1 h1.
Proof.
  intros [m Hm] Ht. pose proof (rewrite_refines m h v t Hm) as Href.
  unfold refines in Href. rewrite Ht in Href.
  destruct Href as (b & h' & Hrun' & _). eauto.
Qed.

End HeapFacts.

(** * The driver *)

Module DriverFacts.
Import Tree Driver.

Section Loop.
Variable ParseFile : gmap string string -> string -> error + node.
Variable CreateError : gmap string string -> string -> option error.
Variable Fprint : node -> string * option error.

Local Abbreviation ProcessFile := (ProcessFile ParseFile CreateError Fprint).
Local Abbreviation main := (main ParseFile CreateError Fprint).
Local Abbreviation all_succeed := (all_succeed ParseFile CreateError Fprint).

Lemma main_app_succeed inplace pre rest w w1 :
  all_succeed inplace pre w w1 ->
  main inplace (pre ++ rest) w = main inplace rest w1.
Proof.
  revert w. induction pre as [|f pre IH]; intros w; simpl.
  - by intros ->.
  - intros (w' & Hf & Hpre). rewrite Hf. by apply IH.
Qed.

Lemma main_stops_at_error inplace f post w err w' :
  ProcessFile f inplace w = (Returns (Some err), w') ->
  main inplace (f :: post) w = (Returns tt, println err w').
Proof. intros Hf. simpl. by rewrite Hf. Qed.

Lemma ProcessFile_inplace_panic filename w f p :
  ParseFile (files w) filename = inr f ->
  CreateError (files w) filename = None ->
  rewrite f = Panic p ->
  ProcessFile filename true w = (Panics p, truncate filename w).
Proof.
  intros Hparse Hcreate Hrw. unfold Driver.ProcessFile.
  by rewrite Hparse, Hcreate, Hrw.
Qed.
End Loop.

End DriverFacts.

(** * The statements of the specification *)

Import Tree TreeFacts.

(** C1. A function type with parameter list [ps] is rewritten to a function
    type whose parameter list is the new parameter [ctx context.Context]
    followed by the rewritten fields of [ps], in order; this is the only
    way it returns. With no parameters (a nil or an empty list) the list
    becomes the one new parameter. The result list is rewritten by the rule
    of field lists, which relates the fields one by one and adds none, and
    an absent result list stays absent. Function declarations and function
    literals have their type rewritten by this rule. *)
Theorem C1_funcType_gains_ctx_param :
  (forall ps results out,
     rewrite (Node (FuncType (Some (Node (FieldList ps))) results)) = Ok out <->
     exists ps' results',
       Forall2 (rewritesTo isField) (elems ps) ps' /\
       rewritesToOpt isFieldList results results' /\
       out = Node (FuncType
                     (Some (Node (FieldList (Some (Some ctxParam :: ps')))))
                     results')) /\
  (forall results out,
     rewrite (Node (FuncType (Some (Node (FieldList None))) results)) = Ok out \/
     rewrite (Node (FuncType (Some (Node (FieldList (Some [])))) results)) = Ok out ->
     exists results',
       out = Node (FuncType (Some (Node (FieldList (Some [Some ctxParam]))))
                     results')) /\
  (forall rs out,
     rewrite (Node (FieldList rs)) = Ok out <->
     exists rs', sliceRel (rewritesTo isField) rs rs' /\
                 out = Node (FieldList rs')) /\
  (forall recv name ty body out,
     rewrite (Node (FuncDecl recv name ty body)) = Ok out <->
     exists ty' body',
       rewritesTo isFuncType ty ty' /\ rewritesToOpt isBlockStmt body body' /\
       out = Node (FuncDecl recv name ty' body')) /\
  (forall ty body out,
     rewrite (Node (FuncLit ty body)) = Ok out <->
     exists ty' body',
       rewritesTo isFuncType ty ty' /\ rewritesToOpt isBlockStmt body body' /\
       out = Node (FuncLit ty' body')).
Proof.
  split; [exact rewrite_FuncType|].
  split.
  { intros results out [H|H]; apply rewrite_FuncType in H
      as (ps' & results' & Hps & _ & ->); inversion Hps; eauto. }
  split; [exact rewrite_FieldList|].
  split; [exact rewrite_FuncDecl|exact rewrite_FuncLit].
Qed.

(** C2. A call is rewritten to a call of the rewritten callee whose
    arguments are the identifier [ctx] followed by the rewritten arguments,
    in order; this is the only way it returns. A defer statement and a go
    statement are rewritten to the same statement around the call rewritten
    in this way. *)
Theorem C2_call_gains_ctx_arg :
  (forall fn args ell out,
     rewrite (Node (CallExpr fn args ell)) = Ok out <->
     exists fn' args',
       rewritesTo isExpr fn fn' /\
       Forall2 (rewritesTo isExpr) (elems args) args' /\
       out = Node (CallExpr fn' (Some (Some ctxIdent :: args')) ell)) /\
  (forall fn args ell out,
     rewrite (Node (DeferStmt (Some (Node (CallExpr fn args ell))))) = Ok out <->
     exists fn' args',
       rewritesTo isExpr fn fn' /\
       Forall2 (rewritesTo isExpr) (elems args) args' /\
       out = Node (DeferStmt (Some (Node
               (CallExpr fn' (Some (Some ctxIdent :: args')) ell))))) /\
  (forall fn args ell out,
     rewrite (Node (GoStmt (Some (Node (CallExpr fn args ell))))) = Ok out <->
     exists fn' args',
       rewritesTo isExpr fn fn' /\
       Forall2 (rewritesTo isExpr) (elems args) args' /\
       out = Node (GoStmt (Some (Node
               (CallExpr fn' (Some (Some ctxIdent :: args')) ell))))).
Proof.
  split; [exact rewrite_CallExpr|].
  split; intros fn args ell out.
  - rewrite rewrite_DeferStmt. split.
    + intros (call' & (e & e' & [= <-] & -> & He & _) & ->).
      apply rewrite_CallExpr in He as (fn' & args' & Hfn & Hargs & ->). eauto.
    + intros (fn' & args' & Hfn & Hargs & ->). eexists. split; [|done].
      eexists _, _. split; [done|]. split; [done|]. split; [|done].
      apply rewrite_CallExpr. eauto.
  - rewrite rewrite_GoStmt. split.
    + intros (call' & (e & e' & [= <-] & -> & He & _) & ->).
      apply rewrite_CallExpr in He as (fn' & args' & Hfn & Hargs & ->). eauto.
    + intros (fn' & args' & Hfn & Hargs & ->). eexists. split; [|done].
      eexists _, _. split; [done|]. split; [done|]. split; [|done].
      apply rewrite_CallExpr. eauto.
Qed.

(** C3. A file with [N] declarations is rewritten to the same file with
    [N + 1] declarations: the import of [golang.org/x/net/context], then
    the rewritten declarations, in order; this is the only way it
    returns. *)
Theorem C3_file_gains_import :
  forall name decls imports unresolved comments out,
    rewrite (Node (File name decls imports unresolved comments)) = Ok out <->
    exists decls',
      Forall2 (rewritesTo isDecl) (elems decls) decls' /\
      length (Some contextImport :: decls') = S (length (elems decls)) /\
      out = Node (File name (Some (Some contextImport :: decls')) imports
                    unresolved comments).
Proof.
  intros. rewrite rewrite_File. split.
  - intros (ds & Hds & ->). exists ds. split; [done|]. split; [|done].
    simpl. by rewrite (Forall2_length _ _ _ Hds).
  - intros (ds & Hds & _ & ->). eauto.
Qed.

Import Examples.

Lemma C1_witness : rewrite funcOfInt = Ok funcOfCtxInt.
Proof.
  apply (proj1 C1_funcType_gains_ctx_param). exists [Some paramX], None.
  split; [|split; [by left|reflexivity]].
  repeat constructor. exists paramX, paramX. by vm_compute.
Defined.

Lemma C2_witness :
  rewrite (Node (DeferStmt (Some callG)))
  = Ok (Node (DeferStmt (Some (Node (CallExpr (Some (ident "g"))
            (Some [Some ctxIdent; Some (ident "x")]) 0%Z))))).
Proof.
  apply (proj1 (proj2 C2_call_gains_ctx_arg)).
  exists (Some (ident "g")), [Some (ident "x")].
  split; [|split; [|reflexivity]].
  - exists (ident "g"), (ident "g"). by vm_compute.
  - repeat constructor. exists (ident "x"), (ident "x"). by vm_compute.
Defined.

Lemma C3_witness :
  rewrite (Node (File (Some (ident "p")) (Some [Some (Node (GenDecl VAR None))])
                   None None None))
  = Ok (Node (File (Some (ident "p"))
                (Some [Some contextImport; Some (Node (GenDecl VAR None))])
                None None None)).
Proof.
  apply C3_file_gains_import. exists [Some (Node (GenDecl VAR None))].
  split; [|split; reflexivity].
  repeat constructor. eexists _, _. by vm_compute.
Defined.

(** C4. The type of a value spec and the receiver list of a function
    declaration are copied, not rewritten: [var f func(x int)] is returned
    as it is although its type is rewritten to
    [func(ctx context.Context, x int)] where it stands in a type spec, and
    the method with receiver [(r [g(x)]T)] keeps this receiver although
    [rewrite] changes it when called on it. The general rules say the same:
    the output of a value spec carries the type slot of the input, the
    output of a function declaration its receiver slot. *)
Theorem C4_valueSpec_type_and_receiver_copied :
  rewrite varF = Ok varF /\
  rewrite funcOfInt = Ok funcOfCtxInt /\
  rewrite typeF = Ok (Node (TypeSpec (Some (ident "F")) (Some funcOfCtxInt))) /\
  (exists out, rewrite methodM = Ok out /\
     exists name ty body, out = Node (FuncDecl (Some recvR) name ty body)) /\
  (exists recv', rewrite recvR = Ok recv' /\ recv' <> recvR) /\
  (forall names ty values out,
     rewrite (Node (ValueSpec names ty values)) = Ok out <->
     exists values', sliceRel (rewritesTo isExpr) values values' /\
                     out = Node (ValueSpec names ty values')) /\
  (forall recv name ty body out,
     rewrite (Node (FuncDecl recv name ty body)) = Ok out <->
     exists ty' body',
       rewritesTo isFuncType ty ty' /\ rewritesToOpt isBlockStmt body body' /\
       out = Node (FuncDecl recv name ty' body')).
Proof.
  split; [reflexivity|]. split; [reflexivity|]. split; [reflexivity|].
  split; [eexists; split; [reflexivity|eauto]|].
  split; [eexists; split; [reflexivity|discriminate]|].
  split; [exact rewrite_ValueSpec|exact rewrite_FuncDecl].
Qed.

(** C5. On a node whose type has no case in the switch, [rewrite] panics
    with that node and returns no tree; on pointers likewise, the panic
    carries the pointer. *)
Theorem C5_unknown_node_panics (s : nodeF node) :
  hasRule s = false ->
  rewrite (Node s) = Panic (UnknownNode (Some (Node s))) /\
  (forall out, rewrite (Node s) <> Ok out) /\
  (forall fuel (h : list (nodeF nat)) v sh,
     h !! v = Some sh -> kindOf sh = kindOf s ->
     Heap.rewrite (S fuel) v h = Heap.Panicked (UnknownNode (Some v))).
Proof.
  intros Hs. split; [by apply rewrite_no_rule|]. split.
  - intros out. by rewrite rewrite_no_rule.
  - intros fuel h v sh Hv Hk. simpl. unfold Heap.bind, Heap.hload. rewrite Hv.
    destruct s; try discriminate Hs; destruct sh; try discriminate Hk; done.
Qed.

Lemma C5_witness :
  rewrite (Node BadExpr) = Panic (UnknownNode (Some (Node BadExpr))) /\
  (forall out, rewrite (Node BadExpr) <> Ok out) /\
  (forall fuel (h : list (nodeF nat)) v sh,
     h !! v = Some sh -> kindOf sh = kindOf (@BadExpr node) ->
     Heap.rewrite (S fuel) v h = Heap.Panicked (UnknownNode (Some v))).
Proof. apply (C5_unknown_node_panics BadExpr). reflexivity. Defined.

(** C7. On a literal, an identifier, an import spec, a branch statement or
    an empty statement, [rewrite] returns the pointer it was given and
    leaves the store as it is (nothing is allocated); on trees it returns
    the tree it was given. *)
Theorem C7_leaf_returned_as_is fuel (h : list (nodeF nat)) v s t :
  h !! v = Some s -> isLeaf s = true -> Heap.content h v t ->
  Heap.rewrite (S fuel) v h = Heap.Done v h /\ rewrite t = Ok t.
Proof.
  intros Hv Hleaf [m Hm]. split.
  - simpl. unfold Heap.bind, Heap.hload. rewrite Hv.
    by destruct s; try discriminate Hleaf.
  - destruct m as [|m]; [done|].
    apply HeapFacts.tree_of_S in Hm as (s0 & s' & Hv' & Htr & ->).
    rewrite Hv in Hv'. injection Hv' as <-. apply rewrite_leaf.
    apply HeapFacts.traverseF_kindOf in Htr.
    destruct s; try discriminate Hleaf; destruct s'; try discriminate Htr; done.
Qed.

Lemma C7_witness :
  Heap.rewrite 1 1 store0 = Heap.Done 1 store0 /\ rewrite (ident "x") = Ok (ident "x").
Proof.
  apply (C7_leaf_returned_as_is 0 store0 1 (Ident "x") (ident "x")).
  - reflexivity.
  - reflexivity.
  - exists 1. reflexivity.
Defined.

(** C10. A function type gains the parameter wherever the traversal
    reaches it: as the type of a field (a method of an interface, a field
    of a struct), and as the type of a type spec. The fields of an
    interface's method list and of a struct's field list are rewritten one
    by one by the rule of fields. *)
Theorem C10_funcType_in_field_and_typeSpec :
  (forall names ps results tag out,
     rewrite (Node (Field names
       (Some (Node (FuncType (Some (Node (FieldList ps))) results))) tag)) = Ok out <->
     exists ps' results',
       Forall2 (rewritesTo isField) (elems ps) ps' /\
       rewritesToOpt isFieldList results results' /\
       out = Node (Field names (Some (Node (FuncType
               (Some (Node (FieldList (Some (Some ctxParam :: ps')))))
               results'))) tag)) /\
  (forall name ps results out,
     rewrite (Node (TypeSpec name
       (Some (Node (FuncType (Some (Node (FieldList ps))) results))))) = Ok out <->
     exists ps' results',
       Forall2 (rewritesTo isField) (elems ps) ps' /\
       rewritesToOpt isFieldList results results' /\
       out = Node (TypeSpec name (Some (Node (FuncType
               (Some (Node (FieldList (Some (Some ctxParam :: ps')))))
               results'))))) /\
  (forall methods incomplete out,
     rewrite (Node (InterfaceType (Some (Node (FieldList methods))) incomplete))
       = Ok out <->
     exists methods',
       sliceRel (rewritesTo isField) methods methods' /\
       out = Node (InterfaceType (Some (Node (FieldList methods'))) incomplete)) /\
  (forall fields incomplete out,
     rewrite (Node (StructType (Some (Node (FieldList fields))) incomplete))
       = Ok out <->
     exists fields',
       sliceRel (rewritesTo isField) fields fields' /\
       out = Node (StructType (Some (Node (FieldList fields'))) incomplete)).
Proof.
  split; [|split; [|split]].
  - intros names ps results tag out. rewrite rewrite_Field. split.
    + intros (ty' & (e & e' & [= <-] & -> & He & _) & ->).
      apply rewrite_FuncType in He as (ps' & results' & Hps & Hres & ->). eauto.
    + intros (ps' & results' & Hps & Hres & ->). eexists. split; [|done].
      eexists _, _. split; [done|]. split; [done|]. split; [|done].
      apply rewrite_FuncType. eauto.
  - intros name ps results out. rewrite rewrite_TypeSpec. split.
    + intros (ty' & (e & e' & [= <-] & -> & He & _) & ->).
      apply rewrite_FuncType in He as (ps' & results' & Hps & Hres & ->). eauto.
    + intros (ps' & results' & Hps & Hres & ->). eexists. split; [|done].
      eexists _, _. split; [done|]. split; [done|]. split; [|done].
      apply rewrite_FuncType. eauto.
  - intros methods incomplete out. rewrite rewrite_InterfaceType. split.
    + intros (m' & (e & e' & [= <-] & -> & He & _) & ->).
      apply rewrite_FieldList in He as (ms' & Hms & ->). eauto.
    + intros (ms' & Hms & ->). eexists. split; [|done].
      eexists _, _. split; [done|]. split; [done|]. split; [|done].
      apply rewrite_FieldList. eauto.
  - intros fields incomplete out. rewrite rewrite_StructType. split.
    + intros (m' & (e & e' & [= <-] & -> & He & _) & ->).
      apply rewrite_FieldList in He as (ms' & Hms & ->). eauto.
    + intros (ms' & Hms & ->). eexists. split; [|done].
      eexists _, _. split; [done|]. split; [done|]. split; [|done].
      apply rewrite_FieldList. eauto.
Qed.

Lemma C10_witness :
  rewrite ifaceM =
  Ok (Node (InterfaceType
        (Some (Node (FieldList (Some [Some (Node
           (Field (Some [Some (ident "M")]) (Some funcOfCtxInt) None))]))))
        false)).
Proof.
  apply (proj1 (proj2 (proj2 C10_funcType_in_field_and_typeSpec))).
  eexists. split; [|reflexivity]. simpl. repeat constructor.
  eexists _, _. split; [done|]. split; [done|]. split; [|done].
  apply (proj1 C10_funcType_in_field_and_typeSpec).
  exists [Some paramX], None. split; [|split; [by left|reflexivity]].
  repeat constructor. exists paramX, paramX. by vm_compute.
Defined.

(** C6. A run of [rewrite] on pointers that returns leaves every cell of
    the store it started from as it was (the new store extends the old
    one). If the input pointer held the tree [t], it still does; the result
    holds [Tree.rewrite t]; rewriting the same input again returns, and
    every such run again leaves the store in place and returns a pointer to
    an equal tree, while the first result still holds its tree. *)
Theorem C6_input_unchanged fuel (h : list (nodeF nat)) v v1 h1 :
  Heap.rewrite fuel v h = Heap.Done v1 h1 ->
  h `prefix_of` h1 /\
  forall t, Heap.content h v t ->
    Heap.content h1 v t /\
    exists t1, rewrite t = Ok t1 /\ Heap.content h1 v1 t1 /\
      (exists fuel2 v2 h2, Heap.rewrite fuel2 v h1 = Heap.Done v2 h2) /\
      (forall fuel2 v2 h2, Heap.rewrite fuel2 v h1 = Heap.Done v2 h2 ->
         h1 `prefix_of` h2 /\ Heap.content h2 v2 t1 /\ Heap.content h2 v1 t1).
Proof.
  intros Hrun. pose proof (HeapFacts.rewrite_frame _ _ _ _ _ Hrun) as Hpre.
  split; [done|]. intros t Ht.
  assert (Heap.content h1 v t) as Ht'.
  { destruct Ht as [m Hm]. exists m. by eapply HeapFacts.tree_of_prefix. }
  split; [done|].
  destruct (HeapFacts.rewrite_content _ _ _ _ _ _ Hrun Ht) as (t1 & Hrw & Hc1).
  exists t1. split; [done|]. split; [done|]. split.
  - by eapply HeapFacts.rewrite_returns.
  - intros fuel2 v2 h2 Hrun2.
    pose proof (HeapFacts.rewrite_frame _ _ _ _ _ Hrun2) as Hpre2. split; [done|].
    destruct (HeapFacts.rewrite_content _ _ _ _ _ _ Hrun2 Ht') as (t2 & Hrw2 & Hc2).
    assert (t2 = t1) as -> by congruence. split; [done|].
    destruct Hc1 as [m Hm]. exists m. by eapply HeapFacts.tree_of_prefix.
Qed.

Lemma C6_witness :
  store0 `prefix_of` store1 /\
  forall t, Heap.content store0 4 t ->
    Heap.content store1 4 t /\
    exists t1, rewrite t = Ok t1 /\ Heap.content store1 11 t1 /\
      (exists fuel2 v2 h2, Heap.rewrite fuel2 4 store1 = Heap.Done v2 h2) /\
      (forall fuel2 v2 h2, Heap.rewrite fuel2 4 store1 = Heap.Done v2 h2 ->
         store1 `prefix_of` h2 /\ Heap.content h2 v2 t1 /\ Heap.content h2 11 t1).
Proof. apply (C6_input_unchanged 3 store0 4 11 store1). reflexivity. Defined.

Import Driver.

(** C8. When [rewrite] panics on the parsed file, [ProcessFile] ends in
    that panic. Without [-w] nothing has been written. With [-w] the source
    file has already been truncated by [os.Create]: the panic leaves it
    empty. *)
Theorem C8_panic_leaves_source_empty
    (ParseFile : gmap string string -> string -> error + node)
    (CreateError : gmap string string -> string -> option error)
    (Fprint : node -> string * option error) filename w f p :
  ParseFile (files w) filename = inr f ->
  CreateError (files w) filename = None ->
  rewrite f = Panic p ->
  ProcessFile ParseFile CreateError Fprint filename false w = (Panics p, w) /\
  ProcessFile ParseFile CreateError Fprint filename true w
    = (Panics p, truncate filename w) /\
  files (truncate filename w) !! filename = Some EmptyString.
Proof.
  intros Hparse Hcreate Hrw. split; [|split].
  - unfold ProcessFile. by rewrite Hparse, Hrw.
  - by apply DriverFacts.ProcessFile_inplace_panic with (f := f).
  - unfold truncate. simpl. apply lookup_insert_eq.
Qed.

Lemma C8_witness :
  files world0 !! "strange.go" = Some "package p; var _ = 0" /\
  ProcessFile parseStub createStub printStub "strange.go" false world0
    = (Panics (UnknownNode (Some (Node BadDecl))), world0) /\
  ProcessFile parseStub createStub printStub "strange.go" true world0
    = (Panics (UnknownNode (Some (Node BadDecl))), truncate "strange.go" world0) /\
  files (truncate "strange.go" world0) !! "strange.go" = Some EmptyString.
Proof.
  split; [reflexivity|].
  apply (C8_panic_leaves_source_empty parseStub createStub printStub
           "strange.go" world0 strangeFile (UnknownNode (Some (Node BadDecl))));
    reflexivity.
Defined.

(** C9, as the specification words it, fails: with a first input that does
    not exist and a second that would be processed without error, [main]
    prints the error of the first and stops, where the driver that treats
    the inputs independently goes on to print the second. *)
Lemma C9_counterexample :
  ProcessFile parseStub createStub printStub "a.go" false world0
    = (Returns None, write_stdout "package p" world0) /\
  stdout (main parseStub createStub printStub false ["missing.go"; "a.go"] world0).2
    = "no such file" +:+ newline /\
  stdout (main_independent parseStub createStub printStub false
            ["missing.go"; "a.go"] world0).2
    = "no such file" +:+ newline +:+ "package p" /\
  main parseStub createStub printStub false ["missing.go"; "a.go"] world0
    <> main_independent parseStub createStub printStub false
         ["missing.go"; "a.go"] world0.
Proof.
  split; [reflexivity|]. split; [reflexivity|]. split; [reflexivity|].
  intros H. apply (f_equal (fun r => stdout r.2)) in H. vm_compute in H.
  discriminate H.
Qed.

(** C9, amended. The inputs are processed in order; the first input whose
    processing returns an error ends the run: after the inputs before it
    were processed without error, its error is printed and no later input
    is processed, whatever the later inputs are. *)
Theorem C9_first_error_ends_the_run
    (ParseFile : gmap string string -> string -> error + node)
    (CreateError : gmap string string -> string -> option error)
    (Fprint : node -> string * option error)
    inplace pre f post w w1 err w2 :
  all_succeed ParseFile CreateError Fprint inplace pre w w1 ->
  ProcessFile ParseFile CreateError Fprint f inplace w1
    = (Returns (Some err), w2) ->
  main ParseFile CreateError Fprint inplace (pre ++ f :: post) w
    = (Returns tt, println err w2).
Proof.
  intros Hpre Hf.
  rewrite (DriverFacts.main_app_succeed _ _ _ _ _ _ _ _ Hpre).
  by apply DriverFacts.main_stops_at_error.
Qed.

Lemma C9_witness :
  main parseStub createStub printStub false
    (["a.go"] ++ "missing.go" :: ["a.go"; "strange.go"]) world0
  = (Returns tt, println "no such file" (write_stdout "package p" world0)).
Proof.
  apply (C9_first_error_ends_the_run parseStub createStub printStub false
           ["a.go"] "missing.go" ["a.go"; "strange.go"] world0
           (write_stdout "package p" world0) "no such file"
           (write_stdout "package p" world0)).
  - exists (write_stdout "package p" world0). split; reflexivity.
  - reflexivity.
Defined.

(** * Facts about what the traversal reaches *)

Module TravFacts.
Import Tree TreeFacts Traversal.

(** Induction on trees, with the hypothesis for the children that
    [rewrite] visits. *)
Lemma node_ind_visited (P : node -> Prop) :
  (forall s, Forall P (visited s) -> P (Node s)) -> forall n, P n.
Proof.
  intros H. fix IH 1. intros [s]. apply H.
  assert (forall x : option node, Forall P (inSlot x)) as Hslot.
  { intros [e|]; simpl; constructor; [apply IH|constructor]. }
  assert (forall xs : slice node, Forall P (inSlice xs)) as Hslice.
  { intros [l|]; [|constructor]. unfold inSlice. simpl.
    induction l as [|[a|] l IHl]; simpl; [constructor| |exact IHl].
    constructor; [apply IH|exact IHl]. }
  destruct s; simpl; repeat apply Forall_app_2; auto.
Qed.

Lemma Reaches_trans t c n : Reaches t c -> Reaches c n -> Reaches t n.
Proof.
  induction 1 as [|s c' n' Hin _ IH]; [done|]. intros Hn.
  eapply reaches_child; [exact Hin|]. by apply IH.
Qed.

Lemma Reaches_child s c : c ∈ visited s -> Reaches (Node s) c.
Proof. intros Hin. eapply reaches_child; [exact Hin|constructor]. Qed.

Lemma byKind_isExpr : byKind isExpr.
Proof.
  intros s s' H.
  by rewrite (HeapFacts.isExpr_kindOf s), (HeapFacts.isExpr_kindOf s'), H.
Qed.
Lemma byKind_isStmt : byKind isStmt.
Proof.
  intros s s' H.
  by rewrite (HeapFacts.isStmt_kindOf s), (HeapFacts.isStmt_kindOf s'), H.
Qed.
Lemma byKind_isDecl : byKind isDecl.
Proof.
  intros s s' H.
  by rewrite (HeapFacts.isDecl_kindOf s), (HeapFacts.isDecl_kindOf s'), H.
Qed.
Lemma byKind_isSpec : byKind isSpec.
Proof.
  intros s s' H.
  by rewrite (HeapFacts.isSpec_kindOf s), (HeapFacts.isSpec_kindOf s'), H.
Qed.
Lemma byKind_isBlockStmt : byKind isBlockStmt.
Proof.
  intros s s' H.
  by rewrite (HeapFacts.isBlockStmt_kindOf s), (HeapFacts.isBlockStmt_kindOf s'), H.
Qed.
Lemma byKind_isCallExpr : byKind isCallExpr.
Proof.
  intros s s' H.
  by rewrite (HeapFacts.isCallExpr_kindOf s), (HeapFacts.isCallExpr_kindOf s'), H.
Qed.
Lemma byKind_isField : byKind isField.
Proof.
  intros s s' H.
  by rewrite (HeapFacts.isField_kindOf s), (HeapFacts.isField_kindOf s'), H.
Qed.
Lemma byKind_isFieldList : byKind isFieldList.
Proof.
  intros s s' H.
  by rewrite (HeapFacts.isFieldList_kindOf s), (HeapFacts.isFieldList_kindOf s'), H.
Qed.
Lemma byKind_isFuncType : byKind isFuncType.
Proof.
  intros s s' H.
  by rewrite (HeapFacts.isFuncType_kindOf s), (HeapFacts.isFuncType_kindOf s'), H.
Qed.

Ltac by_kind :=
  first [ exact byKind_isExpr | exact byKind_isStmt | exact byKind_isDecl
        | exact byKind_isSpec | exact byKind_isBlockStmt
        | exact byKind_isCallExpr | exact byKind_isField
        | exact byKind_isFieldList | exact byKind_isFuncType ].

(** *** When the helpers return *)

Lemma rewritesTo_present isT x x' :
  byKind isT -> rewritesTo isT x x' ->
  present isT x = true /\ Forall returnsOn (inSlot x).
Proof.
  intros HT (e & e' & -> & -> & He & Ht). simpl. split.
  - rewrite <- Ht. symmetry. apply HT. by apply rewrite_kind.
  - repeat constructor. by exists e'.
Qed.

Lemma rewritesToOpt_absentOr isT x x' :
  byKind isT -> rewritesToOpt isT x x' ->
  absentOr isT x = true /\ Forall returnsOn (inSlot x).
Proof.
  intros HT [[-> ->]|H]; [by split; [|constructor]|].
  destruct (rewritesTo_present _ _ _ HT H) as [Hp Hf]. split; [|done].
  by destruct x.
Qed.

Lemma Forall2_rewritesTo_each isT l l' :
  byKind isT -> Forall2 (rewritesTo isT) l l' ->
  forallb (present isT) l = true /\ Forall returnsOn (omap id l).
Proof.
  intros HT. induction 1 as [|x x' l l' Hx _ [IH1 IH2]]; [by split; [|constructor]|].
  destruct (rewritesTo_present _ _ _ HT Hx) as [Hp Hf]. simpl. rewrite Hp, IH1.
  split; [done|]. destruct Hx as (e & e' & -> & _). simpl. constructor; [|done].
  by inversion Hf.
Qed.

Lemma sliceRel_eachPresent isT xs xs' :
  byKind isT -> sliceRel (rewritesTo isT) xs xs' ->
  eachPresent isT xs = true /\ Forall returnsOn (inSlice xs).
Proof.
  intros HT H. apply sliceRel_elems in H.
  by apply Forall2_rewritesTo_each with (l' := elems xs').
Qed.

Lemma present_returns isT nilp x :
  byKind isT -> present isT x = true -> Forall returnsOn (inSlot x) ->
  exists x', rewriteReq mem rewrite isT nilp x = Ok x'.
Proof.
  intros HT Hp Hf. destruct x as [e|]; [|done]. simpl in *.
  inversion Hf as [|? ? [e' He] _]; subst. exists (Some e').
  apply rewriteReq_Ok. exists e, e'. split; [done|]. split; [done|].
  split; [done|]. rewrite <- Hp. apply HT. by apply rewrite_kind.
Qed.

Lemma absentOr_returns isT nilp x :
  byKind isT -> absentOr isT x = true -> Forall returnsOn (inSlot x) ->
  exists x', rewriteOpt mem rewrite isT nilp x = Ok x'.
Proof.
  intros HT Hp Hf. destruct x as [e|]; [|by exists None].
  by apply present_returns.
Qed.

Lemma each_returns isT nilp l :
  byKind isT -> forallb (present isT) l = true -> Forall returnsOn (omap id l) ->
  exists l', rewriteEach mem (rewriteReq mem rewrite isT nilp) l = Ok l'.
Proof.
  intros HT. induction l as [|x l IH]; intros Hp Hf; [by exists []|].
  simpl in Hp. apply andb_true_iff in Hp as [Hx Hl].
  destruct x as [e|]; [|done]. simpl in Hf. inversion Hf as [|? ? He Hf']; subst.
  destruct (present_returns isT nilp (Some e) HT Hx) as [x' Hx'].
  { by repeat constructor. }
  destruct (IH Hl Hf') as [l' Hl'].
  exists (x' :: l'). apply rewriteEach_Ok. constructor; [done|].
  by apply rewriteEach_Ok.
Qed.

Lemma eachPresent_returns isT nilp xs :
  byKind isT -> eachPresent isT xs = true -> Forall returnsOn (inSlice xs) ->
  exists xs', rewriteSlice mem (rewriteReq mem rewrite isT nilp) xs = Ok xs'.
Proof.
  intros HT Hp Hf. destruct xs as [l|]; [|by exists None].
  destruct (each_returns isT nilp l HT Hp Hf) as [l' Hl']. exists (Some l').
  unfold rewriteSlice. simpl. by rewrite Hl'.
Qed.

Lemma eachPresent_range_returns isT nilp xs :
  byKind isT -> eachPresent isT xs = true -> Forall returnsOn (inSlice xs) ->
  exists l', rewriteRange mem (rewriteReq mem rewrite isT nilp) xs = Ok l'.
Proof.
  intros HT Hp Hf. destruct xs as [l|]; [|by exists []].
  by apply each_returns.
Qed.

Lemma rewriteAs_present isT nilp x e' :
  byKind isT -> rewriteAs mem rewrite isT nilp x = Ok e' ->
  present isT x = true /\ Forall returnsOn (inSlot x).
Proof.
  intros HT H. apply (rewritesTo_present isT x (Some e') HT).
  apply rewriteAs_Ok in H as (e & -> & He & Ht). by exists e, e'.
Qed.

Lemma rewriteReq_present isT nilp x x' :
  byKind isT -> rewriteReq mem rewrite isT nilp x = Ok x' ->
  present isT x = true /\ Forall returnsOn (inSlot x).
Proof. intros HT H. apply rewriteReq_Ok in H. by eapply rewritesTo_present. Qed.

Lemma rewriteOpt_absentOr isT nilp x x' :
  byKind isT -> rewriteOpt mem rewrite isT nilp x = Ok x' ->
  absentOr isT x = true /\ Forall returnsOn (inSlot x).
Proof. intros HT H. apply rewriteOpt_Ok in H. by eapply rewritesToOpt_absentOr. Qed.

Lemma rewriteSlice_eachPresent isT nilp xs xs' :
  byKind isT ->
  rewriteSlice mem (rewriteReq mem rewrite isT nilp) xs = Ok xs' ->
  eachPresent isT xs = true /\ Forall returnsOn (inSlice xs).
Proof.
  intros HT H. apply rewriteSlice_Ok in H.
  apply (sliceRel_eachPresent isT xs xs' HT).
  eapply sliceRel_impl; [|exact H]. intros x x'. apply rewriteReq_Ok.
Qed.

Lemma rewriteRange_eachPresent isT nilp xs l' :
  byKind isT ->
  rewriteRange mem (rewriteReq mem rewrite isT nilp) xs = Ok l' ->
  eachPresent isT xs = true /\ Forall returnsOn (inSlice xs).
Proof.
  intros HT H. apply rewriteRange_Ok in H.
  apply (Forall2_rewritesTo_each isT (elems xs) l' HT).
  by apply Forall2_rewriteReq in H.
Qed.

Ltac unfold_helpers :=
  unfold rewriteExprs, rewriteStmts in *;
  unfold rewriteExpr, rewriteStmt, rewriteDecl, rewriteSpec, rewriteBlockStmt,
    rewriteCallExpr, rewriteField, rewriteFieldList, rewriteFuncType,
    rewriteExprOpt, rewriteStmtOpt, rewriteBlockStmtOpt, rewriteFieldListOpt
    in *;
  repeat match goal with
  | H : bind (rewriteAs mem rewrite ?isT ?np ?x) _ = ?r |- _ =>
      change (rewriteReq mem rewrite isT np x = r) in H
  | |- context [bind (rewriteAs mem rewrite ?isT ?np ?x) ?k] =>
      change (bind (rewriteAs mem rewrite isT np x) k)
        with (rewriteReq mem rewrite isT np x)
  end.

(** What each returned helper call says about its slot. *)
Ltac slot_facts :=
  repeat match goal with
  | H : rewriteReq mem rewrite _ _ _ = Ok _ |- _ =>
      apply rewriteReq_present in H as [? ?]; [|by_kind]
  | H : rewriteOpt mem rewrite _ _ _ = Ok _ |- _ =>
      apply rewriteOpt_absentOr in H as [? ?]; [|by_kind]
  | H : rewriteAs mem rewrite _ _ _ = Ok _ |- _ =>
      apply rewriteAs_present in H as [? ?]; [|by_kind]
  | H : rewriteSlice mem _ _ = Ok _ |- _ =>
      apply rewriteSlice_eachPresent in H as [? ?]; [|by_kind]
  | H : rewriteRange mem _ _ = Ok _ |- _ =>
      apply rewriteRange_eachPresent in H as [? ?]; [|by_kind]
  end.

(** [rewrite] returns on a node only if the node fits its case and
    [rewrite] returns on every child it visits. *)
Lemma rewrite_Ok_local s out :
  rewrite (Node s) = Ok out ->
  fitsCase s = true /\ Forall returnsOn (visited s).
Proof.
  intros H. destruct s; simpl in H; try discriminate H;
    try (split; [reflexivity|apply Forall_nil_2]; fail);
    bind_inv H; unfold_helpers; slot_facts; simpl;
    (split; [repeat (apply andb_true_iff; split); assumption
            |repeat apply Forall_app_2; assumption]).
Qed.

Ltac slot_returns :=
  repeat match goal with
  | |- context [rewriteReq mem rewrite ?isT ?np ?x] =>
      let H := fresh in
      destruct (present_returns isT np x) as [? H];
      [by_kind|assumption|assumption|]; rewrite H; simpl; unfold_helpers
  | |- context [rewriteOpt mem rewrite ?isT ?np ?x] =>
      let H := fresh in
      destruct (absentOr_returns isT np x) as [? H];
      [by_kind|assumption|assumption|]; rewrite H; simpl; unfold_helpers
  | |- context [rewriteSlice mem (rewriteReq mem rewrite ?isT ?np) ?x] =>
      let H := fresh in
      destruct (eachPresent_returns isT np x) as [? H];
      [by_kind|assumption|assumption|]; rewrite H; simpl; unfold_helpers
  | |- context [rewriteRange mem (rewriteReq mem rewrite ?isT ?np) ?x] =>
      let H := fresh in
      destruct (eachPresent_range_returns isT np x) as [? H];
      [by_kind|assumption|assumption|]; rewrite H; simpl; unfold_helpers
  end.

(** ... and if so, it returns. *)
Lemma rewrite_local_returns s :
  fitsCase s = true -> Forall returnsOn (visited s) -> returnsOn (Node s).
Proof.
  intros Hfit Hvis. unfold returnsOn.
  destruct s; simpl in Hfit, Hvis; try discriminate Hfit;
    try (by eexists);
    repeat match goal with
    | H : _ && _ = true |- _ => apply andb_true_iff in H as [? ?]
    | H : Forall _ (_ ++ _) |- _ => apply Forall_app in H as [? ?]
    end; simpl; unfold_helpers; slot_returns; try (by eexists).
  (* FuncType *)
  match goal with
  | Hp : present isFieldList ?x = true |- _ =>
      destruct x as [[p]|]; [|done]; simpl in Hp; destruct p; try discriminate Hp
  end.
  match goal with
  | H : Forall returnsOn (inSlot (Some ?n)) |- _ =>
      inversion H as [|? ? [p' Hp'] _]; subst;
      pose proof Hp' as Hfl; apply rewrite_FieldList in Hfl as (rs' & _ & ->)
  end.
  unfold rewriteAs. simpl rewrite in Hp'. simpl. 
  change (rewriteStep mem rewrite (Node (FieldList List)) (FieldList List))
    with (rewrite (Node (FieldList List))).
  rewrite Hp'. simpl. slot_returns. by eexists.
Qed.

Lemma fitsCase_hasRule (s : nodeF node) : fitsCase s = true -> hasRule s = true.
Proof. by destruct s. Qed.

(** [rewrite] returns exactly on the trees in which every node the
    traversal reaches fits its case. *)
Lemma returnsOn_iff t :
  returnsOn t <-> everywhere (fun n => fitsCase (struct_of n) = true) t.
Proof.
  split.
  - intros Ht n Hr. induction Hr as [[s]|s c n Hin Hr IH].
    + destruct Ht as [out H]. apply rewrite_Ok_local in H as [H _]. exact H.
    + apply IH. destruct Ht as [out H]. apply rewrite_Ok_local in H as [_ Hv].
      rewrite Forall_forall in Hv. by apply Hv.
  - induction t as [s IH] using node_ind_visited. intros Hfit.
    apply rewrite_local_returns.
    + apply (Hfit (Node s)). constructor.
    + rewrite Forall_forall in IH |- *. intros c Hc. apply IH; [done|].
      intros n Hn. apply Hfit. by eapply reaches_child.
Qed.

Lemma bind_Panic {A B} (m : result A) (k : A -> result B) p :
  bind m k = Panic p <-> m = Panic p \/ exists a, m = Ok a /\ k a = Panic p.
Proof.
  destruct m as [a|q]; simpl; split.
  - intros H. right. by exists a.
  - intros [H|(a' & H1 & H2)]; [discriminate H|].
    injection H1 as ->. exact H2.
  - intros [= ->]. by left.
  - intros [[= ->]|(a' & H1 & _)]; [done|discriminate H1].
Qed.

Lemma rewriteAs_unknown isT nilp x n :
  nilp <> UnknownNode (Some n) ->
  rewriteAs mem rewrite isT nilp x = Panic (UnknownNode (Some n)) ->
  panicsIn (UnknownNode (Some n)) (inSlot x).
Proof.
  intros Hnp. unfold rewriteAs. destruct x as [e|]; simpl.
  - intros H. apply bind_Panic in H as [H|(e' & _ & H)].
    + exists e. split; [by apply list_elem_of_singleton|done].
    + by destruct (isT (struct_of e')).
  - intros [= H]. by destruct Hnp.
Qed.

Lemma rewriteReq_unknown isT nilp x n :
  nilp <> UnknownNode (Some n) ->
  rewriteReq mem rewrite isT nilp x = Panic (UnknownNode (Some n)) ->
  panicsIn (UnknownNode (Some n)) (inSlot x).
Proof.
  intros Hnp H. unfold rewriteReq in H. simpl in H.
  apply bind_Panic in H as [H|(e' & _ & [=])]. by eapply rewriteAs_unknown.
Qed.

Lemma rewriteOpt_unknown isT nilp x n :
  nilp <> UnknownNode (Some n) ->
  rewriteOpt mem rewrite isT nilp x = Panic (UnknownNode (Some n)) ->
  panicsIn (UnknownNode (Some n)) (inSlot x).
Proof.
  intros Hnp. unfold rewriteOpt. destruct x as [e|]; [|done].
  by apply rewriteReq_unknown.
Qed.

Lemma rewriteEach_unknown isT nilp l n :
  nilp <> UnknownNode (Some n) ->
  rewriteEach mem (rewriteReq mem rewrite isT nilp) l
    = Panic (UnknownNode (Some n)) ->
  panicsIn (UnknownNode (Some n)) (omap id l).
Proof.
  intros Hnp. induction l as [|x l IH]; [done|].
  change (rewriteEach mem (rewriteReq mem rewrite isT nilp) (x :: l))
    with (bind (rewriteReq mem rewrite isT nilp x)
            (fun x' => bind (rewriteEach mem (rewriteReq mem rewrite isT nilp) l)
                         (fun xs'' => Ok (x' :: xs'')))).
  intros H. apply bind_Panic in H as [H|(x' & _ & H)].
  - destruct (rewriteReq_unknown _ _ _ _ Hnp H) as (c & Hc & Hp).
    exists c. split; [|done]. destruct x as [e|]; [|by inversion Hc].
    simpl in *. apply list_elem_of_singleton in Hc as ->. by left.
  - apply bind_Panic in H as [H|(l' & _ & [=])].
    destruct (IH H) as (c & Hc & Hp). exists c. split; [|done].
    destruct x; simpl; [by right|done].
Qed.

Lemma rewriteSlice_unknown isT nilp xs n :
  nilp <> UnknownNode (Some n) ->
  rewriteSlice mem (rewriteReq mem rewrite isT nilp) xs
    = Panic (UnknownNode (Some n)) ->
  panicsIn (UnknownNode (Some n)) (inSlice xs).
Proof.
  intros Hnp. unfold rewriteSlice. destruct xs as [l|]; [|done]. simpl.
  intros H. apply bind_Panic in H as [H|(l' & _ & [=])].
  by eapply rewriteEach_unknown.
Qed.

Lemma rewriteRange_unknown isT nilp xs n :
  nilp <> UnknownNode (Some n) ->
  rewriteRange mem (rewriteReq mem rewrite isT nilp) xs
    = Panic (UnknownNode (Some n)) ->
  panicsIn (UnknownNode (Some n)) (inSlice xs).
Proof.
  intros Hnp. unfold rewriteRange. destruct xs as [l|]; [|done].
  by apply rewriteEach_unknown.
Qed.

Ltac panic_inv H :=
  repeat match type of H with
         | bind _ _ = Panic _ =>
             apply bind_Panic in H as [H|(? & ? & H)]
         end.

Ltac panic_leaf H :=
  first
    [ apply rewriteReq_unknown in H; [|discriminate]
    | apply rewriteOpt_unknown in H; [|discriminate]
    | apply rewriteAs_unknown in H; [|discriminate]
    | apply rewriteSlice_unknown in H; [|discriminate]
    | apply rewriteRange_unknown in H; [|discriminate] ].

(** A panic that carries a node comes from [default] on this node or from
    a child the case visits. *)
Lemma rewrite_unknown_local s n :
  rewrite (Node s) = Panic (UnknownNode (Some n)) ->
  (n = Node s /\ hasRule s = false) \/
  panicsIn (UnknownNode (Some n)) (visited s).
Proof.
  intros H. destruct s; simpl in H; try discriminate H;
    try (left; split; [congruence|reflexivity]);
    right; panic_inv H; unfold_helpers.
  all: try discriminate H.
  all: try (panic_leaf H; destruct H as (c & Hc & Hp); exists c;
            split; [simpl; set_solver|done]).
  by destruct (struct_of x).
Qed.

(** A panic that carries a node carries a node the traversal reached, and
    one whose type has no case. *)
Lemma rewrite_unknown_reached t n :
  rewrite t = Panic (UnknownNode (Some n)) ->
  Reaches t n /\ hasRule (struct_of n) = false.
Proof.
  induction t as [s IH] using node_ind_visited. intros H.
  apply rewrite_unknown_local in H as [[-> Hs]|(c & Hc & Hp)].
  - split; [constructor|done].
  - rewrite Forall_forall in IH. destruct (IH c Hc Hp) as [Hr Hn].
    split; [by eapply reaches_child|done].
Qed.

(** A node without a case anywhere the traversal reaches makes the whole
    rewrite panic. *)
Lemma rewrite_aborts t n :
  Reaches t n -> hasRule (struct_of n) = false -> exists p, rewrite t = Panic p.
Proof.
  intros Hr Hn. destruct (rewrite t) as [out|p] eqn:Ht; [|by exists p].
  assert (returnsOn t) as Hret by (by exists out).
  pose proof (proj1 (returnsOn_iff t) Hret n Hr) as Hfit.
  apply fitsCase_hasRule in Hfit. congruence.
Qed.
(** The relation of the slices, index by index. *)
Lemma sliceRel_mapsEach isT xs xs' :
  sliceRel (rewritesTo isT) xs xs' <-> mapsEach isT xs xs'.
Proof.
  unfold sliceRel, mapsEach. destruct xs as [l|], xs' as [l'|]; simpl.
  - split.
    + intros H. split; [done|]. split; [symmetry; by eapply Forall2_length|].
      intros i x' Hi. destruct (Forall2_lookup_r _ _ _ _ _ H Hi) as (x & Hx & HR).
      by exists x.
    + intros (_ & Hlen & Hl). apply Forall2_same_length_lookup_2; [done|].
      intros i x x' Hx Hx'. destruct (Hl i x' Hx') as (x0 & Hx0 & HR).
      rewrite Hx in Hx0. by injection Hx0 as <-.
  - split; [done|]. intros ([_ H] & _). by specialize (H eq_refl).
  - split; [done|]. intros ([H _] & _). by specialize (H eq_refl).
  - split; [|done]. intros _. split; [done|]. split; [done|].
    intros i x' Hi. by rewrite lookup_nil in Hi.
Qed.

Lemma rewriteSlice_mapsEach isT np xs xs' :
  rewriteSlice mem (rewriteReq mem rewrite isT np) xs = Ok xs' <->
  mapsEach isT xs xs'.
Proof.
  rewrite rewriteSlice_Ok, <- sliceRel_mapsEach.
  split; intros H; (eapply sliceRel_impl; [|exact H]); intros x x';
    apply rewriteReq_Ok.
Qed.
End TravFacts.

Module ShapeFacts.
Import Tree TreeFacts Traversal TravFacts.

Lemma shape_rewritesTo isT (x x' : option node) :
  rewritesTo isT x x' ->
  Heap.travOpt (fun _ => Some tt) x' = Heap.travOpt (fun _ => Some tt) x.
Proof. by intros (e & e' & -> & -> & _). Qed.

Lemma shape_rewritesToOpt isT (x x' : option node) :
  rewritesToOpt isT x x' ->
  Heap.travOpt (fun _ => Some tt) x' = Heap.travOpt (fun _ => Some tt) x.
Proof. intros [[-> ->]|H]; [done|by eapply shape_rewritesTo]. Qed.

Lemma mapM_cons_unfold {A B} (f : A -> option B) a k :
  mapM f (a :: k) = (y ← f a; ys ← mapM f k; Some (y :: ys)).
Proof. reflexivity. Qed.

Lemma shape_Forall2 isT (l l' : list (option node)) :
  Forall2 (rewritesTo isT) l l' ->
  mapM (Heap.travOpt (fun _ => Some tt)) l'
  = mapM (Heap.travOpt (fun _ => Some tt)) l.
Proof.
  induction 1 as [|x x' l l' Hx _ IH]; [done|].
  rewrite !(mapM_cons_unfold). by rewrite (shape_rewritesTo _ _ _ Hx), IH.
Qed.

Lemma shape_sliceRel isT (xs xs' : slice node) :
  sliceRel (rewritesTo isT) xs xs' ->
  Heap.travSlice (fun _ => Some tt) xs' = Heap.travSlice (fun _ => Some tt) xs.
Proof.
  destruct xs as [l|], xs' as [l'|]; simpl; try done.
  intros H. by rewrite (shape_Forall2 _ _ _ H).
Qed.

Lemma shape_rewriteReq isT nilp x x' :
  rewriteReq mem rewrite isT nilp x = Ok x' ->
  Heap.travOpt (fun _ => Some tt) x' = Heap.travOpt (fun _ => Some tt) x.
Proof. intros H. apply rewriteReq_Ok in H. by eapply shape_rewritesTo. Qed.

Lemma shape_rewriteOpt isT nilp x x' :
  rewriteOpt mem rewrite isT nilp x = Ok x' ->
  Heap.travOpt (fun _ => Some tt) x' = Heap.travOpt (fun _ => Some tt) x.
Proof. intros H. apply rewriteOpt_Ok in H. by eapply shape_rewritesToOpt. Qed.

Lemma shape_rewriteSlice isT nilp xs xs' :
  rewriteSlice mem (rewriteReq mem rewrite isT nilp) xs = Ok xs' ->
  Heap.travSlice (fun _ => Some tt) xs' = Heap.travSlice (fun _ => Some tt) xs.
Proof.
  intros H. apply rewriteSlice_Ok in H. apply (shape_sliceRel isT).
  eapply sliceRel_impl; [|exact H]. intros x x'. apply rewriteReq_Ok.
Qed.

Ltac shape_facts :=
  repeat match goal with
  | H : rewriteReq mem rewrite _ _ _ = Ok _ |- _ => apply shape_rewriteReq in H
  | H : rewriteOpt mem rewrite _ _ _ = Ok _ |- _ => apply shape_rewriteOpt in H
  | H : rewriteSlice mem _ _ = Ok _ |- _ => apply shape_rewriteSlice in H
  end.

(** Apart from the arguments of a call and the declarations of a file, a
    rewritten struct has the shape of the struct it was copied from. *)
Lemma rewrite_shape s s' :
  rewrite (Node s) = Ok (Node s') ->
  isCallExpr s = false -> isFile s = false -> shapeOf s' = shapeOf s.
Proof.
  intros H Hc Hf. destruct s; simpl in H; try discriminate;
    try (by injection H as <-);
    bind_inv H; injection H as <-; unfold_helpers.
  all: try (shape_facts; unfold shapeOf; simpl;
            repeat match goal with
            | H : _ = _ |- _ => rewrite H; clear H
            end; done).
  (* FuncType *)
  apply rewriteAs_Ok in Ha as (e & -> & He & Hfl).
  destruct (struct_of a) eqn:Ha; try discriminate. injection Ha0 as <-.
  shape_facts. unfold shapeOf. simpl. by rewrite Ha1.
Qed.
End ShapeFacts.

Module OutputFacts.
Import Tree TreeFacts Traversal TravFacts.

Lemma everywhere_node (P : node -> Prop) s :
  P (Node s) -> Forall (everywhere P) (visited s) -> everywhere P (Node s).
Proof.
  intros Htop Hvis n Hn. inversion Hn as [|s0 c n0 Hin Hc]; subst; [done|].
  rewrite Forall_forall in Hvis. by apply (Hvis c).
Qed.

Lemma everywhere_children (P : node -> Prop) s :
  everywhere P (Node s) -> Forall (everywhere P) (visited s).
Proof.
  intros H. apply Forall_forall. intros c Hc n Hn. apply H.
  by eapply reaches_child.
Qed.

Lemma everywhere_leaf (P : node -> Prop) s :
  visited s = [] -> P (Node s) -> everywhere P (Node s).
Proof. intros Hv Htop. apply everywhere_node; [done|]. rewrite Hv. constructor. Qed.

Lemma carriesCtx_ctxIdent : everywhere carriesCtx ctxIdent.
Proof. by apply everywhere_leaf. Qed.

Lemma carriesCtx_ctxParam : everywhere carriesCtx ctxParam.
Proof.
  apply everywhere_node; [done|]. repeat constructor.
  apply everywhere_node; [done|]. repeat constructor.
  by apply everywhere_leaf.
Qed.

Lemma carriesCtx_contextImport : everywhere carriesCtx contextImport.
Proof.
  apply everywhere_node; [done|]. repeat constructor.
  by apply everywhere_leaf.
Qed.

Lemma yields_rewritesTo Q isT x x' :
  rewritesTo isT x x' -> Forall (yields Q) (inSlot x) -> Forall Q (inSlot x').
Proof.
  intros (e & e' & -> & -> & He & _) HP. inversion HP as [|? ? Hy _]; subst.
  repeat constructor. by apply Hy.
Qed.

Lemma yields_rewritesToOpt Q isT x x' :
  rewritesToOpt isT x x' -> Forall (yields Q) (inSlot x) -> Forall Q (inSlot x').
Proof. intros [[-> ->]|H]; [constructor|]. by eapply yields_rewritesTo. Qed.

Lemma yields_Forall2 Q isT l l' :
  Forall2 (rewritesTo isT) l l' -> Forall (yields Q) (omap id l) ->
  Forall Q (omap id l').
Proof.
  induction 1 as [|x x' l l' Hx _ IH]; [constructor|].
  destruct Hx as (e & e' & -> & -> & He & _). simpl. intros HP.
  inversion HP as [|? ? Hy HP']; subst. constructor; [by apply Hy|by apply IH].
Qed.

Lemma yields_sliceRel Q isT xs xs' :
  sliceRel (rewritesTo isT) xs xs' -> Forall (yields Q) (inSlice xs) ->
  Forall Q (inSlice xs').
Proof.
  intros H. apply sliceRel_elems in H.
  by apply yields_Forall2 with (isT := isT).
Qed.

Lemma yields_rewriteReq Q isT np x x' :
  rewriteReq mem rewrite isT np x = Ok x' ->
  Forall (yields Q) (inSlot x) -> Forall Q (inSlot x').
Proof. intros H. apply rewriteReq_Ok in H. by eapply yields_rewritesTo. Qed.

Lemma yields_rewriteOpt Q isT np x x' :
  rewriteOpt mem rewrite isT np x = Ok x' ->
  Forall (yields Q) (inSlot x) -> Forall Q (inSlot x').
Proof. intros H. apply rewriteOpt_Ok in H. by eapply yields_rewritesToOpt. Qed.

Lemma yields_rewriteSlice Q isT np xs xs' :
  rewriteSlice mem (rewriteReq mem rewrite isT np) xs = Ok xs' ->
  Forall (yields Q) (inSlice xs) -> Forall Q (inSlice xs').
Proof.
  intros H. apply rewriteSlice_Ok in H. apply (yields_sliceRel Q isT).
  eapply sliceRel_impl; [|exact H]. intros x x'. apply rewriteReq_Ok.
Qed.

Ltac yield_facts :=
  repeat match goal with
  | H : rewriteReq mem rewrite _ _ ?x = Ok _,
    HP : Forall (yields _) (inSlot ?x) |- _ =>
      apply (fun H => yields_rewriteReq _ _ _ _ _ H HP) in H
  | H : rewriteOpt mem rewrite _ _ ?x = Ok _,
    HP : Forall (yields _) (inSlot ?x) |- _ =>
      apply (fun H => yields_rewriteOpt _ _ _ _ _ H HP) in H
  | H : rewriteSlice mem _ ?x = Ok _,
    HP : Forall (yields _) (inSlice ?x) |- _ =>
      apply (fun H => yields_rewriteSlice _ _ _ _ _ H HP) in H
  end.

(** In what [rewrite] returns, every call and every function type that
    the traversal would reach carries the context. *)
Lemma rewrite_carriesCtx t : yields (everywhere carriesCtx) t.
Proof.
  revert t. apply (node_ind_visited (yields (everywhere carriesCtx))).
  intros s IH out H.
  destruct s;
    try (simpl in H; injection H as <-; by apply everywhere_leaf);
    try (simpl in H; discriminate H).
  all: try (simpl in H, IH; bind_inv H; unfold_helpers;
            repeat match goal with
            | H : Forall _ (_ ++ _) |- _ => apply Forall_app in H as [? ?]
            end;
            yield_facts; injection H as <-;
            apply everywhere_node; [exact I|]; simpl;
            repeat apply Forall_app_2; assumption).
  - (* CallExpr *)
    apply rewrite_CallExpr in H as (fn' & args' & Hfn & Hargs & ->).
    simpl in IH. apply Forall_app in IH as [IHfn IHargs].
    apply everywhere_node; [by eexists|]. simpl. apply Forall_app_2.
    + by eapply yields_rewritesTo.
    + unfold inSlice. simpl. constructor; [apply carriesCtx_ctxIdent|].
      by eapply yields_Forall2.
  - (* File *)
    apply rewrite_File in H as (decls' & Hdecls & ->). simpl in IH.
    apply everywhere_node; [done|]. unfold visited, inSlice. simpl.
    constructor; [apply carriesCtx_contextImport|].
    by eapply yields_Forall2.
  - (* FuncType *)
    pose proof H as Hfit. apply rewrite_Ok_local in Hfit as [Hfit _].
    simpl in Hfit. apply andb_true_iff in Hfit as [Hp _].
    destruct Params as [p|]; [|done]. simpl in Hp.
    apply isFieldList_inv in Hp as [ps ->].
    apply rewrite_FuncType in H as (ps' & results' & Hps & Hres & ->).
    simpl in IH. inversion IH as [|? ? IHp IHres]; subst.
    apply everywhere_node; [by eexists|]. simpl. constructor.
    + apply everywhere_node; [done|]. unfold visited, inSlice. simpl.
      constructor; [apply carriesCtx_ctxParam|].
      destruct ps as [l|]; simpl in Hps; [|inversion Hps; constructor].
      apply (everywhere_children carriesCtx (FieldList (Some ps'))).
      apply IHp. apply rewrite_FieldList. by exists (Some ps').
    + by eapply yields_rewritesToOpt.
Qed.
End OutputFacts.

Module AssertFacts.
Import Tree TreeFacts Traversal TravFacts.

Lemma rewriteAs_assert isT nilp x :
  nilp <> TypeAssertion -> byKind isT -> absentOr isT x = true ->
  rewriteAs mem rewrite isT nilp x = Panic TypeAssertion ->
  panicsIn TypeAssertion (inSlot x).
Proof.
  intros Hnp HT Hx. unfold rewriteAs. destruct x as [e|]; simpl.
  - intros H. apply bind_Panic in H as [H|(e' & He & H)].
    + exists e. split; [by apply list_elem_of_singleton|done].
    + simpl in Hx. rewrite (HT _ _ (rewrite_kind _ _ He)), Hx in H. done.
  - intros [= H]. by destruct Hnp.
Qed.

Lemma rewriteReq_assert isT nilp x :
  nilp <> TypeAssertion -> byKind isT -> absentOr isT x = true ->
  rewriteReq mem rewrite isT nilp x = Panic TypeAssertion ->
  panicsIn TypeAssertion (inSlot x).
Proof.
  intros Hnp HT Hx H. unfold rewriteReq in H. simpl in H.
  apply bind_Panic in H as [H|(e' & _ & [=])]. by eapply rewriteAs_assert.
Qed.

Lemma rewriteOpt_assert isT nilp x :
  nilp <> TypeAssertion -> byKind isT -> absentOr isT x = true ->
  rewriteOpt mem rewrite isT nilp x = Panic TypeAssertion ->
  panicsIn TypeAssertion (inSlot x).
Proof.
  intros Hnp HT Hx. unfold rewriteOpt. destruct x as [e|]; [|done].
  by apply rewriteReq_assert.
Qed.

Lemma rewriteEach_assert isT nilp l :
  nilp <> TypeAssertion -> byKind isT -> forallb (absentOr isT) l = true ->
  rewriteEach mem (rewriteReq mem rewrite isT nilp) l = Panic TypeAssertion ->
  panicsIn TypeAssertion (omap id l).
Proof.
  intros Hnp HT. induction l as [|x l IH]; [done|]. simpl. intros Hl.
  apply andb_true_iff in Hl as [Hx Hl].
  change (rewriteEach mem (rewriteReq mem rewrite isT nilp) (x :: l))
    with (bind (rewriteReq mem rewrite isT nilp x)
            (fun x' => bind (rewriteEach mem (rewriteReq mem rewrite isT nilp) l)
                         (fun xs'' => Ok (x' :: xs'')))).
  intros H. apply bind_Panic in H as [H|(x' & _ & H)].
  - destruct (rewriteReq_assert _ _ _ Hnp HT Hx H) as (c & Hc & Hp).
    exists c. split; [|done]. destruct x as [e|]; [|by inversion Hc].
    simpl in *. apply list_elem_of_singleton in Hc as ->. by left.
  - apply bind_Panic in H as [H|(l' & _ & [=])].
    destruct (IH Hl H) as (c & Hc & Hp). exists c. split; [|done].
    destruct x; simpl; [by right|done].
Qed.

Lemma rewriteSlice_assert isT nilp xs :
  nilp <> TypeAssertion -> byKind isT -> each absentOr isT xs = true ->
  rewriteSlice mem (rewriteReq mem rewrite isT nilp) xs = Panic TypeAssertion ->
  panicsIn TypeAssertion (inSlice xs).
Proof.
  intros Hnp HT Hxs. unfold rewriteSlice. destruct xs as [l|]; [|done]. simpl.
  intros H. apply bind_Panic in H as [H|(l' & _ & [=])].
  by eapply rewriteEach_assert.
Qed.

Lemma rewriteRange_assert isT nilp xs :
  nilp <> TypeAssertion -> byKind isT -> each absentOr isT xs = true ->
  rewriteRange mem (rewriteReq mem rewrite isT nilp) xs = Panic TypeAssertion ->
  panicsIn TypeAssertion (inSlice xs).
Proof.
  intros Hnp HT Hxs. unfold rewriteRange. destruct xs as [l|]; [|done].
  by apply rewriteEach_assert.
Qed.

Ltac assert_leaf H :=
  first
    [ apply rewriteReq_assert in H; [|discriminate|by_kind|assumption]
    | apply rewriteOpt_assert in H; [|discriminate|by_kind|assumption]
    | apply rewriteAs_assert in H; [|discriminate|by_kind|assumption]
    | apply rewriteSlice_assert in H; [|discriminate|by_kind|assumption]
    | apply rewriteRange_assert in H; [|discriminate|by_kind|assumption] ].

(** On a struct whose slots are well typed, a failed type assertion comes
    from a child. *)
Lemma rewrite_assert_local s :
  wellTyped s = true -> rewrite (Node s) = Panic TypeAssertion ->
  panicsIn TypeAssertion (visited s).
Proof.
  intros Hty H. destruct s; simpl in H; try discriminate H;
    unfold wellTyped in Hty; simpl in Hty;
    repeat match goal with
    | H : _ && _ = true |- _ => apply andb_true_iff in H as [? ?]
    end;
    panic_inv H; unfold_helpers.
  all: try discriminate H.
  all: try (assert_leaf H; destruct H as (c & Hc & Hp); exists c;
            split; [simpl; set_solver|done]).
  match goal with
  | Hx : rewriteAs _ _ isFieldList _ _ = Ok ?x |- _ =>
      apply rewriteAs_Ok in Hx as (? & _ & _ & Hx);
      destruct (struct_of x); done
  end.
Qed.

(** On a tree whose nodes are well typed wherever the traversal reaches,
    no type assertion of [rewrite] fails. *)
Lemma rewrite_asserts_hold t :
  everywhere (fun n => wellTyped (struct_of n) = true) t ->
  rewrite t <> Panic TypeAssertion.
Proof.
  induction t as [s IH] using node_ind_visited. intros Hty H.
  apply rewrite_assert_local in H as (c & Hc & Hp).
  - rewrite Forall_forall in IH. apply (IH c Hc); [|done].
    intros n Hn. apply Hty. by eapply reaches_child.
  - apply (Hty (Node s)). constructor.
Qed.
End AssertFacts.

Module MoreHeapFacts.
Import Heap Logic HeapFacts.

(** On a node that is not a leaf, a run that returns returns a pointer
    that the store it started from did not hold. *)
Lemma rewrite_fresh fuel (h : list (nodeF nat)) v s v1 h1 :
  h !! v = Some s -> isLeaf s = false ->
  rewrite fuel v h = Done v1 h1 ->
  length h <= v1 /\ v1 <> v.
Proof.
  intros Hv Hleaf Hrun. destruct fuel as [|fuel]; [done|].
  simpl in Hrun. unfold bind, hload in Hrun. rewrite Hv in Hrun.
  destruct (keeps_rewriteStep (length h) (rewrite fuel)
              (rewrite_keeps (length h) fuel) v s Hleaf h v1 h1
              ltac:(done) Hrun) as (_ & _ & Hfresh).
  split; [done|]. apply lookup_lt_Some in Hv. lia.
Qed.

(** On a store that holds a finite tree below [v], the run ends, with
    enough fuel, as the tree function does: it returns a pointer to the
    rewritten tree, or it panics. *)
Lemma rewrite_terminates (h : list (nodeF nat)) v t :
  content h v t ->
  exists fuel, forall fuel', fuel <= fuel' ->
    match Tree.rewrite t with
    | Tree.Ok t1 =>
        exists v1 h1, rewrite fuel' v h = Done v1 h1 /\ content h1 v1 t1
    | Tree.Panic _ => exists p, rewrite fuel' v h = Panicked p
    end.
Proof.
  intros [m Hm]. exists m. intros fuel' Hle.
  pose proof (rewrite_refines m h v t Hm) as Href. unfold refines in Href.
  destruct (Tree.rewrite t) as [t1|p].
  - destruct Href as (v1 & h1 & Hrun & _ & Ht1). exists v1, h1.
    split; [|by apply has_tree_content].
    rewrite (rewrite_fuel_mono m fuel' v h Hle); [done|by rewrite Hrun].
  - destruct Href as (p' & Hrun). exists p'.
    rewrite (rewrite_fuel_mono m fuel' v h Hle); [done|by rewrite Hrun].
Qed.
End MoreHeapFacts.

Module MoreDriverFacts.
Import Tree Driver Source.

Lemma string_app_nil_r (s : string) : s +:+ EmptyString = s.
Proof.
  induction s as [|c s IH]; [done|].
  change (String c (s +:+ EmptyString) = String c s). by rewrite IH.
Qed.

Lemma string_app_assoc (s1 s2 s3 : string) :
  (s1 +:+ s2) +:+ s3 = s1 +:+ (s2 +:+ s3).
Proof.
  induction s1 as [|c s1 IH]; [done|].
  change (String c ((s1 +:+ s2) +:+ s3) = String c (s1 +:+ (s2 +:+ s3))).
  by rewrite IH.
Qed.

Lemma write_stdout_empty w : write_stdout EmptyString w = w.
Proof.
  destruct w as [fs out]. unfold write_stdout. simpl.
  by rewrite string_app_nil_r.
Qed.

Section Loop.
Variable ParseFile : gmap string string -> string -> error + node.
Variable CreateError : gmap string string -> string -> option error.
Variable Fprint : node -> string * option error.

Local Abbreviation ProcessFile := (ProcessFile ParseFile CreateError Fprint).
Local Abbreviation main := (main ParseFile CreateError Fprint).
Local Abbreviation all_succeed := (all_succeed ParseFile CreateError Fprint).

(** What one call of [ProcessFile] can change. *)
Lemma ProcessFile_frame filename inplace w r w' :
  ProcessFile filename inplace w = (r, w') ->
  (exists text, stdout w' = stdout w +:+ text) /\
  (inplace = false -> files w' = files w) /\
  (inplace = true ->
     stdout w' = stdout w /\
     forall other, other <> filename -> files w' !! other = files w !! other).
Proof.
  unfold Driver.ProcessFile.
  destruct (ParseFile (files w) filename) as [err|f].
  { intros [= <- <-]. split; [exists EmptyString; by rewrite string_app_nil_r|].
    by split. }
  destruct inplace.
  - destruct (CreateError (files w) filename) as [err|].
    { intros [= <- <-]. split; [exists EmptyString; by rewrite string_app_nil_r|].
      by split. }
    destruct (rewrite f) as [f'|p].
    + destruct (Fprint f') as [text err]. intros [= <- <-]. simpl.
      split; [exists EmptyString; by rewrite string_app_nil_r|].
      split; [done|]. intros _. split; [done|]. intros other Hne.
      by rewrite !lookup_insert_ne.
    + intros [= <- <-]. simpl.
      split; [exists EmptyString; by rewrite string_app_nil_r|].
      split; [done|]. intros _. split; [done|]. intros other Hne.
      by rewrite lookup_insert_ne.
  - destruct (rewrite f) as [f'|p].
    + destruct (Fprint f') as [text err]. intros [= <- <-]. simpl.
      split; [by exists text|]. by split.
    + intros [= <- <-].
      split; [exists EmptyString; by rewrite string_app_nil_r|]. by split.
Qed.

(** What a run of [main] can change. *)
Lemma main_frame inplace args w r w' :
  main inplace args w = (r, w') ->
  (exists text, stdout w' = stdout w +:+ text) /\
  (inplace = false -> files w' = files w) /\
  (inplace = true ->
     (stdout w' = stdout w \/
      exists err, stdout w' = stdout w +:+ (err +:+ newline)) /\
     forall other, other ∉ args -> files w' !! other = files w !! other).
Proof.
  revert w. induction args as [|f args IH]; intros w; simpl.
  { intros [= <- <-]. split; [exists EmptyString; by rewrite string_app_nil_r|].
    split; [done|]. intros _. split; [by left|done]. }
  destruct (ProcessFile f inplace w) as [[[err|]|p] w1] eqn:Hf;
    destruct (ProcessFile_frame _ _ _ _ _ Hf) as ([t1 Ht1] & Hfiles & Hin).
  - intros [= <- <-]. simpl. split.
    { exists (t1 +:+ (err +:+ newline)). by rewrite Ht1, string_app_assoc. }
    split; [done|]. intros ->. destruct (Hin eq_refl) as [Hout Hoth]. split.
    { right. exists err. by rewrite Hout. }
    intros other Hother. apply Hoth. intros ->. apply Hother. by left.
  - intros Hrest. destruct (IH _ Hrest) as ([t2 Ht2] & Hfiles2 & Hin2).
    split. { exists (t1 +:+ t2). by rewrite Ht2, Ht1, string_app_assoc. }
    split. { intros Hi. by rewrite (Hfiles2 Hi), (Hfiles Hi). }
    intros ->. destruct (Hin eq_refl) as [Hout Hoth].
    destruct (Hin2 eq_refl) as [Hout2 Hoth2]. split.
    { rewrite <- Hout. exact Hout2. }
    intros other Hother. rewrite Hoth2.
    + apply Hoth. intros ->. apply Hother. by left.
    + intros Hmem. apply Hother. by right.
  - intros [= <- <-]. split; [by exists t1|]. split; [done|].
    intros ->. destruct (Hin eq_refl) as [Hout Hoth]. split; [by left|].
    intros other Hother. apply Hoth. intros ->. apply Hother. by left.
Qed.

(** [main] processes the inputs up to the first that fails, and its result
    is decided by that one. *)
Lemma main_splits inplace args w :
  exists pre rest w1,
    args = pre ++ rest /\ all_succeed inplace pre w w1 /\
    ((rest = [] /\ main inplace args w = (Returns tt, w1)) \/
     (exists f post err w2,
        rest = f :: post /\
        ProcessFile f inplace w1 = (Returns (Some err), w2) /\
        main inplace args w = (Returns tt, println err w2)) \/
     (exists f post p w2,
        rest = f :: post /\
        ProcessFile f inplace w1 = (Panics p, w2) /\
        main inplace args w = (Panics p, w2))).
Proof.
  revert w. induction args as [|f args IH]; intros w.
  { exists [], [], w. split; [done|]. split; [done|]. by left. }
  simpl. destruct (ProcessFile f inplace w) as [[[err|]|p] w1] eqn:Hf.
  - exists [], (f :: args), w. split; [done|]. split; [done|].
    right. left. by exists f, args, err, w1.
  - destruct (IH w1) as (pre & rest & w2 & -> & Hpre & Hcases).
    exists (f :: pre), rest, w2. split; [done|]. split.
    { simpl. by exists w1. }
    done.
  - exists [], (f :: args), w. split; [done|]. split; [done|].
    right. right. by exists f, args, p, w1.
Qed.
End Loop.

(** [ProcessFile] writes what [Process] returns for a source text that
    parses to the same tree as the file. *)
Lemma ProcessFile_Process
    (ParseFile : gmap string string -> string -> error + node)
    (ParseSource : string -> error + node)
    (CreateError : gmap string string -> string -> option error)
    (Fprint : node -> string * option error) filename src f w :
  ParseSource src = inr f ->
  ParseFile (files w) filename = inr f ->
  Driver.ProcessFile ParseFile CreateError Fprint filename false w
  = match Process ParseSource Fprint src with
    | Returns (text, err) => (Returns err, write_stdout text w)
    | Panics p => (Panics p, w)
    end /\
  (CreateError (files w) filename = None ->
   Driver.ProcessFile ParseFile CreateError Fprint filename true w
   = match Process ParseSource Fprint src with
     | Returns (text, err) =>
         (Returns err,
          {| files := <[filename := text]> (files w); stdout := stdout w |})
     | Panics p => (Panics p, truncate filename w)
     end).
Proof.
  intros Hsrc Hparse. unfold Driver.ProcessFile, Process.
  rewrite Hparse, Hsrc. split.
  - destruct (rewrite f) as [f'|p]; [|done]. by destruct (Fprint f').
  - intros ->. destruct (rewrite f) as [f'|p]; [|done].
    destruct (Fprint f') as [text err].
    unfold write_file, truncate. simpl.
    by rewrite lookup_insert_eq, insert_insert_eq.
Qed.
End MoreDriverFacts.

Module AgainFacts.
Import Tree TreeFacts Traversal TravFacts OutputFacts.

(** [rewrite] copies what it does not rewrite. *)
Lemma rewrite_copied (s s' : nodeF node) :
  rewrite (Node s) = Ok (Node s') -> copied s' = copied s.
Proof.
  intros H. pose proof H as Hfit. apply rewrite_Ok_local in Hfit as [Hfit _].
  destruct s; try discriminate Hfit;
    try (simpl in H; by injection H as <-).
  all: simpl in H; bind_inv H; by injection H as <-.
Qed.

Lemma returns_rewritesTo isT x x' :
  rewritesTo isT x x' -> Forall (yields returnsOn) (inSlot x) ->
  present isT x' = true /\ Forall returnsOn (inSlot x').
Proof.
  intros H HP. split; [|by eapply yields_rewritesTo].
  by destruct H as (e & e' & -> & -> & _ & Ht).
Qed.

Lemma returns_rewritesToOpt isT x x' :
  rewritesToOpt isT x x' -> Forall (yields returnsOn) (inSlot x) ->
  absentOr isT x' = true /\ Forall returnsOn (inSlot x').
Proof.
  intros H HP. split; [|by eapply yields_rewritesToOpt].
  destruct H as [[-> ->]|(e & e' & -> & -> & _ & Ht)]; done.
Qed.

Lemma returns_Forall2 isT l l' :
  Forall2 (rewritesTo isT) l l' -> Forall (yields returnsOn) (omap id l) ->
  forallb (present isT) l' = true /\ Forall returnsOn (omap id l').
Proof.
  intros H HP. split; [|by eapply yields_Forall2].
  clear HP. induction H as [|x x' l l' Hx _ IH]; [done|].
  destruct Hx as (e & e' & -> & -> & _ & Ht). simpl. by rewrite Ht.
Qed.

Lemma returns_rewriteReq isT np x x' :
  rewriteReq mem rewrite isT np x = Ok x' ->
  Forall (yields returnsOn) (inSlot x) ->
  present isT x' = true /\ Forall returnsOn (inSlot x').
Proof. intros H. apply rewriteReq_Ok in H. by apply returns_rewritesTo. Qed.

Lemma returns_rewriteOpt isT np x x' :
  rewriteOpt mem rewrite isT np x = Ok x' ->
  Forall (yields returnsOn) (inSlot x) ->
  absentOr isT x' = true /\ Forall returnsOn (inSlot x').
Proof. intros H. apply rewriteOpt_Ok in H. by apply returns_rewritesToOpt. Qed.

Lemma returns_rewriteSlice isT np xs xs' :
  rewriteSlice mem (rewriteReq mem rewrite isT np) xs = Ok xs' ->
  Forall (yields returnsOn) (inSlice xs) ->
  eachPresent isT xs' = true /\ Forall returnsOn (inSlice xs').
Proof.
  intros H HP. apply rewriteSlice_Ok in H.
  assert (sliceRel (rewritesTo isT) xs xs') as H'.
  { eapply sliceRel_impl; [|exact H]. intros x x'. apply rewriteReq_Ok. }
  apply sliceRel_elems in H'. by apply (returns_Forall2 isT (elems xs)).
Qed.

Ltac return_facts :=
  repeat match goal with
  | H : rewriteReq mem rewrite _ _ ?x = Ok _,
    HP : Forall (yields _) (inSlot ?x) |- _ =>
      apply (fun H => returns_rewriteReq _ _ _ _ H HP) in H as [? ?]
  | H : rewriteOpt mem rewrite _ _ ?x = Ok _,
    HP : Forall (yields _) (inSlot ?x) |- _ =>
      apply (fun H => returns_rewriteOpt _ _ _ _ H HP) in H as [? ?]
  | H : rewriteSlice mem _ ?x = Ok _,
    HP : Forall (yields _) (inSlice ?x) |- _ =>
      apply (fun H => returns_rewriteSlice _ _ _ _ H HP) in H as [? ?]
  end.

Lemma returnsOn_ctxParam : returnsOn ctxParam.
Proof. by exists ctxParam. Qed.

(** [rewrite] returns on what it returned. *)
Lemma rewrite_again t : yields returnsOn t.
Proof.
  revert t. apply (node_ind_visited (yields returnsOn)).
  intros s IH out H.
  destruct s;
    try (simpl in H; injection H as <-; by eexists);
    try (simpl in H; discriminate H).
  all: try (simpl in H, IH; bind_inv H; unfold_helpers;
            repeat match goal with
            | H : Forall _ (_ ++ _) |- _ => apply Forall_app in H as [? ?]
            end;
            return_facts; injection H as <-;
            apply rewrite_local_returns; simpl;
            [repeat (apply andb_true_iff; split); assumption
            |repeat apply Forall_app_2; assumption]).
  - (* CallExpr *)
    apply rewrite_CallExpr in H as (fn' & args' & Hfn & Hargs & ->).
    simpl in IH. apply Forall_app in IH as [IHfn IHargs].
    destruct (returns_rewritesTo _ _ _ Hfn IHfn) as [Hfn1 Hfn2].
    destruct (returns_Forall2 _ _ _ Hargs IHargs) as [Ha1 Ha2].
    apply rewrite_local_returns.
    + simpl. rewrite Hfn1. unfold each. simpl. by rewrite Ha1.
    + simpl. apply Forall_app_2; [done|]. unfold inSlice. simpl.
      constructor; [by exists ctxIdent|done].
  - (* File *)
    apply rewrite_File in H as (decls' & Hdecls & ->). simpl in IH.
    destruct (returns_Forall2 _ _ _ Hdecls IH) as [Hd1 Hd2].
    apply rewrite_local_returns.
    + simpl. unfold each. simpl. by rewrite Hd1.
    + unfold visited, inSlice. simpl. constructor; [by eexists|done].
  - (* FuncType *)
    pose proof H as Hfit. apply rewrite_Ok_local in Hfit as [Hfit _].
    simpl in Hfit. apply andb_true_iff in Hfit as [Hp _].
    destruct Params as [p|]; [|done]. simpl in Hp.
    apply isFieldList_inv in Hp as [ps ->].
    apply rewrite_FuncType in H as (ps' & results' & Hps & Hres & ->).
    simpl in IH. inversion IH as [|? ? IHp IHres]; subst.
    destruct (returns_rewritesToOpt _ _ _ Hres IHres) as [Hr1 Hr2].
    assert (forallb (present isField) ps' = true /\
            Forall returnsOn (omap id ps')) as [Hp1 Hp2].
    { destruct ps as [l|]; simpl in Hps; [|by inversion Hps].
      assert (returnsOn (Node (FieldList (Some ps')))) as [out Hout].
      { apply IHp. apply rewrite_FieldList. by exists (Some ps'). }
      apply rewrite_Ok_local in Hout as [Hfit Hvis]. done. }
    apply rewrite_local_returns.
    + simpl. by rewrite Hr1.
    + simpl. constructor; [|done]. apply rewrite_local_returns.
      * simpl. unfold each. simpl. by rewrite Hp1.
      * unfold visited, inSlice. simpl. constructor; [apply returnsOn_ctxParam|done].
Qed.

(** Rewriting twice adds the context twice. *)
Lemma rewrite_twice_CallExpr fn args ell t1 t2 :
  rewrite (Node (CallExpr fn args ell)) = Ok t1 -> rewrite t1 = Ok t2 ->
  exists fn2 rest,
    t2 = Node (CallExpr fn2 (Some (Some ctxIdent :: Some ctxIdent :: rest)) ell).
Proof.
  intros H1 H2.
  apply rewrite_CallExpr in H1 as (fn' & args' & _ & _ & ->).
  apply rewrite_CallExpr in H2 as (fn2 & args2 & _ & Hargs & ->).
  simpl in Hargs. inversion Hargs as [|? x' ? rest Hx Hrest]; subst.
  destruct Hx as (e & e' & [= <-] & -> & [= <-] & _). by eexists _, _.
Qed.

Lemma rewrite_twice_FuncType params results t1 t2 :
  rewrite (Node (FuncType params results)) = Ok t1 -> rewrite t1 = Ok t2 ->
  exists rest results2,
    t2 = Node (FuncType
           (Some (Node (FieldList
              (Some (Some ctxParam :: Some ctxParam :: rest))))) results2).
Proof.
  intros H1 H2.
  pose proof H1 as Hfit. apply rewrite_Ok_local in Hfit as [Hfit _].
  simpl in Hfit. apply andb_true_iff in Hfit as [Hp _].
  destruct params as [p|]; [|done]. simpl in Hp.
  apply isFieldList_inv in Hp as [ps ->].
  apply rewrite_FuncType in H1 as (ps' & results' & _ & _ & ->).
  apply rewrite_FuncType in H2 as (ps2 & results2 & Hps & _ & ->).
  simpl in Hps. inversion Hps as [|? x' ? rest Hx Hrest]; subst.
  destruct Hx as (e & e' & [= <-] & -> & [= <-] & _). by eexists _, _.
Qed.

Lemma rewrite_twice_File name decls imports unresolved comments t1 t2 :
  rewrite (Node (File name decls imports unresolved comments)) = Ok t1 ->
  rewrite t1 = Ok t2 ->
  exists rest,
    t2 = Node (File name
           (Some (Some contextImport :: Some contextImport :: rest))
           imports unresolved comments).
Proof.
  intros H1 H2.
  apply rewrite_File in H1 as (decls' & _ & ->).
  apply rewrite_File in H2 as (decls2 & Hdecls & ->).
  simpl in Hdecls. inversion Hdecls as [|? x' ? rest Hx Hrest]; subst.
  destruct Hx as (e & e' & [= <-] & -> & [= <-] & _). by eexists.
Qed.
End AgainFacts.

(** * Further properties of the rewriter *)

Import Traversal Source Samples.

(** X1. [rewriteExprs] and [rewriteStmts] return exactly when [rewrite]
    returns an expression (a statement) on every element: the result is
    nil if the input is, has the length of the input, and holds at each
    index the rewritten element of that index. *)
Theorem X1_slices_rewritten_elementwise :
  (forall xs xs',
     rewriteExprs mem rewrite xs = Ok xs' <-> mapsEach isExpr xs xs') /\
  (forall xs xs',
     rewriteStmts mem rewrite xs = Ok xs' <-> mapsEach isStmt xs xs').
Proof. split; intros xs xs'; apply TravFacts.rewriteSlice_mapsEach. Qed.

(** X2. What [rewrite] returns has the node type of its argument: an
    expression for an expression, a statement for a statement, a
    declaration for a declaration, a spec for a spec. *)
Theorem X2_rewrite_keeps_node_type n n' :
  rewrite n = Ok n' ->
  kindOf (struct_of n') = kindOf (struct_of n) /\
  isExpr (struct_of n') = isExpr (struct_of n) /\
  isStmt (struct_of n') = isStmt (struct_of n) /\
  isDecl (struct_of n') = isDecl (struct_of n) /\
  isSpec (struct_of n') = isSpec (struct_of n).
Proof.
  intros H. apply rewrite_kind in H. split; [done|].
  split; [by apply TravFacts.byKind_isExpr|].
  split; [by apply TravFacts.byKind_isStmt|].
  split; [by apply TravFacts.byKind_isDecl|by apply TravFacts.byKind_isSpec].
Qed.

Lemma X2_witness :
  kindOf (struct_of parenCallCtxF) = kindOf (struct_of parenCallF) /\
  isExpr (struct_of parenCallCtxF) = isExpr (struct_of parenCallF) /\
  isStmt (struct_of parenCallCtxF) = isStmt (struct_of parenCallF) /\
  isDecl (struct_of parenCallCtxF) = isDecl (struct_of parenCallF) /\
  isSpec (struct_of parenCallCtxF) = isSpec (struct_of parenCallF).
Proof. apply (X2_rewrite_keeps_node_type parenCallF parenCallCtxF). reflexivity. Defined.

(** X3. But for a call and a file, whose argument and declaration lists
    grow by one, [rewrite] returns a struct of the shape of its argument:
    the same node type and scalar fields, the same slots filled, the same
    slices nil and the others of the same length. *)
Theorem X3_rewrite_keeps_shape (s s' : nodeF node) :
  rewrite (Node s) = Ok (Node s') ->
  isCallExpr s = false -> isFile s = false ->
  shapeOf s' = shapeOf s.
Proof. apply ShapeFacts.rewrite_shape. Qed.

Lemma X3_witness :
  shapeOf (struct_of parenCallCtxF) = shapeOf (struct_of parenCallF).
Proof.
  apply (X3_rewrite_keeps_shape (struct_of parenCallF) (struct_of parenCallCtxF));
    reflexivity.
Defined.

(** X4. In the tree [rewrite] returns, every call that the traversal
    reaches leads with the argument [ctx] and every function type it
    reaches leads with the parameter [ctx context.Context], at any
    depth. *)
Theorem X4_output_carries_ctx_everywhere t t' n :
  rewrite t = Ok t' -> Reaches t' n -> carriesCtx n.
Proof. intros H. by apply (OutputFacts.rewrite_carriesCtx t t'). Qed.

Lemma X4_witness : carriesCtx callCtxF.
Proof.
  apply (X4_output_carries_ctx_everywhere parenCallF parenCallCtxF).
  - reflexivity.
  - eapply reaches_child; [|apply reaches_self]. simpl. left.
Defined.

(** X5. [rewrite] returns on a tree exactly if every node the traversal
    reaches has a case in the switch and holds, in each slot that the case
    reads without a nil check and in each element of a slice it ranges
    over, a node of the asserted type, and in each slot read behind a
    check nothing or such a node. *)
Theorem X5_rewrite_returns_iff_every_node_fits t :
  (exists t', rewrite t = Ok t') <->
  everywhere (fun n => fitsCase (struct_of n) = true) t.
Proof. apply TravFacts.returnsOn_iff. Qed.

(** X6. A node whose type has no case makes the whole rewrite panic,
    wherever the traversal reaches it: no tree is returned. *)
Theorem X6_unknown_node_anywhere_aborts t n :
  Reaches t n -> hasRule (struct_of n) = false ->
  exists p, rewrite t = Panic p.
Proof. apply TravFacts.rewrite_aborts. Qed.

Lemma X6_witness : exists p, rewrite strangeFile = Panic p.
Proof.
  apply (X6_unknown_node_anywhere_aborts strangeFile (Node BadDecl)).
  - eapply reaches_child; [|apply reaches_self]. simpl. left.
  - reflexivity.
Defined.

(** X7. The node a panic of [rewrite] carries is a node of the input that
    the traversal reached, and its type has no case in the switch. *)
Theorem X7_panic_carries_a_reached_node t n :
  rewrite t = Panic (UnknownNode (Some n)) ->
  Reaches t n /\ hasRule (struct_of n) = false.
Proof. apply TravFacts.rewrite_unknown_reached. Qed.

Lemma X7_witness :
  Reaches strangeFile (Node BadDecl) /\
  hasRule (struct_of (Node (@BadDecl node))) = false.
Proof.
  apply (X7_panic_carries_a_reached_node strangeFile (Node BadDecl)).
  reflexivity.
Defined.

(** X8. No type assertion of [rewrite] fails on a tree in which every
    node the traversal reaches holds in its slots nodes of the types the
    assertions name, which are the static types of the fields. *)
Theorem X8_type_assertions_hold t :
  everywhere (fun n => wellTyped (struct_of n) = true) t ->
  rewrite t <> Panic TypeAssertion.
Proof. apply AssertFacts.rewrite_asserts_hold. Qed.

Lemma X8_witness : rewrite parenCallF <> Panic TypeAssertion.
Proof.
  apply (X8_type_assertions_hold parenCallF).
  repeat (apply OutputFacts.everywhere_node; [reflexivity|];
          simpl; repeat constructor).
Defined.

(** X9. On a node that is not one of the five leaves, a run of [rewrite]
    on pointers that returns returns a pointer to a cell that the store it
    started from did not have: the result is never the input, nor any
    other node of the input. *)
Theorem X9_result_is_a_new_cell fuel (h : list (nodeF nat)) v s v1 h1 :
  h !! v = Some s -> isLeaf s = false ->
  Heap.rewrite fuel v h = Heap.Done v1 h1 ->
  length h <= v1 /\ v1 <> v.
Proof. apply MoreHeapFacts.rewrite_fresh. Qed.

Lemma X9_witness : length store0 <= 11 /\ 11 <> 4.
Proof.
  apply (X9_result_is_a_new_cell 3 store0 4 (FuncType (Some 3) None) 11 store1);
    reflexivity.
Defined.

(** X10. On a store that holds a finite tree below the input pointer,
    the run of [rewrite] on pointers ends, given enough fuel and with any
    more, as [rewrite] on that tree does: it returns a pointer to the
    rewritten tree, or it panics. *)
Theorem X10_rewrite_ends_on_trees (h : list (nodeF nat)) v t :
  Heap.content h v t ->
  exists fuel, forall fuel', fuel <= fuel' ->
    match rewrite t with
    | Ok t1 =>
        exists v1 h1, Heap.rewrite fuel' v h = Heap.Done v1 h1 /\
                      Heap.content h1 v1 t1
    | Panic _ => exists p, Heap.rewrite fuel' v h = Heap.Panicked p
    end.
Proof. apply MoreHeapFacts.rewrite_terminates. Qed.

Lemma X10_witness :
  exists fuel, forall fuel', fuel <= fuel' ->
    match rewrite callF with
    | Ok t1 =>
        exists v1 h1, Heap.rewrite fuel' 2 store0 = Heap.Done v1 h1 /\
                      Heap.content h1 v1 t1
    | Panic _ => exists p, Heap.rewrite fuel' 2 store0 = Heap.Panicked p
    end.
Proof.
  apply (X10_rewrite_ends_on_trees store0 2 callF). exists 2. reflexivity.
Defined.

(** X11. One call of [ProcessFile] only appends to standard output.
    Without [-w] it leaves every file as it is. With [-w] it writes
    nothing to standard output and leaves every file but the named one as
    it is. *)
Theorem X11_ProcessFile_touches_only_its_output
    (ParseFile : gmap string string -> string -> error + node)
    (CreateError : gmap string string -> string -> option error)
    (Fprint : node -> string * option error) filename w :
  (exists text,
     stdout (ProcessFile ParseFile CreateError Fprint filename false w).2
     = stdout w +:+ text) /\
  files (ProcessFile ParseFile CreateError Fprint filename false w).2
    = files w /\
  stdout (ProcessFile ParseFile CreateError Fprint filename true w).2
    = stdout w /\
  (forall other, other <> filename ->
     files (ProcessFile ParseFile CreateError Fprint filename true w).2 !! other
     = files w !! other).
Proof.
  destruct (ProcessFile ParseFile CreateError Fprint filename false w)
    as [r0 w0] eqn:H0.
  destruct (ProcessFile ParseFile CreateError Fprint filename true w)
    as [r1 w1] eqn:H1.
  destruct (MoreDriverFacts.ProcessFile_frame _ _ _ _ _ _ _ _ H0)
    as (Hout & Hfiles & _).
  destruct (MoreDriverFacts.ProcessFile_frame _ _ _ _ _ _ _ _ H1)
    as (_ & _ & Hin).
  destruct (Hin eq_refl) as [Hout1 Hoth]. simpl. by auto.
Qed.

Lemma X11_witness :
  files (ProcessFile parseStub createStub printStub "a.go" true world0).2
    !! "strange.go"
  = files world0 !! "strange.go".
Proof.
  apply (X11_ProcessFile_touches_only_its_output parseStub createStub printStub
           "a.go" world0).
  discriminate.
Defined.

(** X12. A run of [main] only appends to standard output. Without [-w] it
    leaves every file as it is. With [-w] it leaves every file that is not
    among its arguments as it is, and prints nothing but the error that
    ends the run, if one does. *)
Theorem X12_main_touches_only_its_outputs
    (ParseFile : gmap string string -> string -> error + node)
    (CreateError : gmap string string -> string -> option error)
    (Fprint : node -> string * option error) args w :
  (forall inplace, exists text,
     stdout (main ParseFile CreateError Fprint inplace args w).2
     = stdout w +:+ text) /\
  files (main ParseFile CreateError Fprint false args w).2 = files w /\
  (stdout (main ParseFile CreateError Fprint true args w).2 = stdout w \/
   exists err,
     stdout (main ParseFile CreateError Fprint true args w).2
     = stdout w +:+ (err +:+ newline)) /\
  (forall other, other ∉ args ->
     files (main ParseFile CreateError Fprint true args w).2 !! other
     = files w !! other).
Proof.
  split.
  { intros inplace.
    destruct (main ParseFile CreateError Fprint inplace args w) as [r w'] eqn:H.
    by destruct (MoreDriverFacts.main_frame _ _ _ _ _ _ _ _ H) as (Hout & _). }
  destruct (main ParseFile CreateError Fprint false args w) as [r0 w0] eqn:H0.
  destruct (main ParseFile CreateError Fprint true args w) as [r1 w1] eqn:H1.
  destruct (MoreDriverFacts.main_frame _ _ _ _ _ _ _ _ H0) as (_ & Hfiles & _).
  destruct (MoreDriverFacts.main_frame _ _ _ _ _ _ _ _ H1) as (_ & _ & Hin).
  destruct (Hin eq_refl) as [Hout1 Hoth]. simpl. by auto.
Qed.

Lemma X12_witness :
  files (main parseStub createStub printStub true ["a.go"; "missing.go"]
           world0).2 !! "strange.go"
  = files world0 !! "strange.go".
Proof.
  apply (X12_main_touches_only_its_outputs parseStub createStub printStub
           ["a.go"; "missing.go"] world0).
  intros H. by repeat (apply elem_of_cons in H as [H|H]; [discriminate H|]);
    apply elem_of_nil in H.
Defined.

(** X13. Every run of [main] processes its inputs in order up to the
    first that does not succeed: either all succeed and [main] returns, or
    the first that fails returns an error, which [main] prints before it
    returns, or it panics, and the panic ends [main]; no later input is
    processed. *)
Theorem X13_main_runs_up_to_first_failure
    (ParseFile : gmap string string -> string -> error + node)
    (CreateError : gmap string string -> string -> option error)
    (Fprint : node -> string * option error) inplace args w :
  exists pre rest w1,
    args = pre ++ rest /\
    all_succeed ParseFile CreateError Fprint inplace pre w w1 /\
    ((rest = [] /\
      main ParseFile CreateError Fprint inplace args w = (Returns tt, w1)) \/
     (exists f post err w2,
        rest = f :: post /\
        ProcessFile ParseFile CreateError Fprint f inplace w1
          = (Returns (Some err), w2) /\
        main ParseFile CreateError Fprint inplace args w
          = (Returns tt, println err w2)) \/
     (exists f post p w2,
        rest = f :: post /\
        ProcessFile ParseFile CreateError Fprint f inplace w1 = (Panics p, w2) /\
        main ParseFile CreateError Fprint inplace args w = (Panics p, w2))).
Proof. apply MoreDriverFacts.main_splits. Qed.

(** X14. [ProcessFile] writes what [Process] returns: when the parser
    reads the file as it reads the source text, [ProcessFile] without [-w]
    appends to standard output the bytes [Process] returns, and with [-w],
    when the file can be created, leaves them as the content of the file;
    it returns the error [Process] returns, and panics when [Process]
    does, then with the file truncated under [-w]. *)
Theorem X14_ProcessFile_writes_what_Process_returns
    (ParseFile : gmap string string -> string -> error + node)
    (ParseSource : string -> error + node)
    (CreateError : gmap string string -> string -> option error)
    (Fprint : node -> string * option error) filename src f w :
  ParseSource src = inr f ->
  ParseFile (files w) filename = inr f ->
  ProcessFile ParseFile CreateError Fprint filename false w
  = match Process ParseSource Fprint src with
    | Returns (text, err) => (Returns err, write_stdout text w)
    | Panics p => (Panics p, w)
    end /\
  (CreateError (files w) filename = None ->
   ProcessFile ParseFile CreateError Fprint filename true w
   = match Process ParseSource Fprint src with
     | Returns (text, err) =>
         (Returns err,
          {| files := <[filename := text]> (files w); stdout := stdout w |})
     | Panics p => (Panics p, truncate filename w)
     end).
Proof. apply MoreDriverFacts.ProcessFile_Process. Qed.

Lemma X14_witness :
  ProcessFile parseStub createStub printStub "a.go" false world0
  = match Process parseSourceStub printStub "package p" with
    | Returns (text, err) => (Returns err, write_stdout text world0)
    | Panics p => (Panics p, world0)
    end /\
  (createStub (files world0) "a.go" = None ->
   ProcessFile parseStub createStub printStub "a.go" true world0
   = match Process parseSourceStub printStub "package p" with
     | Returns (text, err) =>
         (Returns err,
          {| files := <["a.go" := text]> (files world0);
             stdout := stdout world0 |})
     | Panics p => (Panics p, truncate "a.go" world0)
     end).
Proof.
  apply (X14_ProcessFile_writes_what_Process_returns parseStub parseSourceStub
           createStub printStub "a.go" "package p" emptyFile world0);
    reflexivity.
Defined.

(** X15. [rewrite] copies every field that it does not rewrite: the
    struct it returns has the scalar fields of its argument (operators,
    tokens, positions, flags) and the same nodes in the slots it does not
    visit (names, labels, selectors, tags, receivers, the type of a value
    spec, the imports and comments of a file). *)
Theorem X15_unvisited_fields_are_copied (s s' : nodeF node) :
  rewrite (Node s) = Ok (Node s') -> copied s' = copied s.
Proof. apply AgainFacts.rewrite_copied. Qed.

Lemma X15_witness : copied (struct_of selCallCtxF) = copied (struct_of selCallF).
Proof.
  apply (X15_unvisited_fields_are_copied (struct_of selCallF)
           (struct_of selCallCtxF)).
  reflexivity.
Defined.

(** X16. [rewrite] returns on every tree it returned: its output is
    again in its domain. *)
Theorem X16_rewrite_returns_on_its_output t t1 :
  rewrite t = Ok t1 -> exists t2, rewrite t1 = Ok t2.
Proof. apply AgainFacts.rewrite_again. Qed.

Lemma X16_witness : exists t2, rewrite parenCallCtxF = Ok t2.
Proof.
  apply (X16_rewrite_returns_on_its_output parenCallF parenCallCtxF).
  reflexivity.
Defined.

(** X17. [rewrite] is not idempotent: rewriting what it returned adds the
    context once more. A call rewritten twice leads with the argument
    [ctx] twice, a function type with the parameter [ctx context.Context]
    twice, and a file with the import declaration twice. *)
Theorem X17_rewriting_twice_adds_ctx_twice :
  (forall fn args ell t1 t2,
     rewrite (Node (CallExpr fn args ell)) = Ok t1 -> rewrite t1 = Ok t2 ->
     exists fn2 rest,
       t2 = Node (CallExpr fn2
                    (Some (Some ctxIdent :: Some ctxIdent :: rest)) ell)) /\
  (forall params results t1 t2,
     rewrite (Node (FuncType params results)) = Ok t1 -> rewrite t1 = Ok t2 ->
     exists rest results2,
       t2 = Node (FuncType
              (Some (Node (FieldList
                 (Some (Some ctxParam :: Some ctxParam :: rest))))) results2)) /\
  (forall name decls imports unresolved comments t1 t2,
     rewrite (Node (File name decls imports unresolved comments)) = Ok t1 ->
     rewrite t1 = Ok t2 ->
     exists rest,
       t2 = Node (File name
              (Some (Some contextImport :: Some contextImport :: rest))
              imports unresolved comments)).
Proof.
  split; [|split].
  - apply AgainFacts.rewrite_twice_CallExpr.
  - apply AgainFacts.rewrite_twice_FuncType.
  - apply AgainFacts.rewrite_twice_File.
Qed.

Lemma X17_witness :
  exists fn2 rest,
    callCtxCtxF
    = Node (CallExpr fn2 (Some (Some ctxIdent :: Some ctxIdent :: rest)) 0%Z).
Proof.
  apply (proj1 X17_rewriting_twice_adds_ctx_twice
           (Some (ident "f")) (Some [Some (ident "x")]) 0%Z callCtxF callCtxCtxF);
    reflexivity.
Defined.
